(** * TQA-Agent: the MCTS search core and its execution contract

    A shallow embedding of the search-and-selection engine of the
    table question answering agent:

    - [core/table_context.py]      header lookup and column resolution
    - [core/reasoning_context.py]  the forkable reasoning state
    - [core/trace.py]              trace steps and reasoning paths
    - [core/mcts_node.py]          tree nodes
    - [core/heuristics.py]         stopping and pruning predicates
    - [core/mcts.py]               the MCTS runner
    - [actions/registry.py], [actions/termination/finish.py],
      [actions/knowledge_retrieval/general_retrieval.py]
    - [agents/mcts/execution_agent.py]

    Modelling conventions.

    - Python objects that are mutated while shared (contexts, paths,
      memory and metadata dicts, step lists, tree nodes) live in typed
      stores and are denoted by locations; an assignment to a field is an
      update of the store at that location.
    - Python [int] is [Z].  A Python [float] that the search computes
      with (rewards, running means) is a real number in [R]; the
      selection scores and the exploration constant, where the source
      writes or may be given an infinity, are in [xreal]: a finite
      value, [PInf], [NInf] or [NaN].  Finite arithmetic is exact:
      rounding and overflow are outside the model.
    - Python [str] is [string]; case folding and whitespace follow the
      ASCII table, other characters are left alone.
    - Exceptions are values [exn]; code that may raise returns [Res].
      Only subclasses of [Exception] are modelled. *)

From Stdlib Require Import ZArith Reals Lra Lia String Ascii List Sorted.
From stdpp Require Import base gmap strings list.

Open Scope Z_scope.

(** ** Exceptions and results *)

Record exn := mkExn { exn_class : string; exn_msg : string }.

Inductive Res (A : Type) : Type :=
| Ok (a : A)
| Raise (e : exn).
Arguments Ok {A} a.
Arguments Raise {A} e.

Definition is_ok {A} (r : Res A) : bool :=
  match r with Ok _ => true | Raise _ => false end.

(** ** Insertion-ordered dictionaries

    A Python [dict] whose iteration order is observed by the code
    ([header_index.items()], [node.children.items()]): an association
    list without duplicate keys.  Rebinding an existing key keeps its
    position; a new key goes last. *)

Section OrderedDict.
Context {K V : Type} `{EqDecision K}.

Fixpoint od_get (k : K) (d : list (K * V)) : option V :=
  match d with
  | [] => None
  | (k', v) :: d' => if decide (k = k') then Some v else od_get k d'
  end.

Fixpoint od_set (k : K) (v : V) (d : list (K * V)) : list (K * V) :=
  match d with
  | [] => [(k, v)]
  | (k', v') :: d' =>
      if decide (k = k') then (k, v) :: d' else (k', v') :: od_set k v d'
  end.

Definition od_mem (k : K) (d : list (K * V)) : bool :=
  match od_get k d with Some _ => true | None => false end.

Definition od_keys (d : list (K * V)) : list K := map fst d.
End OrderedDict.

(** ** Tables ([core/table_context.py]) *)

Module Table.

(** Characters for which [str.isspace] holds in the ASCII range. *)
Definition is_space (c : ascii) : bool :=
  let n := nat_of_ascii c in
  ((9 <=? n) && (n <=? 13) || (28 <=? n) && (n <=? 32))%nat.

Definition lower_char (c : ascii) : ascii :=
  let n := nat_of_ascii c in
  if ((65 <=? n) && (n <=? 90))%nat then ascii_of_nat (n + 32) else c.

Fixpoint lower (s : string) : string :=
  match s with
  | EmptyString => EmptyString
  | String c s' => String (lower_char c) (lower s')
  end.

Fixpoint lstrip (s : string) : string :=
  match s with
  | EmptyString => EmptyString
  | String c s' => if is_space c then lstrip s' else s
  end.

(** [rstrip] drops the trailing run of whitespace. *)
Fixpoint rstrip (s : string) : string :=
  match s with
  | EmptyString => EmptyString
  | String c s' =>
      match rstrip s' with
      | EmptyString => if is_space c then EmptyString else String c EmptyString
      | r => String c r
      end
  end.

Definition strip (s : string) : string := rstrip (lstrip s).

(** [re.sub(r"\s+", " ", s)]: every maximal run of whitespace becomes
    one space; [in_run] tells that the previous character was
    whitespace, already replaced. *)
Fixpoint collapse_from (in_run : bool) (s : string) : string :=
  match s with
  | EmptyString => EmptyString
  | String c s' =>
      if is_space c
      then (if in_run then collapse_from true s'
            else String " "%char (collapse_from true s'))
      else String c (collapse_from false s')
  end.

Definition collapse_ws (s : string) : string := collapse_from false s.

Definition _norm (s : string) : string := lower (collapse_ws (strip s)).

Fixpoint prefixb (p s : string) : bool :=
  match p, s with
  | EmptyString, _ => true
  | String a p', String b s' => if Ascii.eqb a b then prefixb p' s' else false
  | String _ _, EmptyString => false
  end.

(** [sub in s] on Python strings. *)
Fixpoint str_in (sub s : string) : bool :=
  prefixb sub s ||
  match s with
  | EmptyString => false
  | String _ s' => str_in sub s'
  end.

Record TableContext := mkTableContext {
  headers : list string;
  rows : list (list string);
  header_index : list (string * nat)
}.

(** [{_norm(h): i for i, h in enumerate(self.headers)}], filled from
    position [i] on. *)
Fixpoint index_from (i : nat) (hs : list string) (d : list (string * nat))
  : list (string * nat) :=
  match hs with
  | [] => d
  | h :: hs' => index_from (S i) hs' (od_set (_norm h) i d)
  end.

(** The dataclass constructor followed by [__post_init__]. *)
Definition new (hs : list string) (rs : list (list string)) : TableContext :=
  mkTableContext hs rs (index_from 0 hs []).

(** [list.sort(key=lambda x: len(x[0]))]: stable, ascending. *)
Fixpoint insert_by_len (x : string * nat) (l : list (string * nat))
  : list (string * nat) :=
  match l with
  | [] => [x]
  | y :: l' =>
      if (String.length (fst y) <? String.length (fst x))%nat
      then y :: insert_by_len x l'
      else x :: l
  end.

Fixpoint sort_by_len (l : list (string * nat)) : list (string * nat) :=
  match l with
  | [] => []
  | x :: l' => insert_by_len x (sort_by_len l')
  end.

Definition related (key k : string) : bool := str_in key k || str_in k key.

Definition resolve_col (t : TableContext) (name : string) : Res nat :=
  let key := _norm name in
  match od_get key (header_index t) with
  | Some i => Ok i
  | None =>
      let cands :=
        List.filter (fun ki => related key (fst ki)) (header_index t) in
      match cands with
      | [] => Raise (mkExn "KeyError" ("Column not found: " ++ name))
      | _ :: _ =>
          match sort_by_len cands with
          | (_, i) :: _ => Ok i
          | [] => Raise (mkExn "IndexError" "list index out of range")
          end
      end
  end.

(** Specification vocabulary for the header index. *)

(** [last_at k hs j]: [j] is the last position of [hs] whose normalized
    header is [k]. *)
Definition last_at (k : string) (hs : list string) (j : nat) : Prop :=
  (exists h, hs !! j = Some h /\ _norm h = k) /\
  (forall j' h', (j < j')%nat -> hs !! j' = Some h' -> _norm h' <> k).

Definition absent (k : string) (hs : list string) : Prop :=
  forall j h, hs !! j = Some h -> _norm h <> k.


End Table.

Import Table.



(** ** Values

    The dynamically typed data of the program: JSON-like values held in
    action specifications, observations, memory and path metadata.
    [VObj] is an opaque handle to an external object (an LLM client, a
    knowledge provider) stored in memory. *)

Set Warnings "-register-all".

Inductive value : Type :=
| VNone
| VBool (b : bool)
| VInt (z : Z)
| VFloat (r : R)
| VStr (s : string)
| VList (l : list value)
| VDict (d : list (string * value))
| VObj (o : nat).

(** Python truthiness ([if v:], [v or default]). *)
Definition truthy (v : value) : bool :=
  match v with
  | VNone => false
  | VBool b => b
  | VInt z => negb (z =? 0)
  | VFloat r => if Req_dec_T r 0 then false else true
  | VStr s => negb (String.eqb s "")
  | VList l => match l with [] => false | _ => true end
  | VDict d => match d with [] => false | _ => true end
  | VObj _ => true
  end.

(** [ActionSpec] and [Observation] ([core/schemas.py]) are dicts by
    annotation only; [build_action] checks that a spec is a dict and
    [execute] replaces a falsy observation, so both are plain values. *)
Abbreviation ActionSpec := value.
Abbreviation Observation := value.

(** ** State and exceptions: [M S A]

    A computation over a mutable state [S] that may raise.  As in
    Python, the effects performed before an exception is raised stay. *)

Definition M (S A : Type) : Type := S -> S * Res A.

Definition ret {S A} (a : A) : M S A := fun s => (s, Ok a).

Definition bind {S A B} (m : M S A) (k : A -> M S B) : M S B :=
  fun s =>
    match m s with
    | (s', Ok a) => k a s'
    | (s', Raise e) => (s', Raise e)
    end.

Definition raise {S A} (e : exn) : M S A := fun s => (s, Raise e).

(** [try: m except Exception as e: handler(e)] *)
Definition try_except {S A} (m : M S A) (handler : exn -> M S A) : M S A :=
  fun s =>
    match m s with
    | (s', Ok a) => (s', Ok a)
    | (s', Raise e) => handler e s'
    end.

Definition lift_res {S A} (r : Res A) : M S A := fun s => (s, r).

Definition gets {S A} (f : S -> A) : M S A := fun s => (s, Ok (f s)).
Definition modify {S} (f : S -> S) : M S unit := fun s => (f s, Ok tt).

Notation "x <- m ;; k" := (bind m (fun x => k))
  (at level 100, m at next level, right associativity).
Notation "m ;;; k" := (bind m (fun _ => k))
  (at level 100, right associativity).

(** A reference that denotes no object; no well-formed store has one. *)
Definition dangling (what : string) : exn :=
  mkExn "AttributeError" ("no such object: " ++ what).

Definition of_option {S A} (what : string) (o : option A) : M S A :=
  match o with
  | Some a => ret a
  | None => raise (dangling what)
  end.

(** ** Traces ([core/trace.py]) *)

(** A location: an index into a store. *)
Abbreviation loc := nat.

Module TraceStep.
Record t := mk {
  action_spec : ActionSpec;
  observation : Observation;
  error : option string;
  score : option R
}.
End TraceStep.

Module ReasoningPath.
(** [steps] and [meta] refer to a list object and a dict object. *)
Record t := mk {
  steps : loc;
  final_answer : value;
  terminal : bool;
  total_score : R;
  meta : loc
}.
Definition set_final_answer (v : value) (p : t) : t :=
  mk (steps p) v (terminal p) (total_score p) (meta p).
Definition set_terminal (b : bool) (p : t) : t :=
  mk (steps p) (final_answer p) b (total_score p) (meta p).
Definition set_total_score (r : R) (p : t) : t :=
  mk (steps p) (final_answer p) (terminal p) r (meta p).
Definition set_meta (m : loc) (p : t) : t :=
  mk (steps p) (final_answer p) (terminal p) (total_score p) m.
End ReasoningPath.

(** ** The reasoning state ([core/reasoning_context.py]) *)

Module ReasoningContext.
(** [table] and [view] refer to table objects, [memory] to a dict
    object, [path] to a path object. *)
Record t := mk {
  table : loc;
  view : loc;
  question : string;
  memory : loc;
  path : loc;
  done : bool;
  answer : value;
  depth : Z
}.
Definition set_view (l : loc) (c : t) : t :=
  mk (table c) l (question c) (memory c) (path c) (done c) (answer c) (depth c).
Definition set_done (b : bool) (c : t) : t :=
  mk (table c) (view c) (question c) (memory c) (path c) b (answer c) (depth c).
Definition set_answer (v : value) (c : t) : t :=
  mk (table c) (view c) (question c) (memory c) (path c) (done c) v (depth c).
Definition set_depth (d : Z) (c : t) : t :=
  mk (table c) (view c) (question c) (memory c) (path c) (done c) (answer c) d.
End ReasoningContext.

(** ** The object store

    One store per class of mutable object; a location is an index into
    the store of its class and allocation appends. *)

Record Heap := mkHeap {
  h_tables : list Table.TableContext;
  h_dicts : list (gmap string value);
  h_lists : list (list TraceStep.t);
  h_paths : list ReasoningPath.t;
  h_ctxs : list ReasoningContext.t
}.

Definition empty_heap : Heap := mkHeap [] [] [] [] [].

Definition with_tables (f : list Table.TableContext -> list Table.TableContext)
  (h : Heap) : Heap :=
  mkHeap (f (h_tables h)) (h_dicts h) (h_lists h) (h_paths h) (h_ctxs h).
Definition with_dicts (f : list (gmap string value) -> list (gmap string value))
  (h : Heap) : Heap :=
  mkHeap (h_tables h) (f (h_dicts h)) (h_lists h) (h_paths h) (h_ctxs h).
Definition with_lists (f : list (list TraceStep.t) -> list (list TraceStep.t))
  (h : Heap) : Heap :=
  mkHeap (h_tables h) (h_dicts h) (f (h_lists h)) (h_paths h) (h_ctxs h).
Definition with_paths (f : list ReasoningPath.t -> list ReasoningPath.t)
  (h : Heap) : Heap :=
  mkHeap (h_tables h) (h_dicts h) (h_lists h) (f (h_paths h)) (h_ctxs h).
Definition with_ctxs (f : list ReasoningContext.t -> list ReasoningContext.t)
  (h : Heap) : Heap :=
  mkHeap (h_tables h) (h_dicts h) (h_lists h) (h_paths h) (f (h_ctxs h)).

(** Allocation and field access. *)
Definition new_dict (d : gmap string value) : M Heap loc :=
  fun h => (with_dicts (fun s => s ++ [d]) h, Ok (length (h_dicts h))).
Definition new_list (l : list TraceStep.t) : M Heap loc :=
  fun h => (with_lists (fun s => s ++ [l]) h, Ok (length (h_lists h))).
Definition new_path (p : ReasoningPath.t) : M Heap loc :=
  fun h => (with_paths (fun s => s ++ [p]) h, Ok (length (h_paths h))).
Definition new_ctx (c : ReasoningContext.t) : M Heap loc :=
  fun h => (with_ctxs (fun s => s ++ [c]) h, Ok (length (h_ctxs h))).
Definition new_table (t : Table.TableContext) : M Heap loc :=
  fun h => (with_tables (fun s => s ++ [t]) h, Ok (length (h_tables h))).

Definition get_dict (l : loc) : M Heap (gmap string value) :=
  fun h => of_option "dict" (h_dicts h !! l) h.
Definition get_list (l : loc) : M Heap (list TraceStep.t) :=
  fun h => of_option "list" (h_lists h !! l) h.
Definition get_path (l : loc) : M Heap ReasoningPath.t :=
  fun h => of_option "path" (h_paths h !! l) h.
Definition get_ctx (l : loc) : M Heap ReasoningContext.t :=
  fun h => of_option "context" (h_ctxs h !! l) h.
Definition get_table (l : loc) : M Heap Table.TableContext :=
  fun h => of_option "table" (h_tables h !! l) h.

(** In-place updates of an existing object. *)
Definition update_dict (l : loc) (f : gmap string value -> gmap string value)
  : M Heap unit :=
  d <- get_dict l ;; modify (with_dicts (fun s => <[l := f d]> s)).
Definition update_list (l : loc) (f : list TraceStep.t -> list TraceStep.t)
  : M Heap unit :=
  x <- get_list l ;; modify (with_lists (fun s => <[l := f x]> s)).
Definition update_path (l : loc) (f : ReasoningPath.t -> ReasoningPath.t)
  : M Heap unit :=
  p <- get_path l ;; modify (with_paths (fun s => <[l := f p]> s)).
Definition update_ctx (l : loc) (f : ReasoningContext.t -> ReasoningContext.t)
  : M Heap unit :=
  c <- get_ctx l ;; modify (with_ctxs (fun s => <[l := f c]> s)).

(** [d[k] = v], [del d[k]], [l.append(x)] on the objects at a location. *)
Definition dict_setitem (l : loc) (k : string) (v : value) : M Heap unit :=
  update_dict l (fun d => <[k := v]> d).
Definition dict_delitem (l : loc) (k : string) : M Heap unit :=
  d <- get_dict l ;;
  match d !! k with
  | Some _ => modify (with_dicts (fun s => <[l := delete k d]> s))
  | None => raise (mkExn "KeyError" k)
  end.
Definition list_append (l : loc) (x : TraceStep.t) : M Heap unit :=
  update_list l (fun xs => xs ++ [x]).

(** [ReasoningContext.fork]: a new context object whose [table] and
    [view] are the same references, whose memory is [dict(self.memory)],
    and whose path is a new [ReasoningPath] over [list(self.path.steps)]
    and [dict(self.path.meta)]. *)
Definition fork (self : loc) : M Heap loc :=
  c <- get_ctx self ;;
  mem <- get_dict (ReasoningContext.memory c) ;;
  memory' <- new_dict mem ;;
  p <- get_path (ReasoningContext.path c) ;;
  st <- get_list (ReasoningPath.steps p) ;;
  steps' <- new_list st ;;
  mt <- get_dict (ReasoningPath.meta p) ;;
  meta' <- new_dict mt ;;
  path' <- new_path (ReasoningPath.mk steps'
                       (ReasoningPath.final_answer p)
                       (ReasoningPath.terminal p)
                       (ReasoningPath.total_score p)
                       meta') ;;
  new_ctx (ReasoningContext.mk
             (ReasoningContext.table c)
             (ReasoningContext.view c)
             (ReasoningContext.question c)
             memory'
             path'
             (ReasoningContext.done c)
             (ReasoningContext.answer c)
             (ReasoningContext.depth c)).

(** A context all of whose references denote objects. *)
Definition ctx_ok (h : Heap) (c : loc) : Prop :=
  exists cx p,
    h_ctxs h !! c = Some cx /\
    h_paths h !! ReasoningContext.path cx = Some p /\
    is_Some (h_dicts h !! ReasoningContext.memory cx) /\
    is_Some (h_lists h !! ReasoningPath.steps p) /\
    is_Some (h_dicts h !! ReasoningPath.meta p).

(** The store after a fork, written out. *)
Definition forked_path (h : Heap) (p : ReasoningPath.t) : ReasoningPath.t :=
  ReasoningPath.mk (length (h_lists h)) (ReasoningPath.final_answer p)
    (ReasoningPath.terminal p) (ReasoningPath.total_score p) (S (length (h_dicts h))).

Definition forked_ctx (h : Heap) (c : ReasoningContext.t) : ReasoningContext.t :=
  ReasoningContext.mk (ReasoningContext.table c) (ReasoningContext.view c)
    (ReasoningContext.question c) (length (h_dicts h)) (length (h_paths h))
    (ReasoningContext.done c) (ReasoningContext.answer c)
    (ReasoningContext.depth c).

Definition forked_heap (h : Heap) (c : ReasoningContext.t) (p : ReasoningPath.t)
  (mem mt : gmap string value) (st : list TraceStep.t) : Heap :=
  mkHeap (h_tables h) ((h_dicts h ++ [mem]) ++ [mt]) (h_lists h ++ [st])
    (h_paths h ++ [forked_path h p]) (h_ctxs h ++ [forked_ctx h c]).

(** Two dict objects are separate when a top-level mutation of the first
    (binding or rebinding a key, removing a key) leaves the second as it
    was; likewise for list objects and [append]. *)
Definition separate_dicts (h : Heap) (a b : loc) : Prop :=
  forall da db,
    h_dicts h !! a = Some da -> h_dicts h !! b = Some db ->
    (forall k v, exists h',
        dict_setitem a k v h = (h', Ok tt) /\
        h_dicts h' !! a = Some (<[k := v]> da) /\ h_dicts h' !! b = Some db) /\
    (forall k, is_Some (da !! k) -> exists h',
        dict_delitem a k h = (h', Ok tt) /\
        h_dicts h' !! a = Some (delete k da) /\ h_dicts h' !! b = Some db).

Definition separate_lists (h : Heap) (a b : loc) : Prop :=
  forall la lb,
    h_lists h !! a = Some la -> h_lists h !! b = Some lb ->
    forall x, exists h',
      list_append a x h = (h', Ok tt) /\
      h_lists h' !! a = Some (la ++ [x]) /\ h_lists h' !! b = Some lb.

(** A store with one table and one root state over it. *)
Definition example_heap : Heap :=
  mkHeap [Table.new ["Year"; "Cost"]%string [["2020"; "5"]%string]]
         [{["hint" := VInt 1]}; ∅]
         [[]]
         [ReasoningPath.mk 0%nat VNone false 0%R 1%nat]
         [ReasoningContext.mk 0%nat 0%nat "total cost?" 0%nat 0%nat false VNone 0].

(** ** Search heuristics ([core/heuristics.py]) *)

Definition Rgeb (a b : R) : bool := if Rle_dec b a then true else false.
Definition Rgtb (a b : R) : bool := if Rlt_dec b a then true else false.

Module SearchHeuristics.
Record t := mk {
  max_depth : Z;
  min_score_to_expand : R
}.
(** [SearchHeuristics()]: the defaults of the dataclass. *)
Definition default : t := mk 12 (-1e9)%R.
Definition should_stop (self : t) (depth : Z) : bool := max_depth self <=? depth.
Definition should_expand (self : t) (score : R) : bool :=
  Rgeb score (min_score_to_expand self).
End SearchHeuristics.

(** ** Tree nodes ([core/mcts_node.py]) *)

Module MCTSNode.
(** [children] is the node's own dict, kept in insertion order; its keys
    are positions in a planner proposal. *)
Record t := mk {
  ctx : loc;
  parent : option loc;
  children : list (nat * loc);
  N : Z;
  Q : R;
  prior : R;
  last_action_index : option nat
}.
(** [MCTSNode(ctx=..., parent=..., last_action_index=...)] *)
Definition new (c : loc) (p : option loc) (a : option nat) : t :=
  mk c p [] 0 0%R 1%R a.
Definition set_children (ch : list (nat * loc)) (n : t) : t :=
  mk (ctx n) (parent n) ch (N n) (Q n) (prior n) (last_action_index n).
Definition set_stats (n' : Z) (q' : R) (n : t) : t :=
  mk (ctx n) (parent n) (children n) n' q' (prior n) (last_action_index n).
End MCTSNode.

(** ** Selection scores

    A score is a Python float: a finite value, one of the two
    infinities, or NaN.  Finite arithmetic is exact (no rounding, no
    overflow); the infinities and NaN follow IEEE 754. *)

Inductive xreal : Type := NInf | Fin (r : R) | PInf | NaN.

(** [a > b]: false whenever a NaN is involved. *)
Definition xgt (a b : xreal) : bool :=
  match a, b with
  | NaN, _ | _, NaN => false
  | PInf, PInf => false
  | PInf, _ => true
  | Fin x, Fin y => Rgtb x y
  | Fin _, NInf => true
  | Fin _, PInf => false
  | NInf, _ => false
  end.

(** The sign of a finite value. *)
Definition Rsign (r : R) : comparison :=
  if Rlt_dec 0 r then Gt else if Rlt_dec r 0 then Lt else Eq.

(** [a * b]: an infinity times zero is NaN. *)
Definition xmul (a b : xreal) : xreal :=
  match a, b with
  | NaN, _ | _, NaN => NaN
  | Fin x, Fin y => Fin (x * y)
  | Fin x, PInf | PInf, Fin x =>
      match Rsign x with Gt => PInf | Lt => NInf | Eq => NaN end
  | Fin x, NInf | NInf, Fin x =>
      match Rsign x with Gt => NInf | Lt => PInf | Eq => NaN end
  | PInf, PInf | NInf, NInf => PInf
  | PInf, NInf | NInf, PInf => NInf
  end.

(** [a + b]: opposite infinities add up to NaN. *)
Definition xadd (a b : xreal) : xreal :=
  match a, b with
  | NaN, _ | _, NaN => NaN
  | Fin x, Fin y => Fin (x + y)
  | PInf, NInf | NInf, PInf => NaN
  | PInf, _ | _, PInf => PInf
  | NInf, _ | _, NInf => NInf
  end.

(** [ucb_score]; [c] is [exploration_c], a float read from the
    configuration, and may be an infinity or NaN.  Visit counts are
    never negative, so the square root is defined. *)
Definition ucb_score (parent_N : Z) (child_Q : R) (child_N : Z) (c : xreal) : xreal :=
  if child_N =? 0 then PInf
  else xadd (Fin child_Q)
            (xmul c (Fin (sqrt (ln (IZR (Z.max 1 parent_N)) / IZR child_N)))).



(** ** Selection and backpropagation ([core/mcts.py]) *)

(** The node store: a node is denoted by its index. *)
Abbreviation Tree := (list MCTSNode.t).

(** The score that [_select] gives to the child object [ch] of a node
    with visit count [node_N]. *)
Definition child_score (c : xreal) (t : Tree) (node_N : Z) (ch : loc) : option xreal :=
  match t !! ch with
  | Some n => Some (ucb_score (node_N + 1) (MCTSNode.Q n) (MCTSNode.N n) c)
  | None => None
  end.

(** The [for k, ch in node.children.items()] loop of [_select], from the
    current [best_k], [best_s]. *)
Fixpoint best_child (c : xreal) (t : Tree) (node_N : Z) (items : list (nat * loc))
  (best_k : option nat) (best_s : xreal) : Res (option nat) :=
  match items with
  | [] => Ok best_k
  | (k, ch) :: rest =>
      match child_score c t node_N ch with
      | None => Raise (dangling "node")
      | Some s =>
          if xgt s best_s then best_child c t node_N rest (Some k) s
          else best_child c t node_N rest best_k best_s
      end
  end.

(** One turn of the [while] loop of [_select]: [Ok None] when the loop
    condition fails, [Ok (Some ch)] when the loop moves to [ch]. *)
Definition select_step (c : xreal) (h : Heap) (t : Tree) (node : loc) : Res (option loc) :=
  match t !! node with
  | None => Raise (dangling "node")
  | Some n =>
      match h_ctxs h !! MCTSNode.ctx n with
      | None => Raise (dangling "context")
      | Some cx =>
          match MCTSNode.children n with
          | [] => Ok None
          | _ :: _ =>
              if ReasoningContext.done cx then Ok None
              else
                match best_child c t (MCTSNode.N n) (MCTSNode.children n) None NInf with
                | Raise e => Raise e
                | Ok None => Raise (mkExn "KeyError" "None")
                | Ok (Some best_k) =>
                    match od_get best_k (MCTSNode.children n) with
                    | Some ch => Ok (Some ch)
                    | None => Raise (mkExn "KeyError" "best_k")
                    end
                end
          end
      end
  end.

Definition out_of_fuel : exn := mkExn "RecursionError" "loop bound exceeded".

Fixpoint select_from (fuel : nat) (c : xreal) (h : Heap) (t : Tree) (node : loc) : Res loc :=
  match fuel with
  | O => Raise out_of_fuel
  | S fuel' =>
      match select_step c h t node with
      | Raise e => Raise e
      | Ok None => Ok node
      | Ok (Some ch) => select_from fuel' c h t ch
      end
  end.

(** [MCTSRunner._select]; a descent visits each node at most once. *)
Definition _select (c : xreal) (h : Heap) (t : Tree) (root : loc) : Res loc :=
  select_from (S (length t)) c h t root.

(** The body of the [while cur is not None] loop of [_backprop]. *)
Definition visit (reward : R) (n : MCTSNode.t) : Res MCTSNode.t :=
  let N' := MCTSNode.N n + 1 in
  if N' =? 0 then Raise (mkExn "ZeroDivisionError" "float division by zero")
  else Ok (MCTSNode.set_stats N' (MCTSNode.Q n + (reward - MCTSNode.Q n) / IZR N')%R n).

Fixpoint backprop_from (fuel : nat) (t : Tree) (cur : option loc) (reward : R)
  : Res Tree :=
  match cur with
  | None => Ok t
  | Some l =>
      match fuel with
      | O => Raise out_of_fuel
      | S fuel' =>
          match t !! l with
          | None => Raise (dangling "node")
          | Some n =>
              match visit reward n with
              | Raise e => Raise e
              | Ok n' => backprop_from fuel' (<[l := n']> t) (MCTSNode.parent n) reward
              end
          end
      end
  end.

(** [MCTSRunner._backprop] *)
Definition _backprop (t : Tree) (node : loc) (reward : R) : Res Tree :=
  backprop_from (length t) t (Some node) reward.


(** [x] lies on the parent chain that starts at [l]. *)
Inductive on_chain (t : Tree) : loc -> loc -> Prop :=
| chain_here l : on_chain t l l
| chain_up l n p x :
    t !! l = Some n -> MCTSNode.parent n = Some p -> on_chain t p x ->
    on_chain t l x.

(** The shape of a tree built by allocation: a parent is older than its
    children, child references denote nodes, the keys of a children dict
    are distinct, and visit counts are not negative. *)
Definition wf_shape (t : Tree) : Prop :=
  forall l n, t !! l = Some n ->
    (forall p, MCTSNode.parent n = Some p -> (p < l)%nat) /\
    (forall k ch, In (k, ch) (MCTSNode.children n) ->
       (l < ch)%nat /\ (ch < length t)%nat) /\
    NoDup (od_keys (MCTSNode.children n)) /\
    0 <= MCTSNode.N n.

(** A well-formed tree over a store: every node holds a state. *)
Definition wf_tree (h : Heap) (t : Tree) : Prop :=
  wf_shape t /\
  forall l n, t !! l = Some n -> is_Some (h_ctxs h !! MCTSNode.ctx n).




(** ** Actions and the registry ([actions/base.py], [actions/registry.py]) *)

Definition ActionError (msg : string) : exn := mkExn "ActionError" msg.
Definition TypeError (msg : string) : exn := mkExn "TypeError" msg.

(** An action object: its [validate()] and its [apply(ctx)], which
    mutates the state it is given and returns it with an observation. *)
Record Action := mkAction {
  validate : Res unit;
  apply : loc -> M Heap (loc * Observation)
}.

(** An action class as the registry uses it: [cls( **kwargs )]. *)
Abbreviation ActionClass := (list (string * value) -> Res Action).

(** [dict.pop(k, None)] on a dict value. *)
Fixpoint od_pop (k : string) (d : list (string * value)) : list (string * value) :=
  match d with
  | [] => []
  | (k', v) :: d' => if decide (k = k') then d' else (k', v) :: od_pop k d'
  end.

Definition build_action (registry : list (string * ActionClass)) (spec : ActionSpec)
  : Res Action :=
  match spec with
  | VDict d =>
      match od_get "type" d with
      | Some (VStr typ) =>
          if String.eqb typ "" then
            Raise (ActionError "Action spec missing string field 'type'.")
          else
            match od_get typ registry with
            | None => Raise (ActionError ("Unknown action type: " ++ typ))
            | Some cls =>
                let kwargs := od_pop "type" d in
                match cls kwargs with
                | Raise e =>
                    if String.eqb (exn_class e) "TypeError"
                    then Raise (ActionError
                                  ("Failed to construct action " ++ typ ++ ": "
                                     ++ exn_msg e))
                    else Raise e
                | Ok act =>
                    match validate act with
                    | Raise e => Raise e
                    | Ok _ => Ok act
                    end
                end
            end
      | _ => Raise (ActionError "Action spec missing string field 'type'.")
      end
  | _ => Raise (ActionError "Action spec must be dict")
  end.

(** ** The execution agent ([agents/mcts/execution_agent.py]) *)

Definition failure_observation (penalize_on_error : R) (e : exn) : Observation :=
  VDict [("ok", VBool false);
         ("error_type", VStr (exn_class e));
         ("error", VStr (exn_msg e));
         ("penalty", VFloat penalize_on_error)].

(** The body of the [try] block of [execute]. *)
Definition attempt (registry : list (string * ActionClass)) (ctx : loc)
  (action_spec : ActionSpec) : M Heap (loc * Observation) :=
  action <- lift_res (build_action registry action_spec) ;;
  r <- apply action ctx ;;
  ret (fst r, if truthy (snd r) then snd r else VDict []).

Definition execute (registry : list (string * ActionClass))
  (penalize_on_error : R) (ctx : loc) (action_spec : ActionSpec)
  : M Heap (loc * Observation) :=
  try_except (attempt registry ctx action_spec)
    (fun e => ret (ctx, failure_observation penalize_on_error e)).

(** ** Two registered actions

    The registry is filled by the [@register_action] decorators when the
    action modules are imported.  [execute] and [build_action] take the
    registry as a parameter; the two classes below are the ones that the
    statements about concrete runs use. *)

(** What the actions ask of the outside world: the JSON answer of the
    LLM to a prompt ([llm_json], which raises when no client is
    configured or the answer does not parse), and the knowledge provider
    object held in memory. *)
Record Externals := mkExternals {
  llm_json : Heap -> loc -> string -> Res value;
  has_search : nat -> bool;
  provider_search : nat -> string -> value -> Res value
}.

(** [cls( **kwargs )] for a dataclass: every keyword must name a field. *)
Definition check_kwargs (cls_name : string) (fields : list string)
  (kwargs : list (string * value)) : Res unit :=
  match List.find (fun kv => negb (existsb (String.eqb (fst kv)) fields)) kwargs with
  | Some (k, _) =>
      Raise (TypeError (cls_name ++ ".__init__() got an unexpected keyword argument '"
                          ++ k ++ "'"))
  | None => Ok tt
  end.

Definition field (name : string) (default : value) (kwargs : list (string * value))
  : value :=
  match od_get name kwargs with
  | Some v => v
  | None => default
  end.

(** Memory has string keys.  Reading or writing it at a key that is a
    list or a dict raises [TypeError] (unhashable); another key that is
    not a string is never found, and a write under it does not show in
    the string-keyed memory. *)
Definition memory_lookup (mem : gmap string value) (key : value)
  : Res (option value) :=
  match key with
  | VStr k => Ok (mem !! k)
  | VList _ | VDict _ => Raise (TypeError "unhashable type")
  | _ => Ok None
  end.

Definition memory_store (m : loc) (key : value) (v : value) : M Heap unit :=
  match key with
  | VStr k => dict_setitem m k v
  | VList _ | VDict _ => raise (TypeError "unhashable type")
  | _ => ret tt
  end.

(** *** [Finish] ([actions/termination/finish.py]) *)

Definition Finish_apply (answer_from literal : value) (ctx : loc)
  : M Heap (loc * Observation) :=
  c <- get_ctx ctx ;;
  ans <- match answer_from with
         | VNone => ret literal
         | _ =>
             mem <- get_dict (ReasoningContext.memory c) ;;
             found <- lift_res (memory_lookup mem answer_from) ;;
             match found with
             | Some v => ret v
             | None => raise (ActionError "answer_from var not found in ctx.memory")
             end
         end ;;
  update_ctx ctx (ReasoningContext.set_answer ans) ;;;
  update_ctx ctx (ReasoningContext.set_done true) ;;;
  update_path (ReasoningContext.path c) (ReasoningPath.set_terminal true) ;;;
  update_path (ReasoningContext.path c) (ReasoningPath.set_final_answer ans) ;;;
  ret (ctx, VDict [("answer", ans);
                   ("answer_from", answer_from);
                   ("literal_used",
                    VBool (match answer_from with VNone => true | _ => false end))]).

Definition Finish : ActionClass := fun kwargs =>
  match check_kwargs "Finish" ["approx_cost"; "TYPE"; "answer_from"; "literal"] kwargs with
  | Raise e => Raise e
  | Ok _ =>
      Ok (mkAction (Ok tt)
            (Finish_apply (field "answer_from" VNone kwargs)
                          (field "literal" VNone kwargs)))
  end.

(** *** [GeneralRetrieval] ([actions/knowledge_retrieval/general_retrieval.py]) *)

(** [(v or "").strip()] *)
Definition or_empty_strip (v : value) : Res string :=
  if truthy v then
    match v with
    | VStr s => Ok (Table.strip s)
    | _ => Raise (mkExn "AttributeError" "object has no attribute 'strip'")
    end
  else Ok ""%string.

(** [len(v)] *)
Definition py_len (v : value) : Res Z :=
  match v with
  | VStr s => Ok (Z.of_nat (String.length s))
  | VList l => Ok (Z.of_nat (length l))
  | VDict d => Ok (Z.of_nat (length d))
  | _ => Raise (TypeError "object has no len()")
  end.

(** [topk <= 0] *)
Definition le_zero (v : value) : Res bool :=
  match v with
  | VInt z => Ok (z <=? 0)
  | VBool b => Ok (negb b)
  | VFloat r => Ok (if Rle_dec r 0 then true else false)
  | _ => Raise (TypeError "'<=' not supported")
  end.

Definition GeneralRetrieval_validate (topk : value) : Res unit :=
  match le_zero topk with
  | Raise e => Raise e
  | Ok true => Raise (ActionError "topk must be positive.")
  | Ok false => Ok tt
  end.

Definition GeneralRetrieval_apply (ext : Externals)
  (query topk use_llm out_key : value) (ctx : loc) : M Heap (loc * Observation) :=
  q0 <- lift_res (or_empty_strip query) ;;
  h <- gets (fun h => h) ;;
  (* the LLM proposes a query when none was given; any failure there is
     swallowed by the inner [try] *)
  let '(q, llm_used) :=
    if (String.eqb q0 "" && truthy use_llm)%bool then
      match llm_json ext h ctx "You generate a concise search query. Return STRICT JSON only." with
      | Ok (VDict out) =>
          match od_get "query" out with
          | Some (VStr s) => (Table.strip s, true)
          | _ => (q0, false)
          end
      | _ => (q0, false)
      end
    else (q0, false) in
  if String.eqb q "" then raise (ActionError "query missing (LLM unavailable/failed).")
  else
    c <- get_ctx ctx ;;
    mem <- get_dict (ReasoningContext.memory c) ;;
    result <- match mem !! "general_kb_provider" with
              | None | Some VNone =>
                  ret (VDict [("query", VStr q); ("items", VList []);
                              ("note", VStr "No general_kb_provider configured; stub result returned.")])
              | Some (VObj o) =>
                  if has_search ext o then lift_res (provider_search ext o q topk)
                  else raise (ActionError "general_kb_provider must implement search(query, topk).")
              | Some _ =>
                  raise (ActionError "general_kb_provider must implement search(query, topk).")
              end ;;
    memory_store (ReasoningContext.memory c) out_key result ;;;
    items <- match result with
             | VDict d => ret (field "items" (VList []) d)
             | _ => raise (mkExn "AttributeError" "object has no attribute 'get'")
             end ;;
    num_items <- lift_res (py_len items) ;;
    ret (ctx, VDict [("out_key", out_key); ("query", VStr q);
                     ("num_items", VInt num_items); ("llm_used", VBool llm_used)]).

Definition GeneralRetrieval (ext : Externals) : ActionClass := fun kwargs =>
  match check_kwargs "GeneralRetrieval"
          ["approx_cost"; "TYPE"; "query"; "topk"; "use_llm"; "out_key"] kwargs with
  | Raise e => Raise e
  | Ok _ =>
      let topk := field "topk" (VInt 3) kwargs in
      Ok (mkAction (GeneralRetrieval_validate topk)
            (GeneralRetrieval_apply ext
               (field "query" (VStr "") kwargs) topk
               (field "use_llm" (VBool true) kwargs)
               (field "out_key" (VStr "general_knowledge") kwargs)))
  end.

Definition ACTION_REGISTRY (ext : Externals) : list (string * ActionClass) :=
  [("GeneralRetrieval", GeneralRetrieval ext); ("Finish", Finish)].

(** A deployment in which no LLM is configured and the knowledge
    provider answers every search with [{"items": None}]. *)
Definition example_externals : Externals :=
  mkExternals
    (fun _ _ _ => Raise (ActionError "No llm_client configured in ctx.memory['llm_client']."))
    (fun _ => true)
    (fun _ _ _ => Ok (VDict [("items", VNone)])).



(** ** The agent contracts ([core/schemas.py]) *)

Module EvalResult.
(** [extra: Dict[str, Any] = None] *)
Record t := mk {
  score : R;
  critique : string;
  extra : option (gmap string value)
}.
End EvalResult.

(** ** The MCTS runner ([core/mcts.py])

    The runner works on the object store, on the tree it builds, and on
    the state [W] of the outside world, which the collaborators may read
    and advance (an LLM need not answer twice alike).  Planning and
    evaluation read the store; execution may also write to it.  Each of
    the three may raise. *)

Record St (W : Type) := mkSt {
  st_world : W;
  st_heap : Heap;
  st_tree : Tree
}.
Arguments mkSt {W} _ _ _.
Arguments st_world {W} _.
Arguments st_heap {W} _.
Arguments st_tree {W} _.

Record MCTSRunner (W : Type) := mkMCTSRunner {
  planner : W -> Heap -> loc -> W * Res (list ActionSpec);
  executor : W -> Heap -> loc -> ActionSpec -> (W * Heap) * Res (loc * Observation);
  evaluator : W -> Heap -> loc -> W * Res EvalResult.t;
  heuristics : SearchHeuristics.t;
  exploration_c : xreal;
  seed : Z
}.
Arguments mkMCTSRunner {W} _ _ _ _ _ _.
Arguments planner {W} _ _ _ _.
Arguments executor {W} _ _ _ _ _.
Arguments evaluator {W} _ _ _ _.
Arguments heuristics {W} _.
Arguments exploration_c {W} _.
Arguments seed {W} _.

Section Runner.
Context {W : Type}.
Variable self : MCTSRunner W.

Definition in_heap {A} (m : M Heap A) : M (St W) A :=
  fun s =>
    let '(h', r) := m (st_heap s) in
    (mkSt (st_world s) h' (st_tree s), r).

Definition propose (ctx : loc) : M (St W) (list ActionSpec) :=
  fun s =>
    let '(w', r) := planner self (st_world s) (st_heap s) ctx in
    (mkSt w' (st_heap s) (st_tree s), r).

Definition run_executor (ctx : loc) (a_spec : ActionSpec)
  : M (St W) (loc * Observation) :=
  fun s =>
    let '((w', h'), r) := executor self (st_world s) (st_heap s) ctx a_spec in
    (mkSt w' h' (st_tree s), r).

Definition evaluate (ctx : loc) : M (St W) EvalResult.t :=
  fun s =>
    let '(w', r) := evaluator self (st_world s) (st_heap s) ctx in
    (mkSt w' (st_heap s) (st_tree s), r).

Definition get_node (l : loc) : M (St W) MCTSNode.t :=
  fun s => of_option "node" (st_tree s !! l) s.

Definition new_node (n : MCTSNode.t) : M (St W) loc :=
  fun s => (mkSt (st_world s) (st_heap s) (st_tree s ++ [n]),
            Ok (length (st_tree s))).

(** [node.children[a_idx] = child] *)
Definition set_child (node : loc) (a_idx : nat) (child : loc) : M (St W) unit :=
  n <- get_node node ;;
  modify (fun s =>
    mkSt (st_world s) (st_heap s)
      (<[node := MCTSNode.set_children
                   (od_set a_idx child (MCTSNode.children n)) n]> (st_tree s))).

Definition select (root : loc) : M (St W) loc :=
  fun s => (s, _select (exploration_c self) (st_heap s) (st_tree s) root).

Definition backprop (node : loc) (reward : R) : M (St W) unit :=
  fun s =>
    match _backprop (st_tree s) node reward with
    | Ok t' => (mkSt (st_world s) (st_heap s) t', Ok tt)
    | Raise e => (s, Raise e)
    end.

(** The [for i, spec in enumerate(action_specs)] loop of
    [_pick_untried_or_best], from position [i]. *)
Fixpoint first_untried (children : list (nat * loc)) (i : nat)
  (action_specs : list ActionSpec) : option (nat * ActionSpec) :=
  match action_specs with
  | [] => None
  | spec :: rest =>
      if od_mem i children then first_untried children (S i) rest
      else Some (i, spec)
  end.

Definition _pick_untried_or_best (node : MCTSNode.t) (action_specs : list ActionSpec)
  : Res (nat * ActionSpec) :=
  match first_untried (MCTSNode.children node) 0 action_specs with
  | Some r => Ok r
  | None =>
      match action_specs with
      | spec0 :: _ => Ok (0%nat, spec0)
      | [] => Raise (mkExn "IndexError" "list index out of range")
      end
  end.

(** [float(p.total_score or 0.0)] *)
Definition score_or_zero (r : R) : R := if Req_dec_T r 0 then 0%R else r.

(** [if er.extra:] *)
Definition nonempty_extra (e : option (gmap string value)) : bool :=
  match e with
  | Some d => negb (Nat.eqb (size d) 0)
  | None => false
  end.

Definition _maybe_collect_ctx (ctx : loc) (candidates : list loc)
  (max_candidates : Z) (er : option EvalResult.t) : M Heap (list loc) :=
  if max_candidates <=? Z.of_nat (length candidates) then ret candidates
  else
    c <- get_ctx ctx ;;
    let p := ReasoningContext.path c in
    pv <- get_path p ;;
    if (ReasoningContext.done c || ReasoningPath.terminal pv)%bool then
      match er with
      | Some er =>
          update_path p (ReasoningPath.set_total_score (EvalResult.score er)) ;;;
          if nonempty_extra (EvalResult.extra er) then
            mt <- get_dict (ReasoningPath.meta pv) ;;
            (* {**p.meta, **er.extra}: a new dict, the evaluator's keys win *)
            m' <- new_dict (default ∅ (EvalResult.extra er) ∪ mt) ;;
            update_path p (ReasoningPath.set_meta m')
          else ret tt
      | None =>
          update_path p
            (ReasoningPath.set_total_score (score_or_zero (ReasoningPath.total_score pv)))
      end ;;;
      update_path p (ReasoningPath.set_final_answer (ReasoningContext.answer c)) ;;;
      ret (candidates ++ [p])
    else ret candidates.

Definition _maybe_collect (node : loc) (candidates : list loc)
  (max_candidates : Z) (er : option EvalResult.t) : M (St W) (list loc) :=
  n <- get_node node ;;
  in_heap (_maybe_collect_ctx (MCTSNode.ctx n) candidates max_candidates er).

(** The dead-end branch of the loop body (planner returned nothing). *)
Definition dead_end (node : loc) (candidates : list loc) (max_candidates : Z)
  : M (St W) (list loc) :=
  n <- get_node node ;;
  dead <- in_heap (fork (MCTSNode.ctx n)) ;;
  in_heap (update_ctx dead (ReasoningContext.set_done true)) ;;;
  dc <- in_heap (get_ctx dead) ;;
  in_heap (update_path (ReasoningContext.path dc) (ReasoningPath.set_terminal true)) ;;;
  dp <- in_heap (get_path (ReasoningContext.path dc)) ;;
  in_heap (dict_setitem (ReasoningPath.meta dp) "dead_end" (VBool true)) ;;;
  leaf_eval <- evaluate dead ;;
  backprop node (EvalResult.score leaf_eval) ;;;
  in_heap (_maybe_collect_ctx dead candidates max_candidates (Some leaf_eval)).

(** The simulation step of the expansion branch: fork the state of the
    node, execute the chosen action on the fork, record the step, set
    the depth, evaluate, prune, mark a finished state terminal. *)
Definition simulate (node_ctx : loc) (a_spec : ActionSpec)
  : M (St W) (loc * EvalResult.t) :=
  forked <- in_heap (fork node_ctx) ;;
  r <- run_executor forked a_spec ;;
  let '(child_ctx, obs) := r in
  cc <- in_heap (get_ctx child_ctx) ;;
  cp <- in_heap (get_path (ReasoningContext.path cc)) ;;
  in_heap (list_append (ReasoningPath.steps cp) (TraceStep.mk a_spec obs None None)) ;;;
  nc <- in_heap (get_ctx node_ctx) ;;
  in_heap (update_ctx child_ctx
             (ReasoningContext.set_depth (ReasoningContext.depth nc + 1))) ;;;
  er <- evaluate child_ctx ;;
  (if SearchHeuristics.should_expand (heuristics self) (EvalResult.score er)
   then ret tt
   else
     in_heap (update_ctx child_ctx (ReasoningContext.set_done true)) ;;;
     cc1 <- in_heap (get_ctx child_ctx) ;;
     cp1 <- in_heap (get_path (ReasoningContext.path cc1)) ;;
     in_heap (dict_setitem (ReasoningPath.meta cp1) "pruned" (VBool true))) ;;;
  cc2 <- in_heap (get_ctx child_ctx) ;;
  (if ReasoningContext.done cc2 then
     in_heap (update_path (ReasoningContext.path cc2) (ReasoningPath.set_terminal true)) ;;;
     in_heap (update_path (ReasoningContext.path cc2)
                (ReasoningPath.set_final_answer (ReasoningContext.answer cc2)))
   else ret tt) ;;;
  ret (child_ctx, er).

(** [child = MCTSNode(ctx=child_ctx, parent=node, last_action_index=a_idx)]
    and [node.children[a_idx] = child]. *)
Definition attach (node : loc) (a_idx : nat) (child_ctx : loc) : M (St W) loc :=
  child <- new_node (MCTSNode.new child_ctx (Some node) (Some a_idx)) ;;
  set_child node a_idx child ;;;
  ret child.

(** The expansion branch of the loop body after the choice of the
    action, up to and including the collection of the new child. *)
Definition expand_with (node : loc) (n : MCTSNode.t) (a_idx : nat)
  (a_spec : ActionSpec) (candidates : list loc) (max_candidates : Z)
  : M (St W) (list loc) :=
  r <- simulate (MCTSNode.ctx n) a_spec ;;
  let '(child_ctx, er) := r in
  child <- attach node a_idx child_ctx ;;
  backprop child (EvalResult.score er) ;;;
  _maybe_collect child candidates max_candidates (Some er).

(** The expansion branch of the loop body. *)
Definition expand (node : loc) (action_specs : list ActionSpec)
  (candidates : list loc) (max_candidates : Z) : M (St W) (list loc) :=
  n <- get_node node ;;
  pick <- lift_res (_pick_untried_or_best n action_specs) ;;
  let '(a_idx, a_spec) := pick in
  expand_with node n a_idx a_spec candidates max_candidates.

(** One pass through the body of [for _ in range(num_iters)]: the new
    candidate list and whether the loop was left by [break]. *)
Definition iteration (root : loc) (candidates : list loc) (max_candidates : Z)
  : M (St W) (list loc * bool) :=
  node <- select root ;;
  n <- get_node node ;;
  c <- in_heap (get_ctx (MCTSNode.ctx n)) ;;
  if (ReasoningContext.done c
      || SearchHeuristics.should_stop (heuristics self) (ReasoningContext.depth c))%bool
  then
    cands <- _maybe_collect node candidates max_candidates None ;;
    ret (cands, false)
  else
    action_specs <- propose (MCTSNode.ctx n) ;;
    match action_specs with
    | [] =>
        cands <- dead_end node candidates max_candidates ;;
        ret (cands, false)
    | _ :: _ =>
        cands <- expand node action_specs candidates max_candidates ;;
        ret (cands, max_candidates <=? Z.of_nat (length cands))
    end.

Fixpoint loop (iters : nat) (root : loc) (candidates : list loc)
  (max_candidates : Z) : M (St W) (list loc) :=
  match iters with
  | O => ret candidates
  | S iters' =>
      r <- iteration root candidates max_candidates ;;
      let '(cands, stop) := r in
      if stop then ret cands else loop iters' root cands max_candidates
  end.

(** [candidates.sort(key=lambda p: p.total_score, reverse=True)]: a
    stable sort, descending. *)
Fixpoint insert_desc (x : R * loc) (l : list (R * loc)) : list (R * loc) :=
  match l with
  | [] => [x]
  | y :: l' => if Rgtb (fst y) (fst x) then y :: insert_desc x l' else x :: l
  end.

Fixpoint sort_desc (l : list (R * loc)) : list (R * loc) :=
  match l with
  | [] => []
  | x :: l' => insert_desc x (sort_desc l')
  end.

Fixpoint with_scores (h : Heap) (candidates : list loc) : Res (list (R * loc)) :=
  match candidates with
  | [] => Ok []
  | p :: rest =>
      match h_paths h !! p with
      | None => Raise (dangling "path")
      | Some pv =>
          match with_scores h rest with
          | Raise e => Raise e
          | Ok l => Ok ((ReasoningPath.total_score pv, p) :: l)
          end
      end
  end.

Definition sort_candidates (candidates : list loc) : M (St W) (list loc) :=
  fun s =>
    match with_scores (st_heap s) candidates with
    | Raise e => (s, Raise e)
    | Ok l => (s, Ok (map snd (sort_desc l)))
    end.

(** [l[:k]] *)
Definition slice_to {A} (l : list A) (k : Z) : list A :=
  if k <? 0 then take (Z.to_nat (Z.of_nat (length l) + k)) l
  else take (Z.to_nat k) l.

(** [MCTSRunner.run].  [random.seed(self.seed)] has no effect on what
    follows: nothing draws a random number. *)
Definition run (root_ctx : loc) (num_iters max_candidates : Z)
  : M (St W) (list loc) :=
  root <- new_node (MCTSNode.new root_ctx None None) ;;
  candidates <- loop (Z.to_nat num_iters) root [] max_candidates ;;
  sorted <- sort_candidates candidates ;;
  ret (slice_to sorted max_candidates).

(** The call of the runner in [run_pipeline] ([main.py]) and the check
    that follows it. *)
Definition run_pipeline_phase1 (root_ctx : loc) (num_iters max_candidates : Z)
  : M (St W) (list loc) :=
  candidates <- run root_ctx num_iters max_candidates ;;
  match candidates with
  | [] => raise (mkExn "RuntimeError" "No candidate reasoning paths produced by MCTS.")
  | _ :: _ => ret candidates
  end.

End Runner.

(** ** Concrete set-ups *)

(** The store at the start of a search: the table and the root state
    [ReasoningContext(table=tbl, question=q, memory=mem)]. *)
Definition root_heap (tbl : Table.TableContext) (q : string)
  (mem : gmap string value) : Heap :=
  mkHeap [tbl] [mem; ∅] [[]]
         [ReasoningPath.mk 0%nat VNone false 0%R 1%nat]
         [ReasoningContext.mk 0%nat 0%nat q 0%nat 0%nat false VNone 0].

(** [TQAExecutionAgent] as the executor of a runner. *)
Definition TQAExecutionAgent {W} (ext : Externals) (penalize_on_error : R)
  : W -> Heap -> loc -> ActionSpec -> (W * Heap) * Res (loc * Observation) :=
  fun w h ctx a_spec =>
    let '(h', r) := execute (ACTION_REGISTRY ext) penalize_on_error ctx a_spec h in
    ((w, h'), r).

(** A planner that never proposes anything; the world counts how often
    it was asked.  The evaluator gives every state the score 0.5. *)
Definition dead_end_runner : MCTSRunner nat :=
  mkMCTSRunner
    (fun w _ _ => (S w, Ok []))
    (TQAExecutionAgent example_externals (-1e6)%R)
    (fun w _ _ => (w, Ok (EvalResult.mk 0.5%R "" None)))
    SearchHeuristics.default (Fin 1.4) 7.

(** A planner that always proposes the one action [Finish] with a fixed
    literal answer, over any evaluator that returns. *)
Definition finish_spec (literal : value) : ActionSpec :=
  VDict [("type", VStr "Finish"); ("literal", literal)].

Definition finish_runner {W} (ext : Externals) (literal : value)
  (ev : W -> Heap -> loc -> W * EvalResult.t)
  (heur : SearchHeuristics.t) (c : R) : MCTSRunner W :=
  mkMCTSRunner
    (fun w _ _ => (w, Ok [finish_spec literal]))
    (TQAExecutionAgent ext (-1e6)%R)
    (fun w h ctx => let '(w', er) := ev w h ctx in (w', Ok er))
    heur (Fin c) 7.

(** A table of three rows and two columns. *)
Definition table_3x2 : Table.TableContext :=
  Table.new ["Item"; "Cost"]%string
    [["pen"; "2"]; ["ink"; "5"]; ["pad"; "3"]]%string.

(** A search state before [run]: the root state in the store, no tree. *)
Definition start {W} (w : W) (tbl : Table.TableContext) (q : string)
  (mem : gmap string value) : St W :=
  mkSt w (root_heap tbl q mem) [].

(** [total_score] of the path object at [p]. *)
Definition path_score (h : Heap) (p : loc) : option R :=
  ReasoningPath.total_score <$> (h_paths h !! p).

(** A list of paths in descending order of [total_score]. *)
Definition score_sorted (h : Heap) (l : list loc) : Prop :=
  forall i j pi pj, (i < j)%nat -> l !! i = Some pi -> l !! j = Some pj ->
    exists ri rj,
      path_score h pi = Some ri /\ path_score h pj = Some rj /\ (rj <= ri)%R.

(** [x] may stand before [y] in a descending list. *)
Definition above (x y : R * loc) : Prop := (fst y <= fst x)%R.

(** The state of a search whose only leaf is a finished state: the root
    has the single child [child], the state of [child] is done, and its
    path object [p] already carries the answer. *)
Definition finished_leaf {W} (s : St W) (root child p : loc) : Prop :=
  exists rn rc k cn cc pv,
    st_tree s !! root = Some rn /\
    MCTSNode.children rn = [(k, child)] /\
    h_ctxs (st_heap s) !! MCTSNode.ctx rn = Some rc /\
    ReasoningContext.done rc = false /\
    st_tree s !! child = Some cn /\
    MCTSNode.children cn = [] /\
    h_ctxs (st_heap s) !! MCTSNode.ctx cn = Some cc /\
    ReasoningContext.done cc = true /\
    ReasoningContext.path cc = p /\
    h_paths (st_heap s) !! p = Some pv /\
    ReasoningPath.final_answer pv = ReasoningContext.answer cc.

(** The end-to-end set-up: [Finish] with the literal ["42"], every state
    scored 0.5, default heuristics, in a world without state. *)
Definition finish_example_runner : MCTSRunner unit :=
  finish_runner example_externals (VStr "42")
    (fun w _ _ => (w, EvalResult.mk 0.5%R "" None))
    SearchHeuristics.default 1.4%R.

(** A planner whose only proposal names an action type that is not
    registered, over any evaluator that returns. *)
Definition stuck_runner {W} (ev : W -> Heap -> loc -> W * EvalResult.t)
  (heur : SearchHeuristics.t) : MCTSRunner W :=
  mkMCTSRunner
    (fun w _ _ => (w, Ok [VDict [("type", VStr "Teleport")]]))
    (TQAExecutionAgent example_externals (-1e6)%R)
    (fun w h ctx => let '(w', er) := ev w h ctx in (w', Ok er))
    heur (Fin 1.4) 7.

Definition stuck_example_runner : MCTSRunner unit :=
  stuck_runner (fun w _ _ => (w, EvalResult.mk 0.5%R "" None))
    SearchHeuristics.default.

(** The store after the dead-end branch has forked the state [c] (with
    path [p], memory [mem], steps [st] and metadata [mt]) and marked the
    fork: [dead.done = True], [dead.path.terminal = True],
    [dead.path.meta["dead_end"] = True]. *)
Definition dead_heap (h : Heap) (c : ReasoningContext.t) (p : ReasoningPath.t)
  (mem mt : gmap string value) (st : list TraceStep.t) : Heap :=
  mkHeap (h_tables h)
    ((h_dicts h ++ [mem]) ++ [<["dead_end" := VBool true]> mt])
    (h_lists h ++ [st])
    (h_paths h ++ [ReasoningPath.set_terminal true (forked_path h p)])
    (h_ctxs h ++ [ReasoningContext.set_done true (forked_ctx h c)]).

(** The search state right after [run] has created the root node. *)
Definition at_root {W} (w : W) (tbl : Table.TableContext) (q : string)
  (mem : gmap string value) : St W :=
  mkSt w (root_heap tbl q mem) [MCTSNode.new 0%nat None None].

(** ** Reachability in the tree *)

(** [x] is the child of [l] under the key [k]. *)
Definition edge (t : Tree) (l : loc) (k : nat) (x : loc) : Prop :=
  exists m, t !! l = Some m /\ In (k, x) (MCTSNode.children m).

(** [x] can be reached from [a] through children dicts. *)
Inductive reach (t : Tree) (a : loc) : loc -> Prop :=
| reach_here : reach t a a
| reach_down l k x : reach t a l -> edge t l k x -> reach t a x.

(** Every node is the child of at most one node, under one key. *)
Definition is_tree (t : Tree) : Prop :=
  forall l1 k1 l2 k2 x, edge t l1 k1 x -> edge t l2 k2 x -> l1 = l2 /\ k1 = k2.

(** A root whose only child, under key 0, has a child of its own. *)
Definition retry_tree : Tree :=
  [ MCTSNode.mk 0%nat None [(0, 1)]%nat 2 0.5%R 1%R None;
    MCTSNode.mk 0%nat (Some 0%nat) [(0, 2)]%nat 2 0.5%R 1%R (Some 0%nat);
    MCTSNode.mk 0%nat (Some 1%nat) [] 1 0.5%R 1%R (Some 0%nat) ].


(** A computation that leaves the tree as it is, whatever it returns. *)
Definition keeps_tree {W A} (m : M (St W) A) : Prop :=
  forall s s' r, m s = (s', r) -> st_tree s' = st_tree s.

(** The tree after [attach node k child_ctx], where [n] is the node at
    [node]. *)
Definition attached (t : Tree) (node : nat) (n : MCTSNode.t) (k : nat)
  (child_ctx : loc) : Tree :=
  <[node := MCTSNode.set_children
              (od_set k (length t) (MCTSNode.children n)) n]>
    (t ++ [MCTSNode.new child_ctx (Some node) (Some k)]).

(** ** Reading tables ([core/table_context.py], continued) *)

Definition IndexError : exn := mkExn "IndexError" "list index out of range".

(** [l[i]] on a Python list: a negative index counts from the end. *)
Definition py_index {A} (l : list A) (i : Z) : Res A :=
  let n := Z.of_nat (length l) in
  let j := if i <? 0 then i + n else i in
  if (0 <=? j) && (j <? n) then
    match l !! Z.to_nat j with
    | Some x => Ok x
    | None => Raise IndexError
    end
  else Raise IndexError.

(** A list comprehension [[f(x) for x in l]] whose body may raise: the
    first exception ends it. *)
Fixpoint map_res {A B} (f : A -> Res B) (l : list A) : Res (list B) :=
  match l with
  | [] => Ok []
  | x :: l' =>
      match f x with
      | Raise e => Raise e
      | Ok y =>
          match map_res f l' with
          | Raise e => Raise e
          | Ok ys => Ok (y :: ys)
          end
      end
  end.


Module TableOps.

Definition n_rows (t : TableContext) : Z := Z.of_nat (length (rows t)).
Definition n_cols (t : TableContext) : Z := Z.of_nat (length (headers t)).

(** [r[idx] if idx < len(r) else ""], for an index that is not negative. *)
Definition cell_at (r : list string) (idx : nat) : string :=
  match r !! idx with
  | Some c => c
  | None => ""%string
  end.

Definition col (t : TableContext) (name : string) : Res (list string) :=
  match resolve_col t name with
  | Raise e => Raise e
  | Ok idx => Ok (map (fun r => cell_at r idx) (rows t))
  end.

Definition row (t : TableContext) (i : Z) : Res (list string) :=
  py_index (rows t) i.

Definition get_cell (t : TableContext) (row_i : Z) (col_name : string)
  : Res string :=
  match resolve_col t col_name with
  | Raise e => Raise e
  | Ok idx =>
      match py_index (rows t) row_i with
      | Raise e => Raise e
      | Ok r => Ok (cell_at r idx)
      end
  end.

(** [self.headers[i]] for an index that is not negative. *)
Definition header_at (t : TableContext) (i : nat) : Res string :=
  match headers t !! i with
  | Some h => Ok h
  | None => Raise IndexError
  end.

Definition select_cols (t : TableContext) (col_names : list string)
  : Res TableContext :=
  match map_res (resolve_col t) col_names with
  | Raise e => Raise e
  | Ok idxs =>
      match map_res (header_at t) idxs with
      | Raise e => Raise e
      | Ok new_headers =>
          Ok (Table.new new_headers
                (map (fun r => map (cell_at r) idxs) (rows t)))
      end
  end.


(** The last character of a non-empty string is not whitespace. *)
Fixpoint ends_clean (s : string) : bool :=
  match s with
  | EmptyString => true
  | String c EmptyString => negb (is_space c)
  | String _ s' => ends_clean s'
  end.

(** The first character, if any, is not whitespace. *)
Definition starts_clean (s : string) : bool :=
  match s with
  | EmptyString => true
  | String c _ => negb (is_space c)
  end.

End TableOps.

(** ** Invariants of the search ([core/mcts.py], continued) *)

(** A child knows the node that holds it and the key it is held under. *)
Definition parents_match (t : Tree) : Prop :=
  forall l k x, edge t l k x ->
    exists m, t !! x = Some m /\ MCTSNode.parent m = Some l /\
              MCTSNode.last_action_index m = Some k.

Definition tree_ok (t : Tree) : Prop :=
  wf_shape t /\ is_tree t /\ parents_match t.

(** How one pass through the loop body may change the candidate list:
    not at all, or by one entry at the end while the list is below the
    cap. *)
Definition grows (max_candidates : Z) (before after : list loc) : Prop :=
  after = before \/
  exists p, after = before ++ [p] /\ Z.of_nat (length before) < max_candidates.

(** Every value that [m] returns satisfies [P]. *)
Definition yields {S A} (m : M S A) (P : A -> Prop) : Prop :=
  forall s s' a, m s = (s', Ok a) -> P a.

(** [m] keeps the invariant [tree_ok], whether it returns or raises. *)
Definition keeps_tree_ok {W A} (m : M (St W) A) : Prop :=
  forall s s' r, tree_ok (st_tree s) -> m s = (s', r) -> tree_ok (st_tree s').

(** ** What two actions leave behind *)

(** The store after [Finish] has run on the state at [ctx] (the state
    [c] with path [p]) with the answer [ans]. *)
Definition finished (h : Heap) (ctx : loc) (c : ReasoningContext.t)
  (p : ReasoningPath.t) (ans : value) : Heap :=
  mkHeap (h_tables h) (h_dicts h) (h_lists h)
    (<[ReasoningContext.path c :=
         ReasoningPath.set_final_answer ans (ReasoningPath.set_terminal true p)]>
       (h_paths h))
    (<[ctx := ReasoningContext.set_done true (ReasoningContext.set_answer ans c)]>
       (h_ctxs h)).

Definition finish_observation (ans answer_from : value) (literal_used : bool)
  : Observation :=
  VDict [("answer", ans); ("answer_from", answer_from);
         ("literal_used", VBool literal_used)].

(** A [Finish] spec that names a memory variable and also carries a
    literal. *)
Definition finish_from_spec (key : string) (literal : value) : ActionSpec :=
  VDict [("type", VStr "Finish"); ("answer_from", VStr key); ("literal", literal)].

(** The result [GeneralRetrieval] stores when no provider is configured. *)
Definition stub_result (q : string) : value :=
  VDict [("query", VStr q); ("items", VList []);
         ("note", VStr "No general_kb_provider configured; stub result returned.")].

(** A [GeneralRetrieval] spec with a query and a result limit. *)
Definition retrieval_query_spec (query : string) (topk : Z) : ActionSpec :=
  VDict [("type", VStr "GeneralRetrieval"); ("query", VStr query);
         ("topk", VInt topk)].

(** ** Phase 2: choosing among the candidates ([core/debate.py])

    The debate runner works on the paths that the search returned.  Its
    collaborators (the judges and the decision agent) read the store and
    may advance the world; each may raise. *)

Module Debate.

Abbreviation Judge W := (W -> Heap -> string -> loc -> W * Res EvalResult.t).
Abbreviation Decider W := (W -> Heap -> string -> list loc -> W * Res Z).

(** [decision_agent: Optional[DecisionAgent] = None] and
    [debate_agents: Optional[List[DebateAgent]] = None]. *)
Record DebateRunner (W : Type) := mk {
  decision_agent : option (Decider W);
  debate_agents : option (list (Judge W))
}.
Arguments mk {W} _ _.
Arguments decision_agent {W} _.
Arguments debate_agents {W} _.

Section Run.
Context {W : Type}.

Definition on_heap {A} (m : M Heap A) : M (W * Heap) A :=
  fun s =>
    let '(h', r) := m (snd s) in
    ((fst s, h'), r).

Definition judge (j : Judge W) (question : string) (p : loc)
  : M (W * Heap) EvalResult.t :=
  fun s =>
    let '(w', r) := j (fst s) (snd s) question p in
    ((w', snd s), r).

Definition decide (d : Decider W) (question : string) (candidates : list loc)
  : M (W * Heap) Z :=
  fun s =>
    let '(w', r) := d (fst s) (snd s) question candidates in
    ((w', snd s), r).

(** The inner [for j in self.debate_agents] loop: the scores and the
    non-empty critiques, in the order of the judges. *)
Fixpoint judge_all (js : list (Judge W)) (question : string) (p : loc)
  (scores : list R) (critiques : list string)
  : M (W * Heap) (list R * list string) :=
  match js with
  | [] => ret (scores, critiques)
  | j :: js' =>
      er <- judge j question p ;;
      judge_all js' question p (scores ++ [EvalResult.score er])
        (if String.eqb (EvalResult.critique er) "" then critiques
         else critiques ++ [EvalResult.critique er])
  end.

(** [sum(scores)] *)
Definition py_sum (scores : list R) : R := fold_left Rplus scores 0%R.

(** The body of [for p in candidates]. *)
Definition refine (js : list (Judge W)) (question : string) (p : loc)
  : M (W * Heap) unit :=
  r <- judge_all js question p [] [] ;;
  let '(scores, critiques) := r in
  (match scores with
   | [] => ret tt
   | _ :: _ =>
       on_heap (update_path p
                  (ReasoningPath.set_total_score
                     (py_sum scores / IZR (Z.of_nat (length scores)))%R))
   end) ;;;
  match critiques with
  | [] => ret tt
  | _ :: _ =>
      pv <- on_heap (get_path p) ;;
      on_heap (dict_setitem (ReasoningPath.meta pv) "debate_critiques"
                 (VList (map VStr critiques)))
  end.

Fixpoint refine_all (js : list (Judge W)) (question : string)
  (candidates : list loc) : M (W * Heap) unit :=
  match candidates with
  | [] => ret tt
  | p :: rest => refine js question p ;;; refine_all js question rest
  end.

(** [candidates.sort(key=lambda p: p.total_score, reverse=True)] *)
Definition sort_paths (candidates : list loc) : M (W * Heap) (list loc) :=
  fun s =>
    match with_scores (snd s) candidates with
    | Raise e => (s, Raise e)
    | Ok l => (s, Ok (map snd (sort_desc l)))
    end.

(** [DebateRunner.run]: the candidate list as the call leaves it (the
    default branch sorts it in place) and the chosen path. *)
Definition run (self : DebateRunner W) (question : string)
  (candidates : list loc) : M (W * Heap) (list loc * loc) :=
  match candidates with
  | [] => raise (mkExn "ValueError" "No candidate paths provided to DebateRunner.")
  | _ :: _ =>
      (match debate_agents self with
       | Some (j :: js) => refine_all (j :: js) question candidates
       | _ => ret tt
       end) ;;;
      match decision_agent self with
      | Some d =>
          idx <- decide d question candidates ;;
          let idx' := Z.max 0 (Z.min idx (Z.of_nat (length candidates) - 1)) in
          p <- lift_res (py_index candidates idx') ;;
          ret (candidates, p)
      | None =>
          sorted <- sort_paths candidates ;;
          p <- lift_res (py_index sorted 0) ;;
          ret (sorted, p)
      end
  end.

End Run.

End Debate.

(** The score of a path that is known to exist. *)
Definition score_of (h : Heap) (p : loc) : R :=
  match h_paths h !! p with
  | Some pv => ReasoningPath.total_score pv
  | None => 0%R
  end.

(** Three paths with the scores 0.2, 0.9 and 0.9. *)
Definition debate_heap : Heap :=
  mkHeap [] [∅; ∅; ∅] [[]; []; []]
    [ReasoningPath.mk 0%nat VNone true 0.2%R 0%nat;
     ReasoningPath.mk 1%nat VNone true 0.9%R 1%nat;
     ReasoningPath.mk 2%nat VNone true 0.9%R 2%nat] [].

(** A store with one finished state: done, with the answer ["10"]. *)
Definition debate_ctx_heap : Heap :=
  mkHeap [table_3x2] [∅; ∅] [[]]
    [ReasoningPath.mk 0%nat VNone true 0%R 1%nat]
    [ReasoningContext.mk 0%nat 0%nat "total cost?" 0%nat 0%nat true (VStr "10") 1].

(** [dead_end_runner] with a depth limit of zero. *)
Definition shallow_runner : MCTSRunner nat :=
  mkMCTSRunner (planner dead_end_runner) (executor dead_end_runner)
    (evaluator dead_end_runner) (SearchHeuristics.mk 0 (-1e9)%R) (Fin 1.4) 7.

(** ** The store after a simulation

    [h1] is the store as the executor left it and [cctx] the state it
    returned: the object [cc], with path [cp] and step list [stp]. *)


(** * Proofs *)

(** *** Facts about ordered dictionaries *)

Section OrderedDictFacts.
Context {K V : Type} `{EqDecision K}.
Implicit Types (d : list (K * V)) (k : K) (v : V).

Lemma od_get_set k k' v d :
  od_get k (od_set k' v d) = if decide (k = k') then Some v else od_get k d.
Proof.
  induction d as [|[k0 v0] d IH]; simpl.
  - destruct (decide (k = k')); reflexivity.
  - destruct (decide (k' = k0)) as [->|Hne]; simpl.
    + destruct (decide (k = k0)); reflexivity.
    + destruct (decide (k = k0)) as [->|Hne2].
      * destruct (decide (k0 = k')); congruence.
      * exact IH.
Qed.

Lemma od_get_In k v d : od_get k d = Some v -> In (k, v) d.
Proof.
  induction d as [|[k0 v0] d IH]; simpl; [discriminate|].
  destruct (decide (k = k0)) as [->|Hne]; intros E.
  - left. congruence.
  - right. auto.
Qed.

Lemma od_get_None k d : od_get k d = None <-> ~ In k (od_keys d).
Proof.
  induction d as [|[k0 v0] d IH]; simpl.
  - tauto.
  - destruct (decide (k = k0)) as [->|Hne].
    + split; [discriminate | tauto].
    + rewrite IH. split; [intros H1 [E|H2]; congruence | tauto].
Qed.

Lemma od_get_NoDup k v d :
  NoDup (od_keys d) -> In (k, v) d -> od_get k d = Some v.
Proof.
  induction d as [|[k0 v0] d IH]; simpl; [tauto|].
  intros Hnd [E|Hin].
  - inversion E; subst. destruct (decide (k = k)); congruence.
  - apply NoDup_cons in Hnd as [Hnot Hnd'].
    destruct (decide (k = k0)) as [->|Hne].
    + exfalso. apply Hnot. apply list_elem_of_In.
      change k0 with (fst (k0, v)). apply in_map. exact Hin.
    + apply IH; [exact Hnd' | exact Hin].
Qed.

Lemma od_keys_set k v d :
  od_keys (od_set k v d) =
  if od_mem k d then od_keys d else od_keys d ++ [k].
Proof.
  unfold od_mem. induction d as [|[k0 v0] d IH]; simpl; [reflexivity|].
  destruct (decide (k = k0)) as [->|Hne]; simpl; [reflexivity|].
  rewrite IH. destruct (od_get k d); reflexivity.
Qed.

Lemma od_set_length_mem k v d :
  length (od_set k v d) =
  if od_mem k d then length d else S (length d).
Proof.
  unfold od_mem. induction d as [|[k0 v0] d IH]; simpl; [reflexivity|].
  destruct (decide (k = k0)) as [->|Hne]; simpl; [reflexivity|].
  rewrite IH. destruct (od_get k d); reflexivity.
Qed.
Lemma od_set_NoDup k v d : NoDup (od_keys d) -> NoDup (od_keys (od_set k v d)).
Proof.
  intros Hnd. rewrite od_keys_set. unfold od_mem.
  destruct (od_get k d) eqn:E; [exact Hnd|].
  apply od_get_None in E. apply NoDup_app. split; [exact Hnd|]. split.
  - intros x Hx Hk. apply list_elem_of_singleton in Hk. subst x.
    apply E. apply list_elem_of_In. exact Hx.
  - apply NoDup_singleton.
Qed.
End OrderedDictFacts.

(** *** Column resolution *)

Section TableFacts.

Example norm_collapses : _norm "  Unit   Cost " = "unit cost"%string.
Proof. reflexivity. Qed.

Example resolve_exact_later_wins :
  resolve_col (new ["Year"; "Unit Cost"; "unit  cost"; "Cost"]%string [])
              "unit cost" = Ok 2%nat.
Proof. reflexivity. Qed.

Example resolve_soft_tie :
  resolve_col (new ["xa"; "xb"; "XA"; "long x"]%string []) "x" = Ok 2%nat.
Proof. reflexivity. Qed.

Example resolve_missing :
  is_ok (resolve_col (new ["Year"; "Cost"]%string []) "zz") = false.
Proof. reflexivity. Qed.

Lemma index_from_get k hs : forall i d,
  (exists j, last_at k hs j /\ od_get k (index_from i hs d) = Some (i + j)%nat)
  \/ (absent k hs /\ od_get k (index_from i hs d) = od_get k d).
Proof.
  induction hs as [|h hs IH]; intros i d; simpl.
  - right. split; [intros j h Hj; destruct j; discriminate | reflexivity].
  - destruct (IH (S i) (od_set (_norm h) i d)) as [(j & [Hex Hlast] & Hget)|[Habs Hget]].
    + left. exists (S j). split; [split|].
      * exact Hex.
      * intros j' h' Hlt Hj'. destruct j' as [|j']; [lia|].
        apply (Hlast j' h'); [lia | exact Hj'].
      * rewrite Hget. f_equal. lia.
    + rewrite od_get_set in Hget.
      destruct (decide (k = _norm h)) as [->|Hne].
      * left. exists 0%nat. split; [split|].
        -- exists h. split; reflexivity.
        -- intros j' h' Hlt Hj'. destruct j' as [|j']; [lia|].
           apply (Habs j' h'). exact Hj'.
        -- rewrite Hget. f_equal. lia.
      * right. split; [|exact Hget].
        intros j h' Hj. destruct j as [|j].
        -- simpl in Hj. injection Hj as <-. congruence.
        -- apply (Habs j h'). exact Hj.
Qed.


Lemma last_at_unique k hs j1 j2 : last_at k hs j1 -> last_at k hs j2 -> j1 = j2.
Proof.
  intros [(h1 & Hh1 & Hk1) Hl1] [(h2 & Hh2 & Hk2) Hl2].
  destruct (Nat.lt_trichotomy j1 j2) as [Hlt|[->|Hgt]]; [|reflexivity|].
  - exfalso. exact (Hl1 j2 h2 Hlt Hh2 Hk2).
  - exfalso. exact (Hl2 j1 h1 Hgt Hh1 Hk1).
Qed.



Lemma index_from_NoDup hs : forall i d,
  NoDup (od_keys d) -> NoDup (od_keys (index_from i hs d)).
Proof.
  induction hs as [|h hs IH]; intros i d Hnd; simpl; [exact Hnd|].
  apply IH. apply od_set_NoDup. exact Hnd.
Qed.

(** An entry of the index maps its key to the last column carrying it. *)
Lemma index_entry_last hs k v :
  In (k, v) (index_from 0 hs []) -> last_at k hs v.
Proof.
  intros Hin.
  assert (Hget : od_get k (index_from 0 hs []) = Some v).
  { apply od_get_NoDup; [|exact Hin]. apply index_from_NoDup. apply NoDup_nil. exact I. }
  destruct (index_from_get k hs 0 []) as [(j & Hlast & Hg)|[_ Hg]].
  - rewrite Hg in Hget. injection Hget as <-. exact Hlast.
  - rewrite Hg in Hget. discriminate.
Qed.

(** The stable sort puts in front the first of the shortest entries. *)
Lemma insert_by_len_head x l :
  head (insert_by_len x l) =
  match l with
  | [] => Some x
  | y :: _ => if (String.length (fst y) <? String.length (fst x))%nat
              then Some y else Some x
  end.
Proof.
  destruct l as [|y l]; simpl; [reflexivity|].
  destruct (String.length (fst y) <? String.length (fst x))%nat; reflexivity.
Qed.

Lemma sort_by_len_head l :
  l <> [] ->
  exists l1 x l2,
    l = l1 ++ x :: l2 /\ head (sort_by_len l) = Some x /\
    (forall y, In y l1 -> (String.length (fst x) < String.length (fst y))%nat) /\
    (forall y, In y l2 -> (String.length (fst x) <= String.length (fst y))%nat).
Proof.
  induction l as [|a l IH]; intros Hne; [congruence|].
  destruct l as [|b l].
  - exists [], a, []. simpl. repeat split; intros y [].
  - destruct IH as (l1 & x & l2 & Hl & Hhead & Hbefore & Hafter); [discriminate|].
    change (sort_by_len (a :: b :: l)) with (insert_by_len a (sort_by_len (b :: l))).
    rewrite insert_by_len_head.
    destruct (sort_by_len (b :: l)) as [|y s] eqn:Es; [discriminate|].
    simpl in Hhead. injection Hhead as ->.
    destruct (String.length (fst x) <? String.length (fst a))%nat eqn:Elt.
    + apply Nat.ltb_lt in Elt.
      exists (a :: l1), x, l2. rewrite Hl. repeat split.
      * intros y [<-|Hy]; [exact Elt | apply Hbefore; exact Hy].
      * exact Hafter.
    + apply Nat.ltb_ge in Elt.
      exists [], a, (b :: l). repeat split.
      * intros y [].
      * intros y Hy. rewrite Hl in Hy. apply in_app_or in Hy as [Hy|[<-|Hy]].
        -- specialize (Hbefore y Hy). lia.
        -- exact Elt.
        -- specialize (Hafter y Hy). lia.
Qed.




End TableFacts.

(** *** Forking *)

Section ForkFacts.
Import ReasoningContext ReasoningPath.

Lemma fork_eq h s c p mem st mt :
  h_ctxs h !! s = Some c ->
  h_paths h !! path c = Some p ->
  h_dicts h !! memory c = Some mem ->
  h_lists h !! steps p = Some st ->
  h_dicts h !! meta p = Some mt ->
  fork s h = (forked_heap h c p mem mt st, Ok (length (h_ctxs h))).
Proof.
  intros Hc Hp Hmem Hst Hmt.
  unfold fork, bind, get_ctx, get_dict, get_path, get_list, new_dict, new_list,
    new_path, new_ctx, of_option, ret. simpl.
  rewrite Hc. simpl. rewrite Hmem. simpl. rewrite Hp. simpl. rewrite Hst. simpl.
  rewrite (lookup_app_l_Some _ _ _ _ Hmt). simpl.
  unfold forked_heap, forked_path, forked_ctx. simpl.
  rewrite length_app. simpl. rewrite Nat.add_1_r. reflexivity.
Qed.

Lemma separate_dicts_ne h a b : a <> b -> separate_dicts h a b.
Proof.
  intros Hne da db Ha Hb. split.
  - intros k v. eexists. split; [|split].
    + unfold dict_setitem, update_dict, bind, get_dict, of_option, modify, ret.
      rewrite Ha. reflexivity.
    + simpl. apply list_lookup_insert_eq. eapply lookup_lt_Some. exact Ha.
    + simpl. rewrite list_lookup_insert_ne by exact Hne. exact Hb.
  - intros k [v Hk]. eexists. split; [|split].
    + unfold dict_delitem, bind, get_dict, of_option, modify, ret.
      rewrite Ha. simpl. rewrite Hk. reflexivity.
    + simpl. apply list_lookup_insert_eq. eapply lookup_lt_Some. exact Ha.
    + simpl. rewrite list_lookup_insert_ne by exact Hne. exact Hb.
Qed.

Lemma separate_lists_ne h a b : a <> b -> separate_lists h a b.
Proof.
  intros Hne la lb Ha Hb x. eexists. split; [|split].
  - unfold list_append, update_list, bind, get_list, of_option, modify, ret.
    rewrite Ha. reflexivity.
  - simpl. apply list_lookup_insert_eq. eapply lookup_lt_Some. exact Ha.
  - simpl. rewrite list_lookup_insert_ne by exact Hne. exact Hb.
Qed.

(** C7. [fork] of a well-formed state [S] returns a new state object
    whose [table] and [view] are the very references of [S] (the tables
    themselves are untouched), whose scalar fields equal those of [S],
    and whose memory map, step list and metadata map are new objects
    with the contents of the originals: binding, rebinding or removing a
    top-level key, or appending a step, on either side leaves the other
    side as it was.  [S] itself is unchanged. *)
Theorem fork_spec (h : Heap) (s : loc) c p mem st mt :
  h_ctxs h !! s = Some c ->
  h_paths h !! path c = Some p ->
  h_dicts h !! memory c = Some mem ->
  h_lists h !! steps p = Some st ->
  h_dicts h !! meta p = Some mt ->
  exists h' s' c' p',
    fork s h = (h', Ok s') /\
    s' <> s /\ h_ctxs h' !! s' = Some c' /\ h_paths h' !! path c' = Some p' /\
    (* the source and the tables are as before *)
    h_ctxs h' !! s = Some c /\ h_paths h' !! path c = Some p /\
    h_tables h' = h_tables h /\
    (* shared views *)
    table c' = table c /\ view c' = view c /\
    (* scalar fields *)
    question c' = question c /\ done c' = done c /\
    answer c' = answer c /\ depth c' = depth c /\
    final_answer p' = final_answer p /\ terminal p' = terminal p /\
    total_score p' = total_score p /\
    (* copied collections *)
    memory c' <> memory c /\
    h_dicts h' !! memory c' = Some mem /\ h_dicts h' !! memory c = Some mem /\
    steps p' <> steps p /\
    h_lists h' !! steps p' = Some st /\ h_lists h' !! steps p = Some st /\
    meta p' <> meta p /\
    h_dicts h' !! meta p' = Some mt /\ h_dicts h' !! meta p = Some mt /\
    (* a mutation of either leaves the other alone *)
    separate_dicts h' (memory c') (memory c) /\
    separate_dicts h' (memory c) (memory c') /\
    separate_lists h' (steps p') (steps p) /\
    separate_lists h' (steps p) (steps p') /\
    separate_dicts h' (meta p') (meta p) /\
    separate_dicts h' (meta p) (meta p').
Proof.
  intros Hc Hp Hmem Hst Hmt.
  pose proof (lookup_lt_Some _ _ _ Hc) as Lc.
  pose proof (lookup_lt_Some _ _ _ Hp) as Lp.
  pose proof (lookup_lt_Some _ _ _ Hmem) as Lmem.
  pose proof (lookup_lt_Some _ _ _ Hst) as Lst.
  pose proof (lookup_lt_Some _ _ _ Hmt) as Lmt.
  exists (forked_heap h c p mem mt st), (length (h_ctxs h)),
    (forked_ctx h c), (forked_path h p).
  assert (Hm1 : memory (forked_ctx h c) <> memory c) by (simpl; lia).
  assert (Hs1 : steps (forked_path h p) <> steps p) by (simpl; lia).
  assert (Ht1 : meta (forked_path h p) <> meta p) by (simpl; lia).
  split; [apply fork_eq; assumption|].
  split; [lia|].
  split; [simpl; apply list_lookup_middle; reflexivity|].
  split; [simpl; apply list_lookup_middle; reflexivity|].
  split; [simpl; apply lookup_app_l_Some; exact Hc|].
  split; [simpl; apply lookup_app_l_Some; exact Hp|].
  split; [reflexivity|].
  do 9 (split; [reflexivity|]).
  split; [exact Hm1|].
  split; [simpl; apply lookup_app_l_Some; apply list_lookup_middle; reflexivity|].
  split; [simpl; do 2 apply lookup_app_l_Some; exact Hmem|].
  split; [exact Hs1|].
  split; [simpl; apply list_lookup_middle; reflexivity|].
  split; [simpl; apply lookup_app_l_Some; exact Hst|].
  split; [exact Ht1|].
  split; [simpl; apply list_lookup_middle; rewrite length_app; simpl; lia|].
  split; [simpl; do 2 apply lookup_app_l_Some; exact Hmt|].
  split; [apply separate_dicts_ne; exact Hm1|].
  split; [apply separate_dicts_ne; congruence|].
  split; [apply separate_lists_ne; exact Hs1|].
  split; [apply separate_lists_ne; congruence|].
  split; [apply separate_dicts_ne; exact Ht1|].
  apply separate_dicts_ne; congruence.
Qed.

(** Forking the root state of [example_heap]. *)
Lemma fork_spec_witness :
  exists h' s' c',
    fork 0%nat example_heap = (h', Ok s') /\ h_ctxs h' !! s' = Some c' /\
    memory c' <> 0%nat /\ separate_dicts h' (memory c') 0%nat.
Proof.
  destruct (fork_spec example_heap 0%nat
              (ReasoningContext.mk 0%nat 0%nat "total cost?" 0%nat 0%nat false VNone 0)
              (ReasoningPath.mk 0%nat VNone false 0%R 1%nat)
              {["hint" := VInt 1]} [] ∅
              eq_refl eq_refl eq_refl eq_refl eq_refl)
    as (h' & s' & c' & p' & Hrun & _ & Hc' & _ & _ & _ & _ & _ & _ & _ & _ & _ & _
        & _ & _ & _ & Hne & _ & _ & _ & _ & _ & _ & _ & _ & Hsep & _).
  exists h', s', c'. auto.
Defined.
End ForkFacts.

(** *** Selection *)

Section SelectFacts.
Import MCTSNode.

Lemma Rgtb_true a b : Rgtb a b = true <-> (b < a)%R.
Proof. unfold Rgtb. destruct (Rlt_dec b a); split; intros; (congruence || lra). Qed.

Lemma Rgtb_false a b : Rgtb a b = false <-> (a <= b)%R.
Proof. unfold Rgtb. destruct (Rlt_dec b a); split; intros; (congruence || lra). Qed.



Lemma xgt_irrefl a : xgt a a = false.
Proof. destruct a; simpl; try reflexivity. apply Rgtb_false. lra. Qed.

(** With a finite constant the score is the formula of the source. *)
Lemma ucb_score_fin pn q n (c : R) :
  ucb_score pn q n (Fin c) =
  if n =? 0 then PInf
  else Fin (q + c * sqrt (ln (IZR (Z.max 1 pn)) / IZR n))%R.
Proof. unfold ucb_score. destruct (n =? 0); reflexivity. Qed.


Lemma ucb_score_fin_above pn q n (c : R) : xgt (ucb_score pn q n (Fin c)) NInf = true.
Proof. rewrite ucb_score_fin. destruct (n =? 0); reflexivity. Qed.







Lemma select_step_stay c h t node n cx :
  t !! node = Some n -> h_ctxs h !! ctx n = Some cx ->
  children n = [] \/ ReasoningContext.done cx = true ->
  select_step c h t node = Ok None.
Proof.
  intros Hn Hcx Hstop. unfold select_step. rewrite Hn, Hcx.
  destruct (children n); [reflexivity|].
  destruct Hstop as [Hs|Hs]; [discriminate | rewrite Hs; reflexivity].
Qed.












End SelectFacts.

(** *** Backpropagation *)

Section BackpropFacts.
Import MCTSNode.

Lemma visit_ok r n :
  0 <= N n ->
  visit r n = Ok (set_stats (N n + 1) (Q n + (r - Q n) / IZR (N n + 1))%R n).
Proof.
  intros Hn. unfold visit.
  destruct (N n + 1 =? 0) eqn:E; [apply Z.eqb_eq in E; lia | reflexivity].
Qed.

Lemma on_chain_inv t l x :
  on_chain t l x ->
  x = l \/ exists n p, t !! l = Some n /\ parent n = Some p /\ on_chain t p x.
Proof. intros H. destruct H; [left; reflexivity | right; eauto]. Qed.

Lemma on_chain_le t l x : wf_shape t -> on_chain t l x -> (x <= l)%nat.
Proof.
  intros Hwf H. induction H as [l|l n p x Hl Hp _ IH]; [lia|].
  destruct (Hwf l n Hl) as (Hpar & _). specialize (Hpar p Hp). lia.
Qed.

(** The chain only depends on the parent references. *)
Lemma on_chain_ext (t1 t2 : Tree) l x :
  (forall i, parent <$> (t1 !! i) = parent <$> (t2 !! i)) ->
  on_chain t1 l x -> on_chain t2 l x.
Proof.
  intros Hsame H. induction H as [l|l n p x Hl Hp _ IH]; [constructor|].
  specialize (Hsame l). rewrite Hl in Hsame. simpl in Hsame.
  destruct (t2 !! l) as [n2|] eqn:E2; [|discriminate].
  simpl in Hsame. injection Hsame as Hpar.
  apply (chain_up t2 l n2 p x E2); [congruence | exact IH].
Qed.

Lemma set_stats_parents (t : Tree) (l : nat) n a q (i : nat) :
  t !! l = Some n ->
  parent <$> (<[l := set_stats a q n]> t !! i) = parent <$> (t !! i).
Proof.
  intros Hl. destruct (decide (l = i)) as [->|Hne].
  - rewrite list_lookup_insert_eq by (eapply lookup_lt_Some; exact Hl).
    rewrite Hl. reflexivity.
  - rewrite list_lookup_insert_ne by exact Hne. reflexivity.
Qed.

Lemma wf_shape_set_stats (t : Tree) (l : nat) n a q :
  wf_shape t -> t !! l = Some n -> 0 <= a ->
  wf_shape (<[l := set_stats a q n]> t).
Proof.
  intros Hwf Hl Ha i m Hi. rewrite length_insert.
  destruct (decide (l = i)) as [->|Hne].
  - rewrite list_lookup_insert_eq in Hi by (eapply lookup_lt_Some; exact Hl).
    injection Hi as <-. simpl.
    destruct (Hwf i n Hl) as (H1 & H2 & H3 & H4). auto.
  - rewrite list_lookup_insert_ne in Hi by exact Hne. apply (Hwf i m Hi).
Qed.

Lemma backprop_from_spec r : forall fuel t l,
  wf_shape t -> (l < fuel)%nat -> (l < length t)%nat ->
  exists t',
    backprop_from fuel t (Some l) r = Ok t' /\
    length t' = length t /\
    wf_shape t' /\
    (forall i, parent <$> (t' !! i) = parent <$> (t !! i)) /\
    (forall x n, t !! x = Some n -> on_chain t l x ->
       t' !! x = Some (set_stats (N n + 1) (Q n + (r - Q n) / IZR (N n + 1))%R n)) /\
    (forall x, ~ on_chain t l x -> t' !! x = t !! x).
Proof.
  induction fuel as [|fuel IH]; intros t l Hwf Hfuel Hlen; [lia|].
  destruct (lookup_lt_is_Some_2 _ _ Hlen) as [n Hn].
  destruct (Hwf l n Hn) as (Hpar & _ & _ & HN).
  simpl. rewrite Hn, (visit_ok r n HN).
  set (n' := set_stats (N n + 1) (Q n + (r - Q n) / IZR (N n + 1))%R n).
  set (t1 := <[l := n']> t).
  assert (Hwf1 : wf_shape t1) by (apply wf_shape_set_stats; [exact Hwf | exact Hn | lia]).
  assert (Hpar1 : forall i, parent <$> (t1 !! i) = parent <$> (t !! i))
    by (intros i; apply set_stats_parents; exact Hn).
  assert (Hl1 : t1 !! l = Some n')
    by (apply list_lookup_insert_eq; exact Hlen).
  destruct (parent n) as [p|] eqn:Ep.
  - specialize (Hpar p eq_refl).
    destruct (IH t1 p Hwf1) as (t' & Hrun & Hlen' & Hwf' & Hpar' & Hon & Hoff);
      [lia | unfold t1; rewrite length_insert; lia |].
    exists t'. split; [exact Hrun|].
    split; [rewrite Hlen'; apply length_insert|].
    split; [exact Hwf'|].
    split; [intros i; rewrite Hpar'; apply Hpar1|].
    split.
    + intros x m Hx Hchain.
      apply on_chain_inv in Hchain as [->|(n0 & p0 & Hn0 & Hp0 & Hchain)].
      * rewrite Hn in Hx. injection Hx as <-.
        rewrite Hoff; [exact Hl1|].
        intros Hc. apply (on_chain_le t1 p l Hwf1) in Hc. lia.
      * rewrite Hn in Hn0. injection Hn0 as <-. rewrite Ep in Hp0. injection Hp0 as <-.
        assert (Hle : (x <= p)%nat) by exact (on_chain_le t p x Hwf Hchain).
        apply Hon.
        -- unfold t1. rewrite list_lookup_insert_ne by lia. exact Hx.
        -- apply (on_chain_ext t t1); [intros i; symmetry; apply Hpar1 | exact Hchain].
    + intros x Hnot.
      assert (Hxl : x <> l) by (intros ->; apply Hnot; constructor).
      rewrite Hoff.
      * unfold t1. apply list_lookup_insert_ne. congruence.
      * intros Hc. apply Hnot. apply (chain_up t l n p x Hn Ep).
        apply (on_chain_ext t1 t); [exact Hpar1 | exact Hc].
  - exists t1. split; [destruct fuel; reflexivity|].
    split; [apply length_insert|]. split; [exact Hwf1|]. split; [exact Hpar1|].
    split.
    + intros x m Hx Hchain.
      apply on_chain_inv in Hchain as [->|(n0 & p0 & Hn0 & Hp0 & _)].
      * rewrite Hn in Hx. injection Hx as <-. exact Hl1.
      * rewrite Hn in Hn0. injection Hn0 as <-. congruence.
    + intros x Hnot.
      assert (Hxl : x <> l) by (intros ->; apply Hnot; constructor).
      unfold t1. apply list_lookup_insert_ne. congruence.
Qed.

Lemma backprop_ok t node r :
  wf_shape t -> (node < length t)%nat ->
  exists t',
    _backprop t node r = Ok t' /\
    length t' = length t /\
    wf_shape t' /\
    (forall i, parent <$> (t' !! i) = parent <$> (t !! i)) /\
    (forall x n, t !! x = Some n -> on_chain t node x ->
       t' !! x = Some (set_stats (N n + 1) (Q n + (r - Q n) / IZR (N n + 1))%R n)) /\
    (forall x, ~ on_chain t node x -> t' !! x = t !! x).
Proof. intros Hwf Hlt. apply backprop_from_spec; assumption. Qed.



End BackpropFacts.

(** *** The execution boundary *)

Section ExecuteFacts.

Lemma execute_of_attempt registry pen ctx spec h :
  execute registry pen ctx spec h =
  match attempt registry ctx spec h with
  | (h1, Ok r) => (h1, Ok r)
  | (h1, Raise e) => (h1, Ok (ctx, failure_observation pen e))
  end.
Proof.
  unfold execute, try_except. destruct (attempt registry ctx spec h) as [h1 [r|e]];
    reflexivity.
Qed.

Lemma attempt_build_fails registry ctx spec h e :
  build_action registry spec = Raise e ->
  attempt registry ctx spec h = (h, Raise e).
Proof. intros H. unfold attempt, bind, lift_res. rewrite H. reflexivity. Qed.




End ExecuteFacts.

(** *** The loop and the candidate quota *)

Section QuotaFacts.

(** C3 (the loop does not stop when the quota is reached outside the
    expansion branch).  With a planner that proposes nothing, a budget
    of three iterations and [max_candidates = 1]: one iteration already
    fills the quota, yet the full run asks the planner three times and
    backpropagates three rewards into the root.  The dead-end branch
    ends in [continue], before the [break] test. *)
Theorem loop_runs_past_quota :
  snd (run dead_end_runner 0%nat 1 1 (start 0%nat table_3x2 "total cost?" ∅))
    = Ok [1%nat] /\
  let r := run dead_end_runner 0%nat 3 1 (start 0%nat table_3x2 "total cost?" ∅) in
  snd r = Ok [1%nat] /\
  st_world (fst r) = 3%nat /\
  MCTSNode.N <$> (st_tree (fst r) !! 0%nat) = Some 3.
Proof. repeat split; reflexivity. Qed.

End QuotaFacts.

(** *** Sorting the candidates *)

Section SortFacts.

Lemma insert_desc_In x l y : In y (insert_desc x l) <-> y = x \/ In y l.
Proof.
  induction l as [|z l IH]; simpl; [intuition|].
  destruct (Rgtb (fst z) (fst x)); simpl; [rewrite IH|]; intuition.
Qed.

Lemma sort_desc_In l y : In y (sort_desc l) <-> In y l.
Proof.
  induction l as [|x l IH]; simpl; [tauto|].
  rewrite insert_desc_In, IH. intuition.
Qed.

Lemma insert_desc_sorted x l :
  StronglySorted above l -> StronglySorted above (insert_desc x l).
Proof.
  induction l as [|z l IH]; intros Hs; simpl.
  - constructor; constructor.
  - apply StronglySorted_inv in Hs as [Hs Hall].
    destruct (Rgtb (fst z) (fst x)) eqn:E.
    + apply Rgtb_true in E. constructor; [apply IH; exact Hs|].
      apply Forall_forall. intros y Hy. apply list_elem_of_In in Hy.
      apply (proj1 (insert_desc_In _ _ _)) in Hy as [->|Hy].
      * unfold above. lra.
      * rewrite Forall_forall in Hall. apply Hall. apply list_elem_of_In. exact Hy.
    + apply Rgtb_false in E. constructor.
      * constructor; assumption.
      * constructor; [exact E|].
        rewrite Forall_forall in Hall |- *. intros y Hy.
        specialize (Hall y Hy). unfold above in *. lra.
Qed.

Lemma sort_desc_sorted l : StronglySorted above (sort_desc l).
Proof.
  induction l as [|x l IH]; simpl; [constructor|].
  apply insert_desc_sorted. exact IH.
Qed.

Lemma sort_desc_length l : length (sort_desc l) = length l.
Proof.
  assert (Hins : forall x l, length (insert_desc x l) = S (length l)).
  { intros x l0. induction l0 as [|z l0 IH]; simpl; [reflexivity|].
    destruct (Rgtb (fst z) (fst x)); simpl; [rewrite IH|]; reflexivity. }
  induction l as [|x l IH]; simpl; [reflexivity|]. rewrite Hins, IH. reflexivity.
Qed.

Lemma sorted_lookup (l : list (R * loc)) :
  StronglySorted above l ->
  forall i j x y, (i < j)%nat -> l !! i = Some x -> l !! j = Some y -> above x y.
Proof.
  induction 1 as [|a l Hs IH Hall]; intros i j x y Hlt Hi Hj.
  - destruct i; discriminate.
  - destruct j as [|j]; [lia|]. simpl in Hj. destruct i as [|i].
    + simpl in Hi. injection Hi as <-.
      rewrite Forall_forall in Hall. apply Hall.
      apply list_elem_of_lookup_2 with j. exact Hj.
    + simpl in Hi. apply (IH i j); [lia | assumption..].
Qed.

Lemma with_scores_spec h : forall cands ps,
  with_scores h cands = Ok ps ->
  forall r p, In (r, p) ps -> path_score h p = Some r.
Proof.
  induction cands as [|c cands IH]; intros ps Hw r p Hin; simpl in Hw.
  - injection Hw as <-. destruct Hin.
  - destruct (h_paths h !! c) as [pv|] eqn:Ec; [|discriminate].
    destruct (with_scores h cands) as [l|e]; [|discriminate].
    injection Hw as <-. destruct Hin as [E|Hin].
    + injection E as <- <-. unfold path_score. rewrite Ec. reflexivity.
    + apply (IH l eq_refl r p Hin).
Qed.

Lemma score_sorted_of_pairs h (ps : list (R * loc)) :
  StronglySorted above ps ->
  (forall r p, In (r, p) ps -> path_score h p = Some r) ->
  score_sorted h (map snd ps).
Proof.
  intros Hs Hsc i j pi pj Hlt Hi Hj.
  rewrite list_lookup_fmap in Hi, Hj.
  destruct (ps !! i) as [[ri pi']|] eqn:Ei; [|discriminate].
  destruct (ps !! j) as [[rj pj']|] eqn:Ej; [|discriminate].
  simpl in Hi, Hj. injection Hi as <-. injection Hj as <-.
  exists ri, rj. split; [|split].
  - apply Hsc. apply list_elem_of_In. apply list_elem_of_lookup_2 with i. exact Ei.
  - apply Hsc. apply list_elem_of_In. apply list_elem_of_lookup_2 with j. exact Ej.
  - exact (sorted_lookup ps Hs i j _ _ Hlt Ei Ej).
Qed.

Lemma score_sorted_take h l n : score_sorted h l -> score_sorted h (take n l).
Proof.
  intros Hs i j pi pj Hlt Hi Hj.
  apply lookup_take_Some in Hi as [Hi _]. apply lookup_take_Some in Hj as [Hj _].
  exact (Hs i j pi pj Hlt Hi Hj).
Qed.

Lemma score_sorted_slice h l k : score_sorted h l -> score_sorted h (slice_to l k).
Proof. intros Hs. unfold slice_to. destruct (k <? 0); apply score_sorted_take; exact Hs. Qed.

Lemma sort_candidates_spec {W} (cands : list loc) (s s' : St W) l :
  sort_candidates cands s = (s', Ok l) ->
  s' = s /\ score_sorted (st_heap s) l /\ length l = length cands.
Proof.
  unfold sort_candidates. intros H.
  destruct (with_scores (st_heap s) cands) as [ps|e] eqn:E; [|discriminate].
  injection H as <- <-. split; [reflexivity|]. split.
  - apply score_sorted_of_pairs; [apply sort_desc_sorted|].
    intros r p Hin. apply (proj1 (sort_desc_In _ _)) in Hin. exact (with_scores_spec _ _ _ E r p Hin).
  - rewrite length_map, sort_desc_length.
    clear -E. revert ps E. induction cands as [|c cands IH]; intros ps E; simpl in E.
    + injection E as <-. reflexivity.
    + destruct (h_paths (st_heap s) !! c); [|discriminate].
      destruct (with_scores (st_heap s) cands) as [l|]; [|discriminate].
      injection E as <-. simpl. rewrite (IH l eq_refl). reflexivity.
Qed.

(** What [run] returns is sorted by score. *)
Lemma run_sorted {W} (self : MCTSRunner W) root n maxc (s s' : St W) l :
  run self root n maxc s = (s', Ok l) -> score_sorted (st_heap s') l.
Proof.
  unfold run, bind, new_node. simpl.
  destruct (loop self (Z.to_nat n) _ [] maxc _) as [s2 [cands|e]]; [|discriminate].
  destruct (sort_candidates cands s2) as [s3 [sorted|e]] eqn:Es; [|discriminate].
  unfold ret. intros H. injection H as <- <-.
  apply sort_candidates_spec in Es as (-> & Hs & _).
  apply score_sorted_slice. exact Hs.
Qed.

End SortFacts.

(** *** Revisiting a finished leaf *)

Section RevisitFacts.
Context {W : Type}.
Variable self : MCTSRunner W.

Lemma score_or_zero_id r : score_or_zero r = r.
Proof. unfold score_or_zero. destruct (Req_dec_T r 0); congruence. Qed.

Lemma st_eta (s : St W) : mkSt (st_world s) (st_heap s) (st_tree s) = s.
Proof. destruct s; reflexivity. Qed.

Lemma heap_eta (h : Heap) :
  mkHeap (h_tables h) (h_dicts h) (h_lists h) (h_paths h) (h_ctxs h) = h.
Proof. destruct h; reflexivity. Qed.

Lemma select_finished_leaf (s : St W) root child p (c : R) :
  exploration_c self = Fin c ->
  finished_leaf s root child p ->
  _select (exploration_c self) (st_heap s) (st_tree s) root = Ok child.
Proof.
  intros Hfin (rn & rc & k & cn & cc & pv & Hr & Hch & Hrc & Hnd & Hc & Hcch & Hcc & _).
  rewrite Hfin.
  unfold _select.
  assert (Hlt : (1 < length (st_tree s))%nat).
  { pose proof (lookup_lt_Some _ _ _ Hr). pose proof (lookup_lt_Some _ _ _ Hc).
    destruct (decide (root = child)) as [->|Hne]; [|lia].
    rewrite Hr in Hc. injection Hc as <-. rewrite Hch in Hcch. discriminate. }
  destruct (length (st_tree s)) as [|[|m]]; [lia | lia |].
  assert (Hstep1 : select_step (Fin c) (st_heap s) (st_tree s) root
                   = Ok (Some child)).
  { unfold select_step. rewrite Hr, Hrc, Hch, Hnd. simpl.
    unfold child_score. rewrite Hc.
    rewrite ucb_score_fin_above.
    simpl. destruct (decide (k = k)); [reflexivity | congruence]. }
  assert (Hstep2 : select_step (Fin c) (st_heap s) (st_tree s) child
                   = Ok None).
  { apply (select_step_stay _ _ _ _ cn cc Hc Hcc). left. exact Hcch. }
  simpl. rewrite Hstep1. rewrite Hstep2. reflexivity.
Qed.

(** An iteration that lands on a finished leaf re-collects the leaf's
    path while the quota has room, and changes nothing else. *)
Lemma iteration_finished_leaf (s : St W) root child p cands maxc (c : R) :
  exploration_c self = Fin c ->
  finished_leaf s root child p ->
  iteration self root cands maxc s =
  (s, Ok (if maxc <=? Z.of_nat (length cands) then cands else cands ++ [p], false)).
Proof.
  intros Hfin Hinv. pose proof (select_finished_leaf s root child p c Hfin Hinv) as Hsel.
  destruct Hinv as (rn & rc & k & cn & cc & pv & Hr & Hch & Hrc & Hnd & Hc & Hcch
                    & Hcc & Hdone & Hp & Hpv & Hans).
  unfold iteration, bind, select, get_node, in_heap, get_ctx, of_option, ret.
  rewrite Hsel. simpl. rewrite Hc. simpl. rewrite Hcc. simpl. rewrite Hdone. simpl.
  rewrite st_eta. unfold _maybe_collect, bind, get_node, of_option, ret, in_heap. rewrite Hc.
  simpl. unfold _maybe_collect_ctx.
  destruct (maxc <=? Z.of_nat (length cands)) eqn:Eq.
  - unfold ret. rewrite st_eta. reflexivity.
  - unfold bind, get_ctx, get_path, update_path, of_option, get_path, modify, ret.
    rewrite Hcc. simpl. rewrite Hp, Hpv. simpl. rewrite Hdone. simpl.
    unfold bind, of_option, ret. simpl. rewrite Hpv. simpl.
    rewrite list_lookup_insert_eq by (eapply lookup_lt_Some; exact Hpv).
    simpl. unfold with_paths. simpl.
    rewrite list_insert_insert_eq, score_or_zero_id, <- Hans.
    assert (Hid : ReasoningPath.set_final_answer (ReasoningPath.final_answer pv)
                    (ReasoningPath.set_total_score (ReasoningPath.total_score pv) pv)
                  = pv) by (destruct pv; reflexivity).
    rewrite Hid, (list_insert_id _ _ _ Hpv).
    rewrite heap_eta, st_eta. reflexivity.
Qed.

Lemma loop_finished_leaf (s : St W) root child p maxc (c : R) :
  exploration_c self = Fin c ->
  finished_leaf s root child p ->
  forall n cands,
    loop self n root cands maxc s =
    (s, Ok (cands ++ replicate
              (Nat.min n (Z.to_nat (maxc - Z.of_nat (length cands)))) p)).
Proof.
  intros Hfin Hinv. induction n as [|n IH]; intros cands.
  - simpl. unfold ret. rewrite app_nil_r. reflexivity.
  - simpl. unfold bind. rewrite (iteration_finished_leaf s root child p cands maxc c Hfin Hinv).
    rewrite IH.
    destruct (maxc <=? Z.of_nat (length cands)) eqn:Eq.
    + apply Z.leb_le in Eq.
      replace (Z.to_nat (maxc - Z.of_nat (length cands))) with 0%nat by lia.
      rewrite !Nat.min_0_r. reflexivity.
    + apply Z.leb_gt in Eq. rewrite length_app. simpl.
      replace (Z.to_nat (maxc - Z.of_nat (length cands)))
        with (S (Z.to_nat (maxc - Z.of_nat (length cands + 1)%nat))) by lia.
      simpl. rewrite <- app_assoc. reflexivity.
Qed.

End RevisitFacts.

(** *** The end-to-end run with [Finish] *)

Section FinishFacts.
Context {W : Type}.

Ltac run_cbv :=
  cbv -[SearchHeuristics.should_expand nonempty_extra union default
        Rplus Rminus Rmult Rdiv Ropp Rinv IZR sqrt ln Rle_dec Rlt_dec Req_dec_T
        Rgeb Rgtb score_or_zero EvalResult.score EvalResult.extra Z.lt Z.le].

(** The first iteration expands the root with [Finish]: the child state
    is done, its path is terminal and carries the literal, and the path
    is collected. *)
Lemma finish_first_iteration ext lit (ev : W -> Heap -> loc -> W * EvalResult.t)
  heur c tbl q mem (w : W) :
  0 < SearchHeuristics.max_depth heur ->
  exists s1 pv,
    iteration (finish_runner ext lit ev heur c) 0%nat [] 3
      (mkSt w (root_heap tbl q mem) [MCTSNode.new 0%nat None None])
    = (s1, Ok ([1%nat], false)) /\
    finished_leaf s1 0%nat 1%nat 1%nat /\
    h_paths (st_heap s1) !! 1%nat = Some pv /\
    ReasoningPath.terminal pv = true /\ ReasoningPath.final_answer pv = lit /\
    length (st_tree s1) = 2%nat.
Proof.
  intros Hd.
  assert (Hstop : SearchHeuristics.should_stop heur 0 = false).
  { unfold SearchHeuristics.should_stop. apply Z.leb_gt. exact Hd. }
  unfold iteration, bind at 1.
  cbn -[SearchHeuristics.should_stop SearchHeuristics.should_expand].
  rewrite Hstop.
  cbn -[SearchHeuristics.should_stop SearchHeuristics.should_expand].
  run_cbv.
  match goal with |- context [ev ?a ?b ?c] => destruct (ev a b c) as [w1 er] end.
  run_cbv.
  destruct (SearchHeuristics.should_expand heur (EvalResult.score er));
    run_cbv;
    destruct (nonempty_extra (EvalResult.extra er));
    run_cbv;
    (eexists; eexists; split; [reflexivity|];
     split; [repeat eexists | repeat split]).
Qed.

Lemma sort_desc_replicate n (x : R * loc) :
  sort_desc (replicate n x) = replicate n x.
Proof.
  induction n as [|n IH]; simpl; [reflexivity|]. rewrite IH.
  destruct n as [|n]; simpl; [reflexivity|].
  rewrite (proj2 (Rgtb_false (fst x) (fst x))) by lra. reflexivity.
Qed.

Lemma with_scores_replicate h p pv n :
  h_paths h !! p = Some pv ->
  with_scores h (replicate n p) = Ok (replicate n (ReasoningPath.total_score pv, p)).
Proof.
  intros Hp. induction n as [|n IH]; simpl; [reflexivity|].
  rewrite Hp, IH. reflexivity.
Qed.

(** The whole run: three entries, all of them the path object of the
    one terminal child. *)
Lemma finish_run ext lit (ev : W -> Heap -> loc -> W * EvalResult.t)
  heur c tbl q mem (w : W) :
  0 < SearchHeuristics.max_depth heur ->
  exists s' p pv,
    run (finish_runner ext lit ev heur c) 0%nat 10 3 (start w tbl q mem)
    = (s', Ok [p; p; p]) /\
    h_paths (st_heap s') !! p = Some pv /\
    ReasoningPath.terminal pv = true /\ ReasoningPath.final_answer pv = lit /\
    length (st_tree s') = 2%nat.
Proof.
  intros Hd.
  destruct (finish_first_iteration ext lit ev heur c tbl q mem w Hd)
    as (s1 & pv & Hit & Hleaf & Hpv & Hterm & Hans & Hlen).
  exists s1, 1%nat, pv.
  split; [|auto].
  unfold run, start, bind at 1, new_node. cbn [st_world st_heap st_tree length app].
  change (Z.to_nat 10) with 10%nat.
  change (loop ?self 10 ?root ?cands ?maxc)
    with (r <- iteration self root cands maxc ;;
          let '(cands', stop) := r in
          if stop then ret cands' else loop self 9 root cands' maxc).
  unfold bind. rewrite Hit.
  rewrite (loop_finished_leaf (finish_runner ext lit ev heur c) s1 0%nat 1%nat 1%nat 3 c
             eq_refl Hleaf 9 [1%nat]).
  match goal with
  | |- context [?a ++ replicate ?n ?x] =>
      change (a ++ replicate n x) with (replicate 3 1%nat)
  end.
  unfold sort_candidates.
  rewrite (with_scores_replicate _ _ pv 3 Hpv), sort_desc_replicate.
  reflexivity.
Qed.

(** A run whose one expansion fails to execute: the child is attached,
    nothing is terminal, and the run returns the empty list. *)
Lemma stuck_run (ev : W -> Heap -> loc -> W * EvalResult.t) heur tbl q mem (w : W) :
  0 < SearchHeuristics.max_depth heur ->
  (forall w h c, SearchHeuristics.should_expand heur
                   (EvalResult.score (snd (ev w h c))) = true) ->
  snd (run (stuck_runner ev heur) 0%nat 1 8 (start w tbl q mem)) = Ok [].
Proof.
  intros Hd Hexp.
  assert (Hstop : SearchHeuristics.should_stop heur 0 = false).
  { unfold SearchHeuristics.should_stop. apply Z.leb_gt. exact Hd. }
  unfold run, start, bind at 1, new_node. cbn [st_world st_heap st_tree length app].
  change (Z.to_nat 1) with 1%nat.
  change (loop ?self 1 ?root ?cands ?maxc)
    with (r <- iteration self root cands maxc ;;
          let '(cands', stop) := r in
          if stop then ret cands' else ret cands').
  unfold iteration, bind at 1 2 3.
  cbn -[SearchHeuristics.should_stop SearchHeuristics.should_expand].
  rewrite Hstop.
  cbn -[SearchHeuristics.should_stop SearchHeuristics.should_expand].
  run_cbv.
  match goal with
  | |- context [ev ?a ?b ?c] =>
      pose proof (Hexp a b c) as Hyes; destruct (ev a b c) as [w1 er]
  end.
  simpl in Hyes. run_cbv. rewrite Hyes. reflexivity.
Qed.

End FinishFacts.

Section FinishClaims.

Lemma default_depth : 0 < SearchHeuristics.max_depth SearchHeuristics.default.
Proof. reflexivity. Qed.

(** C4 (as stated) fails: the run of the end-to-end set-up does not
    return exactly one candidate. *)
Lemma finish_run_counterexample :
  ~ (exists s' p,
       run finish_example_runner 0%nat 10 3 (start tt table_3x2 "total cost?" ∅)
       = (s', Ok [p])).
Proof.
  intros (s' & p & Hrun).
  destruct (finish_run example_externals (VStr "42")
              (fun (w : unit) _ _ => (w, EvalResult.mk 0.5%R "" None))
              SearchHeuristics.default 1.4%R table_3x2 "total cost?" ∅ tt
              default_depth) as (s1 & p1 & pv & Hrun1 & _).
  unfold finish_example_runner in Hrun. rewrite Hrun1 in Hrun.
  injection Hrun as _ Hl. discriminate.
Qed.

(** C4 (amended).  On any table, question and memory, with a planner
    that always proposes [Finish] with a fixed literal, any evaluator
    that returns, a depth limit above zero, budget 10 and cap 3: the run
    returns three entries, all of them the one path object of the
    terminal child, whose path is terminal and carries the literal; the
    tree has two nodes.  The root expands once; iterations 2 and 3
    re-select the terminal leaf and append its path again; after that the
    quota is full. *)
Theorem finish_run_spec {W} ext lit (ev : W -> Heap -> loc -> W * EvalResult.t)
  heur c tbl q mem (w : W) :
  0 < SearchHeuristics.max_depth heur ->
  exists s' p pv,
    run (finish_runner ext lit ev heur c) 0%nat 10 3 (start w tbl q mem)
    = (s', Ok [p; p; p]) /\
    h_paths (st_heap s') !! p = Some pv /\
    ReasoningPath.terminal pv = true /\ ReasoningPath.final_answer pv = lit /\
    length (st_tree s') = 2%nat.
Proof. apply finish_run. Qed.

Lemma finish_run_spec_witness :
  exists s' p,
    run finish_example_runner 0%nat 10 3 (start tt table_3x2 "total cost?" ∅)
    = (s', Ok [p; p; p]).
Proof.
  destruct (finish_run_spec example_externals (VStr "42")
              (fun (w : unit) _ _ => (w, EvalResult.mk 0.5%R "" None))
              SearchHeuristics.default 1.4%R table_3x2 "total cost?" ∅ tt)
    as (s' & p & pv & Hrun & _).
  - reflexivity.
  - exists s', p. exact Hrun.
Defined.

Lemma should_expand_half :
  SearchHeuristics.should_expand SearchHeuristics.default 0.5%R = true.
Proof.
  unfold SearchHeuristics.should_expand, Rgeb. simpl.
  destruct (Rle_dec (-1e9) 0.5) as [H|H]; [reflexivity|]. exfalso. apply H. lra.
Qed.

(** C5 (as stated) fails: a run whose budget ends before any state is
    terminal returns the empty list and does not raise. *)
Lemma run_empty_counterexample :
  ~ (forall (self : MCTSRunner unit) root num_iters max_candidates s l,
       snd (run self root num_iters max_candidates s) = Ok l -> l <> []).
Proof.
  intros Hclaim.
  apply (Hclaim stuck_example_runner 0%nat 1 8
           (start tt table_3x2 "total cost?" ∅) []); [|reflexivity].
  apply (stuck_run (fun (w : unit) _ _ => (w, EvalResult.mk 0.5%R "" None))
           SearchHeuristics.default table_3x2 "total cost?" ∅ tt default_depth).
  intros w h c. exact should_expand_half.
Qed.

(** C5 (amended).  [run] itself never raises for an empty result: it
    returns the candidates it has, sorted by score, and that list may be
    empty.  The check is in the caller: [run_pipeline] raises
    [RuntimeError] when the list is empty, so the search phase of the
    pipeline ends with a non-empty score-sorted list or with a raised
    error. *)
Theorem run_pipeline_phase1_spec {W} (self : MCTSRunner W) root num_iters
  max_candidates (s : St W) :
  match run self root num_iters max_candidates s with
  | (s', Ok []) =>
      run_pipeline_phase1 self root num_iters max_candidates s =
      (s', Raise (mkExn "RuntimeError"
                    "No candidate reasoning paths produced by MCTS."))
  | (s', Ok (p :: l)) =>
      run_pipeline_phase1 self root num_iters max_candidates s = (s', Ok (p :: l)) /\
      score_sorted (st_heap s') (p :: l)
  | (s', Raise e) =>
      run_pipeline_phase1 self root num_iters max_candidates s = (s', Raise e)
  end.
Proof.
  unfold run_pipeline_phase1, bind.
  destruct (run self root num_iters max_candidates s) as [s' [[|p l]|e]] eqn:Hrun;
    try reflexivity.
  split; [reflexivity|]. exact (run_sorted self _ _ _ _ _ _ Hrun).
Qed.

End FinishClaims.

(** *** The dead-end branch *)

Section DeadEndFacts.
Context {W : Type}.
Variable self : MCTSRunner W.
Import MCTSNode.

Lemma insert_snoc {A} (l : list A) (x y : A) :
  <[length l := x]> (l ++ [y]) = l ++ [x].
Proof. induction l as [|a l IH]; simpl; [reflexivity|]. rewrite IH. reflexivity. Qed.

Lemma lookup_snoc {A} (l : list A) (x : A) : (l ++ [x]) !! length l = Some x.
Proof. induction l as [|a l IH]; simpl; [reflexivity | exact IH]. Qed.

(** Backpropagation only rewrites [N] and [Q]. *)
Lemma backprop_from_frame r : forall fuel (t : Tree) cur t',
  backprop_from fuel t cur r = Ok t' ->
  forall i : nat,
    children <$> (t' !! i) = children <$> (t !! i) /\
    ctx <$> (t' !! i) = ctx <$> (t !! i).
Proof.
  induction fuel as [|fuel IH]; intros t cur t' Hrun i.
  - destruct cur; simpl in Hrun; [discriminate|]. injection Hrun as <-. auto.
  - destruct cur as [l|]; simpl in Hrun; [|injection Hrun as <-; auto].
    destruct (t !! l) as [n|] eqn:Hl; [|discriminate].
    unfold visit in Hrun. destruct (N n + 1 =? 0); [discriminate|].
    destruct (IH _ _ _ Hrun i) as [H1 H2]. rewrite H1, H2.
    destruct (decide (l = i)) as [->|Hne].
    + rewrite list_lookup_insert_eq by (eapply lookup_lt_Some; exact Hl).
      rewrite Hl. auto.
    + rewrite list_lookup_insert_ne by exact Hne. auto.
Qed.

Lemma dead_end_run (s : St W) (node : nat) n c p mem st mt w' er cands maxc :
  wf_tree (st_heap s) (st_tree s) ->
  st_tree s !! node = Some n ->
  h_ctxs (st_heap s) !! ctx n = Some c ->
  h_paths (st_heap s) !! ReasoningContext.path c = Some p ->
  h_dicts (st_heap s) !! ReasoningContext.memory c = Some mem ->
  h_lists (st_heap s) !! ReasoningPath.steps p = Some st ->
  h_dicts (st_heap s) !! ReasoningPath.meta p = Some mt ->
  evaluator self (st_world s) (dead_heap (st_heap s) c p mem mt st)
    (length (h_ctxs (st_heap s))) = (w', Ok er) ->
  exists t' h',
    dead_end self node cands maxc s =
      (mkSt w' h' t',
       Ok (if maxc <=? Z.of_nat (length cands) then cands
           else cands ++ [length (h_paths (st_heap s))])) /\
    _backprop (st_tree s) node (EvalResult.score er) = Ok t' /\
    h_ctxs h' = h_ctxs (dead_heap (st_heap s) c p mem mt st) /\
    h_lists h' = h_lists (dead_heap (st_heap s) c p mem mt st) /\
    h_tables h' = h_tables (st_heap s) /\
    (forall i x, h_dicts (dead_heap (st_heap s) c p mem mt st) !! i = Some x ->
                 h_dicts h' !! i = Some x) /\
    (forall i x, h_paths (st_heap s) !! i = Some x -> h_paths h' !! i = Some x) /\
    exists dp dm,
      h_paths h' !! length (h_paths (st_heap s)) = Some dp /\
      ReasoningPath.terminal dp = true /\
      h_dicts h' !! ReasoningPath.meta dp = Some dm /\
      is_Some (dm !! "dead_end").
Proof.
  intros [Hwf Hctx] Hn Hc Hp Hmem Hst Hmt Hev.
  destruct s as [w h t]. simpl in *.
  destruct (backprop_ok t node (EvalResult.score er) Hwf
              (lookup_lt_Some _ _ _ Hn)) as (t' & Hbp & _).
  unfold dead_end. unfold bind at 1. unfold get_node, of_option, ret. simpl.
  rewrite Hn. unfold bind at 1. unfold in_heap at 1. simpl.
  rewrite (fork_eq h (ctx n) c p mem st mt Hc Hp Hmem Hst Hmt).
  unfold bind at 1. unfold in_heap at 1. simpl.
  unfold update_ctx, bind at 1, get_ctx, of_option, modify, ret. simpl.
  rewrite lookup_snoc. simpl. unfold with_ctxs, forked_heap. simpl.
  rewrite insert_snoc.
  unfold bind at 1. unfold in_heap at 1. simpl. rewrite lookup_snoc. simpl.
  unfold bind at 1. unfold in_heap at 1. simpl.
  unfold update_path, bind at 1, get_path, of_option, modify, ret. simpl.
  rewrite lookup_snoc. simpl. unfold with_paths. simpl. rewrite insert_snoc.
  unfold bind at 1. unfold in_heap at 1. simpl. rewrite lookup_snoc. simpl.
  unfold bind at 1. unfold in_heap at 1. simpl.
  unfold dict_setitem, update_dict, bind at 1, get_dict, of_option, modify, ret. simpl.
  replace (S (length (h_dicts h))) with (length (h_dicts h ++ [mem]))
    by (rewrite length_app; simpl; lia).
  rewrite lookup_snoc. simpl. unfold with_dicts. simpl. rewrite insert_snoc.
  unfold bind at 1. unfold evaluate at 1. simpl.
  unfold dead_heap in Hev. rewrite Hev. simpl.
  unfold bind at 1. unfold backprop at 1. simpl. rewrite Hbp.
  unfold in_heap. simpl. unfold _maybe_collect_ctx.
  exists t'.
  destruct (maxc <=? Z.of_nat (length cands)) eqn:Eq.
  { unfold ret. eexists. split; [reflexivity|]. simpl.
    do 5 (split; [auto|]). split.
    - intros i x Hi. apply lookup_app_l_Some. exact Hi.
    - eexists _, _. rewrite lookup_snoc. split; [reflexivity|]. simpl.
      replace (S (length (h_dicts h))) with (length (h_dicts h ++ [mem]))
        by (rewrite length_app; simpl; lia).
      rewrite lookup_snoc. do 2 (split; [reflexivity|]).
      rewrite lookup_insert_eq. eauto. }
  unfold bind at 1. unfold get_ctx, of_option, ret. simpl. rewrite lookup_snoc. simpl.
  unfold bind at 1. unfold get_path, of_option, ret. simpl. rewrite lookup_snoc. simpl.
  unfold update_path at 1. unfold bind at 1 2 3. unfold get_path, of_option, modify, ret.
  simpl. rewrite lookup_snoc. simpl. unfold with_paths. simpl. rewrite insert_snoc.
  destruct (nonempty_extra (EvalResult.extra er)).
  - unfold bind at 1. unfold get_dict, of_option, ret. simpl.
    replace (S (length (h_dicts h))) with (length (h_dicts h ++ [mem]))
      by (rewrite length_app; simpl; lia).
    rewrite lookup_snoc. simpl.
    unfold bind at 1. unfold new_dict. simpl.
    unfold update_path, bind, get_path, of_option, modify, ret. simpl.
    rewrite lookup_snoc. simpl. unfold with_paths. simpl.
    rewrite insert_snoc, lookup_snoc. simpl. rewrite insert_snoc.
    eexists. split; [reflexivity|]. simpl.
    do 4 (split; [reflexivity|]). split; [|split].
    + intros i x Hi. apply lookup_app_l_Some. exact Hi.
    + intros i x Hi. apply lookup_app_l_Some. exact Hi.
    + eexists _, _. rewrite lookup_snoc. split; [reflexivity|]. simpl.
      split; [reflexivity|]. rewrite lookup_snoc. split; [reflexivity|].
      apply lookup_union_is_Some. right. rewrite lookup_insert_eq. eauto.
  - unfold update_path, bind, get_path, of_option, modify, ret. simpl.
    rewrite lookup_snoc. simpl. unfold with_paths. simpl. rewrite insert_snoc.
    eexists. split; [reflexivity|]. simpl.
    do 4 (split; [reflexivity|]). split; [|split].
    + auto.
    + intros i x Hi. apply lookup_app_l_Some. exact Hi.
    + eexists _, _. rewrite lookup_snoc. split; [reflexivity|]. simpl.
      split; [reflexivity|].
      replace (S (length (h_dicts h))) with (length (h_dicts h ++ [mem]))
        by (rewrite length_app; simpl; lia).
      rewrite lookup_snoc. split; [reflexivity|].
      rewrite lookup_insert_eq. eauto.
Qed.

Lemma at_root_wf (w : W) tbl q mem :
  wf_tree (st_heap (at_root w tbl q mem)) (st_tree (at_root w tbl q mem)).
Proof.
  split.
  - intros l m Hl. destruct l as [|l]; [|discriminate]. injection Hl as <-.
    simpl. split; [intros; discriminate|]. split; [intros ? ? []|].
    split; [apply NoDup_nil; exact I | lia].
  - intros l m Hl. destruct l as [|l]; [|discriminate]. injection Hl as <-.
    simpl. eauto.
Qed.

End DeadEndFacts.

(** C9.  When selection ends at a node whose state is neither done nor
    at the depth limit and the planner returns the empty list for it, the
    iteration forks the node's state, marks the fork done, its path
    terminal and its metadata with the key ["dead_end"], evaluates the
    fork and backpropagates the score from the selected node itself.  The
    tree keeps its length, every node keeps its children and its state,
    and no node refers to the fork; the state of the selected node is as
    it was.  The candidate list is unchanged when the quota is full and
    otherwise grows by exactly the fork's path, which is terminal and
    whose metadata holds the key ["dead_end"].  The loop is not left. *)
Theorem dead_end_spec {W} (self : MCTSRunner W) (s : St W) (root node : nat)
  n c p mem st mt w1 w2 er cands maxc :
  wf_tree (st_heap s) (st_tree s) ->
  _select (exploration_c self) (st_heap s) (st_tree s) root = Ok node ->
  st_tree s !! node = Some n ->
  h_ctxs (st_heap s) !! MCTSNode.ctx n = Some c ->
  h_paths (st_heap s) !! ReasoningContext.path c = Some p ->
  h_dicts (st_heap s) !! ReasoningContext.memory c = Some mem ->
  h_lists (st_heap s) !! ReasoningPath.steps p = Some st ->
  h_dicts (st_heap s) !! ReasoningPath.meta p = Some mt ->
  ReasoningContext.done c = false ->
  SearchHeuristics.should_stop (heuristics self) (ReasoningContext.depth c) = false ->
  planner self (st_world s) (st_heap s) (MCTSNode.ctx n) = (w1, Ok []) ->
  evaluator self w1 (dead_heap (st_heap s) c p mem mt st)
    (length (h_ctxs (st_heap s))) = (w2, Ok er) ->
  let dead := length (h_ctxs (st_heap s)) in
  let dpath := length (h_paths (st_heap s)) in
  exists s',
    iteration self root cands maxc s =
      (s', Ok (if maxc <=? Z.of_nat (length cands) then cands
               else cands ++ [dpath], false)) /\
    _backprop (st_tree s) node (EvalResult.score er) = Ok (st_tree s') /\
    length (st_tree s') = length (st_tree s) /\
    (forall i : nat,
       MCTSNode.children <$> (st_tree s' !! i)
       = MCTSNode.children <$> (st_tree s !! i)) /\
    (forall (i : nat) m, st_tree s' !! i = Some m -> MCTSNode.ctx m <> dead) /\
    h_ctxs (st_heap s') !! MCTSNode.ctx n = Some c /\
    exists dc dp dm,
      h_ctxs (st_heap s') !! dead = Some dc /\
      ReasoningContext.done dc = true /\
      ReasoningContext.path dc = dpath /\
      h_paths (st_heap s') !! dpath = Some dp /\
      ReasoningPath.terminal dp = true /\
      h_dicts (st_heap s') !! ReasoningPath.meta dp = Some dm /\
      is_Some (dm !! "dead_end").
Proof.
  intros Hwf Hsel Hn Hc Hp Hmem Hst Hmt Hdone Hstop Hplan Hev dead dpath.
  destruct (dead_end_run self (mkSt w1 (st_heap s) (st_tree s)) node n c p mem st mt
              w2 er cands maxc Hwf Hn Hc Hp Hmem Hst Hmt Hev)
    as (t' & h' & Hrun & Hbp & Hctxs & Hlists & Htables & Hdicts & Hpaths
        & dp & dm & Hdp & Hterm & Hdm & Hflag).
  simpl in Hbp, Hctxs, Hdicts, Hpaths, Hdp.
  exists (mkSt w2 h' t'). split; [|split; [exact Hbp|]]; simpl.
  - unfold iteration, bind at 1, select. rewrite Hsel.
    unfold bind at 1, get_node, of_option, ret. rewrite Hn.
    unfold bind at 1, in_heap, get_ctx, of_option, ret. rewrite Hc.
    rewrite Hdone, Hstop. simpl.
    unfold bind at 1, propose. simpl. rewrite Hplan.
    unfold bind at 1. simpl in Hrun. rewrite Hrun. reflexivity.
  - destruct Hwf as [Hshape Hin].
    destruct (backprop_ok (st_tree s) node (EvalResult.score er) Hshape
                (lookup_lt_Some _ _ _ Hn)) as (t2 & Hbp2 & Hlen & _).
    rewrite Hbp in Hbp2. injection Hbp2 as <-.
    split; [exact Hlen|]. split; [|split; [|split]].
    + intros i. apply (backprop_from_frame _ _ _ _ _ Hbp i).
    + intros i m Hi Hdead.
      destruct (backprop_from_frame _ _ _ _ _ Hbp i) as [_ Hctx].
      rewrite Hi in Hctx. simpl in Hctx.
      destruct (st_tree s !! i) as [m0|] eqn:Hm0; [|discriminate].
      simpl in Hctx. injection Hctx as Hctx.
      destruct (Hin i m0 Hm0) as [x Hx]. apply lookup_lt_Some in Hx.
      unfold dead in Hdead. lia.
    + rewrite Hctxs. apply lookup_app_l_Some. exact Hc.
    + exists (ReasoningContext.set_done true (forked_ctx (st_heap s) c)), dp, dm.
      rewrite Hctxs. unfold dead. rewrite lookup_snoc. auto 10.
Qed.

Lemma dead_end_spec_witness :
  exists s',
    iteration dead_end_runner 0%nat [] 8 (at_root 0%nat table_3x2 "total cost?" ∅)
    = (s', Ok ([1%nat], false)) /\
    length (st_tree s') = 1%nat.
Proof.
  destruct (dead_end_spec dead_end_runner (at_root 0%nat table_3x2 "total cost?" ∅)
              0%nat 0%nat (MCTSNode.new 0%nat None None)
              (ReasoningContext.mk 0%nat 0%nat "total cost?" 0%nat 0%nat false VNone 0)
              (ReasoningPath.mk 0%nat VNone false 0%R 1%nat)
              ∅ [] ∅ 1%nat 1%nat (EvalResult.mk 0.5%R "" None) [] 8)
    as (s' & Hrun & _ & Hlen & _); try reflexivity.
  - apply at_root_wf.
  - exists s'. split; [exact Hrun | exact Hlen].
Defined.

(** *** Expansion when every proposal has been tried *)

Section ExpandFacts.
Context {W : Type}.
Variable self : MCTSRunner W.
Import MCTSNode.



Lemma keeps_tree_ret {A} (a : A) : keeps_tree (W:=W) (ret a).
Proof. intros s s' r H. injection H as <- _. reflexivity. Qed.

Lemma keeps_tree_bind {A B} (m : M (St W) A) (k : A -> M (St W) B) :
  keeps_tree m -> (forall a, keeps_tree (W:=W) (k a)) -> keeps_tree (W:=W) (bind m k).
Proof.
  intros Hm Hk s s' r H. unfold bind in H.
  destruct (m s) as [s1 [a|e]] eqn:E.
  - rewrite (Hk a s1 s' r H). exact (Hm s s1 _ E).
  - injection H as <- _. exact (Hm s s1 _ E).
Qed.

Lemma keeps_tree_in_heap {A} (m : M Heap A) : keeps_tree (W:=W) (in_heap m).
Proof.
  intros s s' r H. unfold in_heap in H.
  destruct (m (st_heap s)) as [h' r']. injection H as <- _. reflexivity.
Qed.

Lemma keeps_tree_run_executor ctx a : keeps_tree (W:=W) (run_executor self ctx a).
Proof.
  intros s s' r H. unfold run_executor in H.
  destruct (executor self (st_world s) (st_heap s) ctx a) as [[w' h'] r'].
  injection H as <- _. reflexivity.
Qed.

Lemma keeps_tree_evaluate ctx : keeps_tree (W:=W) (evaluate self ctx).
Proof.
  intros s s' r H. unfold evaluate in H.
  destruct (evaluator self (st_world s) (st_heap s) ctx) as [w' r'].
  injection H as <- _. reflexivity.
Qed.

Lemma simulate_tree node_ctx a_spec : keeps_tree (W:=W) (simulate self node_ctx a_spec).
Proof.
  unfold simulate.
  repeat first
    [ apply keeps_tree_in_heap
    | apply keeps_tree_run_executor
    | apply keeps_tree_evaluate
    | apply keeps_tree_ret
    | apply keeps_tree_bind; [|intros ?]
    | match goal with
      | |- keeps_tree (let '(_, _) := ?r in _) => destruct r
      | |- keeps_tree (if ?b then _ else _) => destruct b
      end ].
Qed.

Lemma attach_eq (s : St W) (node : nat) n k child_ctx :
  st_tree s !! node = Some n ->
  attach node k child_ctx s =
  (mkSt (st_world s) (st_heap s) (attached (st_tree s) node n k child_ctx),
   Ok (length (st_tree s))).
Proof.
  intros Hn. unfold attach, bind, new_node, set_child, bind, get_node, of_option,
    modify, ret. simpl.
  rewrite (lookup_app_l_Some _ _ _ _ Hn). reflexivity.
Qed.

Lemma In_od_set (d : list (nat * loc)) (k0 : nat) (v : loc) k x :
  NoDup (od_keys d) ->
  In (k, x) (od_set k0 v d) -> (k = k0 /\ x = v) \/ (k <> k0 /\ In (k, x) d).
Proof.
  intros Hnd Hin.
  apply (od_get_NoDup _ _ _ (od_set_NoDup k0 v d Hnd)) in Hin.
  rewrite od_get_set in Hin. destruct (decide (k = k0)) as [->|Hne].
  - left. split; congruence.
  - right. split; [exact Hne | apply od_get_In; exact Hin].
Qed.

(** An edge of the new tree that does not lead to the new child is an
    edge of the old tree, and not the replaced one. *)
Lemma attached_edge (t : Tree) (node : nat) n k0 child_ctx l k x :
  wf_shape t -> t !! node = Some n ->
  edge (attached t node n k0 child_ctx) l k x ->
  x <> length t ->
  edge t l k x /\ ~ (l = node /\ k = k0).
Proof.
  intros Hwf Hn (m & Hm & Hin) Hx. unfold attached in Hm.
  pose proof (lookup_lt_Some _ _ _ Hn) as Hlt.
  destruct (decide (l = node)) as [->|Hne].
  - rewrite list_lookup_insert_eq in Hm by (rewrite length_app; simpl; lia).
    injection Hm as <-. simpl in Hin.
    destruct (Hwf node n Hn) as (_ & _ & Hnd & _).
    destruct (In_od_set _ _ _ _ _ Hnd Hin) as [[-> ->]|[Hk Hin']]; [congruence|].
    split; [exists n; auto|]. intros [_ Hk0]. congruence.
  - rewrite list_lookup_insert_ne in Hm by congruence.
    destruct (decide (l < length t)%nat) as [Hl|Hl].
    + rewrite lookup_app_l in Hm by exact Hl.
      split; [exists m; auto|]. intros [Hl0 _]. congruence.
    + destruct (decide (l = length t)) as [->|Hl'].
      * rewrite (list_lookup_middle _ [] _ _ eq_refl) in Hm. injection Hm as <-. destruct Hin.
      * rewrite lookup_ge_None_2 in Hm; [discriminate|].
        rewrite length_app. simpl. lia.
Qed.

Lemma edge_lt (t : Tree) l k x : wf_shape t -> edge t l k x -> (x < length t)%nat.
Proof.
  intros Hwf (m & Hm & Hin).
  destruct (Hwf l m Hm) as (_ & Hch & _). apply (Hch k x Hin).
Qed.

Lemma reach_lt (t : Tree) a x :
  wf_shape t -> (a < length t)%nat -> reach t a x -> (x < length t)%nat.
Proof.
  intros Hwf Ha H. destruct H as [|l k x _ He]; [exact Ha|].
  exact (edge_lt t l k x Hwf He).
Qed.





End ExpandFacts.

(** *** Normal forms of header names *)

Section NormFacts.
Import TableOps.

Lemma is_space_lower_char c : is_space (lower_char c) = is_space c.
Proof. destruct c as [[] [] [] [] [] [] [] []]; reflexivity. Qed.

Lemma lower_char_idem c : lower_char (lower_char c) = lower_char c.
Proof. destruct c as [[] [] [] [] [] [] [] []]; reflexivity. Qed.

Lemma lower_idem s : lower (lower s) = lower s.
Proof.
  induction s as [|c s IH]; simpl; [reflexivity|].
  rewrite lower_char_idem, IH. reflexivity.
Qed.

Lemma lower_lstrip s : lstrip (lower s) = lower (lstrip s).
Proof.
  induction s as [|c s IH]; simpl; [reflexivity|].
  rewrite is_space_lower_char. destruct (is_space c); [exact IH | reflexivity].
Qed.

Lemma lower_rstrip s : rstrip (lower s) = lower (rstrip s).
Proof.
  induction s as [|c s IH]; simpl; [reflexivity|].
  rewrite IH, is_space_lower_char.
  destruct (rstrip s) as [|c' r]; simpl; [|reflexivity].
  destruct (is_space c); reflexivity.
Qed.

Lemma lower_collapse s : forall b,
  collapse_from b (lower s) = lower (collapse_from b s).
Proof.
  induction s as [|c s IH]; intros b; simpl; [reflexivity|].
  rewrite is_space_lower_char.
  destruct (is_space c); [destruct b|]; simpl; rewrite IH; reflexivity.
Qed.

Lemma collapse_idem s : forall b,
  collapse_from b (collapse_from b s) = collapse_from b s.
Proof.
  induction s as [|c s IH]; intros b; simpl; [reflexivity|].
  destruct (is_space c) eqn:Ec; [destruct b|]; simpl.
  - apply IH.
  - rewrite IH. reflexivity.
  - rewrite Ec. rewrite IH. reflexivity.
Qed.

Lemma collapse_clean_start s b :
  starts_clean s = true -> collapse_from b s = collapse_from false s.
Proof.
  destruct s as [|c s]; simpl; [reflexivity|].
  destruct (is_space c); [discriminate | reflexivity].
Qed.

Lemma collapse_starts_clean s :
  starts_clean s = true -> starts_clean (collapse_from false s) = true.
Proof.
  destruct s as [|c s]; simpl; [reflexivity|].
  destruct (is_space c) eqn:Ec; [discriminate|]. simpl. rewrite Ec. reflexivity.
Qed.

Lemma lstrip_starts_clean s : starts_clean (lstrip s) = true.
Proof.
  induction s as [|c s IH]; simpl; [reflexivity|].
  destruct (is_space c) eqn:Ec; [exact IH|]. simpl. rewrite Ec. reflexivity.
Qed.

Lemma lstrip_clean s : starts_clean s = true -> lstrip s = s.
Proof.
  destruct s as [|c s]; simpl; [reflexivity|].
  destruct (is_space c); [discriminate | reflexivity].
Qed.

Lemma rstrip_starts_clean s : starts_clean s = true -> starts_clean (rstrip s) = true.
Proof.
  destruct s as [|c s]; simpl; [reflexivity|]. intros Hc.
  destruct (rstrip s); [|exact Hc].
  destruct (is_space c) eqn:Ec; [reflexivity|]. simpl. rewrite Ec. reflexivity.
Qed.

Lemma rstrip_ends_clean s : ends_clean (rstrip s) = true.
Proof.
  induction s as [|c s IH]; simpl; [reflexivity|].
  destruct (rstrip s) as [|c' r] eqn:Er.
  - destruct (is_space c) eqn:Ec; simpl; [reflexivity | rewrite Ec; reflexivity].
  - exact IH.
Qed.

Lemma rstrip_clean s : ends_clean s = true -> rstrip s = s.
Proof.
  induction s as [|c s IH]; simpl; [reflexivity|].
  destruct s as [|c' s'].
  - simpl. destruct (is_space c); [discriminate | reflexivity].
  - intros Hc. rewrite (IH Hc). reflexivity.
Qed.

Lemma collapse_nonempty s b :
  s <> EmptyString -> ends_clean s = true -> collapse_from b s <> EmptyString.
Proof.
  revert b. induction s as [|c s IH]; intros b Hne Hc; [congruence|].
  simpl. destruct (is_space c) eqn:Ec; [|discriminate].
  destruct s as [|c' s']; [simpl in Hc; rewrite Ec in Hc; discriminate|].
  destruct b; [|discriminate].
  apply IH; [discriminate | exact Hc].
Qed.

Lemma ends_clean_cons c s :
  s <> EmptyString -> ends_clean (String c s) = ends_clean s.
Proof. destruct s; [congruence | reflexivity]. Qed.

Lemma collapse_ends_clean s : forall b,
  ends_clean s = true -> ends_clean (collapse_from b s) = true.
Proof.
  induction s as [|c s IH]; intros b Hc; [reflexivity|].
  destruct s as [|c' s'].
  - simpl in *. destruct (is_space c) eqn:Ec; [discriminate|].
    simpl. rewrite Ec. reflexivity.
  - assert (Hs : ends_clean (String c' s') = true) by exact Hc.
    assert (Hne : forall b', collapse_from b' (String c' s') <> EmptyString).
    { intros b'. apply collapse_nonempty; [discriminate | exact Hs]. }
    change (collapse_from b (String c (String c' s')))
      with (if is_space c
            then (if b then collapse_from true (String c' s')
                  else String " "%char (collapse_from true (String c' s')))
            else String c (collapse_from false (String c' s'))).
    destruct (is_space c); [destruct b|];
      try rewrite ends_clean_cons by apply Hne; apply IH; exact Hs.
Qed.

Lemma strip_fixed s :
  starts_clean s = true -> ends_clean s = true -> strip s = s.
Proof.
  intros H1 H2. unfold strip. rewrite (lstrip_clean s H1). apply rstrip_clean, H2.
Qed.

Lemma strip_clean s :
  starts_clean (strip s) = true /\ ends_clean (strip s) = true.
Proof.
  unfold strip. split.
  - apply rstrip_starts_clean, lstrip_starts_clean.
  - apply rstrip_ends_clean.
Qed.

Lemma collapse_strip_fixed s :
  strip (collapse_ws (strip s)) = collapse_ws (strip s).
Proof.
  destruct (strip_clean s) as [H1 H2]. unfold collapse_ws.
  apply strip_fixed.
  - apply collapse_starts_clean, H1.
  - apply collapse_ends_clean, H2.
Qed.

Lemma lower_strip s : strip (lower s) = lower (strip s).
Proof. unfold strip. rewrite lower_lstrip, lower_rstrip. reflexivity. Qed.

Lemma norm_idem s : _norm (_norm s) = _norm s.
Proof.
  unfold _norm. rewrite lower_strip, collapse_strip_fixed.
  unfold collapse_ws. rewrite lower_collapse, collapse_idem, lower_idem.
  reflexivity.
Qed.

End NormFacts.

(** X1.  Normalizing a header name twice gives the same as doing it
    once, so a column that a name resolves to is also found under the
    normalized name. *)
Theorem norm_idempotent (s : string) :
  _norm (_norm s) = _norm s /\
  forall t i, resolve_col t s = Ok i -> resolve_col t (_norm s) = Ok i.
Proof.
  split; [apply norm_idem|].
  intros t i. unfold resolve_col. rewrite norm_idem.
  destruct (od_get (_norm s) (header_index t)); [auto|].
  destruct (List.filter _ _); [discriminate|].
  destruct (sort_by_len _) as [|[k j] rest]; [discriminate | auto].
Qed.

(** *** Reading cells, columns and rows *)

Section TableOpsFacts.
Import TableOps.

Lemma sort_by_len_head_In l x : head (sort_by_len l) = Some x -> In x l.
Proof.
  intros Hh. destruct l as [|a l]; [discriminate|].
  destruct (sort_by_len_head (a :: l)) as (l1 & y & l2 & Hl & Hy & _); [discriminate|].
  rewrite Hy in Hh. injection Hh as <-. rewrite Hl. apply in_or_app. right. left.
  reflexivity.
Qed.

(** Whatever [resolve_col] returns is an entry of the header index. *)
Lemma resolve_col_entry t name i :
  resolve_col t name = Ok i ->
  exists k, In (k, i) (header_index t) /\
            (k = _norm name \/ related (_norm name) k = true).
Proof.
  unfold resolve_col. intros H.
  destruct (od_get (_norm name) (header_index t)) as [j|] eqn:Eg.
  - injection H as <-. exists (_norm name). split; [apply od_get_In, Eg | auto].
  - destruct (List.filter _ _) as [|a cands] eqn:Ef; [discriminate|].
    destruct (sort_by_len (a :: cands)) as [|[k j] rest] eqn:Es; [discriminate|].
    injection H as <-.
    assert (Hin : In (k, j) (a :: cands)).
    { apply sort_by_len_head_In. rewrite Es. reflexivity. }
    rewrite <- Ef in Hin. apply filter_In in Hin as [Hin Hrel].
    exists k. auto.
Qed.

Lemma map_res_length {A B} (f : A -> Res B) l : forall ys,
  map_res f l = Ok ys -> length ys = length l.
Proof.
  induction l as [|x l IH]; intros ys H; simpl in H.
  - injection H as <-. reflexivity.
  - destruct (f x); [|discriminate]. destruct (map_res f l); [|discriminate].
    injection H as <-. simpl. rewrite (IH _ eq_refl). reflexivity.
Qed.

Lemma map_res_lookup {A B} (f : A -> Res B) l : forall ys (i : nat) x,
  map_res f l = Ok ys -> l !! i = Some x ->
  exists y, ys !! i = Some y /\ f x = Ok y.
Proof.
  induction l as [|a l IH]; intros ys i x H Hi; [destruct i; discriminate|].
  simpl in H. destruct (f a) as [b|] eqn:Ea; [|discriminate].
  destruct (map_res f l) as [bs|]; [|discriminate]. injection H as <-.
  destruct i as [|i]; simpl in *.
  - injection Hi as <-. eauto.
  - apply (IH _ _ _ eq_refl Hi).
Qed.

Lemma map_res_raise {A B} (f : A -> Res B) l e :
  map_res f l = Raise e -> exists x, In x l /\ f x = Raise e.
Proof.
  induction l as [|a l IH]; intros H; simpl in H; [discriminate|].
  destruct (f a) as [b|e'] eqn:Ea.
  - destruct (map_res f l) as [bs|e'']; [discriminate|]. injection H as ->.
    destruct (IH eq_refl) as (x & Hx & Hfx). exists x. split; [right|]; assumption.
  - injection H as ->. exists a. split; [left; reflexivity | exact Ea].
Qed.

Lemma map_res_all_ok {A B} (f : A -> Res B) l :
  (forall x, In x l -> exists y, f x = Ok y) -> exists ys, map_res f l = Ok ys.
Proof.
  induction l as [|a l IH]; intros Hall; simpl; [eauto|].
  destruct (Hall a (or_introl eq_refl)) as [y ->].
  destruct IH as [ys ->]; [intros x Hx; apply Hall; right; exact Hx|]. eauto.
Qed.

Lemma py_index_in_range {A} (l : list A) (i : Z) :
  - Z.of_nat (length l) <= i < Z.of_nat (length l) ->
  exists x, py_index l i = Ok x /\
            l !! Z.to_nat (i mod Z.of_nat (length l)) = Some x.
Proof.
  intros Hr. unfold py_index.
  set (n := Z.of_nat (length l)) in *.
  assert (Hj : (if i <? 0 then i + n else i) = i mod n).
  { destruct (i <? 0) eqn:E.
    - apply Z.ltb_lt in E. apply Z.mod_unique with (q := -1); lia.
    - apply Z.ltb_ge in E. symmetry. apply Z.mod_small. lia. }
  rewrite Hj.
  assert (Hm : 0 <= i mod n < n) by (apply Z.mod_pos_bound; lia).
  replace (0 <=? i mod n) with true by (symmetry; apply Z.leb_le; lia).
  replace (i mod n <? n) with true by (symmetry; apply Z.ltb_lt; lia).
  simpl.
  destruct (lookup_lt_is_Some_2 l (Z.to_nat (i mod n))) as [x Hx]; [unfold n in *; lia|].
  rewrite Hx. eauto.
Qed.

Lemma py_index_out_of_range {A} (l : list A) (i : Z) :
  ~ (- Z.of_nat (length l) <= i < Z.of_nat (length l)) ->
  py_index l i = Raise IndexError.
Proof.
  intros Hr. unfold py_index.
  destruct (i <? 0) eqn:E.
  - apply Z.ltb_lt in E.
    replace (0 <=? i + Z.of_nat (length l)) with false
      by (symmetry; apply Z.leb_gt; lia). reflexivity.
  - apply Z.ltb_ge in E.
    replace (i <? Z.of_nat (length l)) with false
      by (symmetry; apply Z.ltb_ge; lia).
    rewrite andb_false_r. reflexivity.
Qed.

Lemma py_index_nat {A} (l : list A) (i : nat) x :
  l !! i = Some x -> py_index l (Z.of_nat i) = Ok x.
Proof.
  intros Hi. pose proof (lookup_lt_Some _ _ _ Hi) as Hlt. unfold py_index.
  replace (Z.of_nat i <? 0) with false by (symmetry; apply Z.ltb_ge; lia).
  replace (0 <=? Z.of_nat i) with true by (symmetry; apply Z.leb_le; lia).
  replace (Z.of_nat i <? Z.of_nat (length l)) with true
    by (symmetry; apply Z.ltb_lt; lia).
  simpl. rewrite Nat2Z.id, Hi. reflexivity.
Qed.

End TableOpsFacts.

(** X2.  A column index returned by [resolve_col] on a constructed
    table is a valid position of the header list, and the header there
    either has the normalized name asked for or is related to it by
    containment. *)
Theorem resolve_col_in_range (hs : list string) (rs : list (list string))
  (name : string) (i : nat) :
  resolve_col (Table.new hs rs) name = Ok i ->
  (i < length hs)%nat /\
  exists h, hs !! i = Some h /\
            (_norm h = _norm name \/ related (_norm name) (_norm h) = true).
Proof.
  intros H. destruct (resolve_col_entry _ _ _ H) as (k & Hin & Hk).
  simpl in Hin. apply index_entry_last in Hin as [(h & Hh & Hnorm) _].
  split; [eapply lookup_lt_Some; exact Hh|].
  exists h. split; [exact Hh|]. rewrite Hnorm. exact Hk.
Qed.

Lemma resolve_col_in_range_witness :
  (1 < length ["Year"; "Unit Cost"]%string)%nat /\
  exists h, ["Year"; "Unit Cost"]%string !! 1%nat = Some h /\
            (_norm h = _norm "cost" \/ related (_norm "cost") (_norm h) = true).
Proof.
  apply (resolve_col_in_range ["Year"; "Unit Cost"]%string [] "cost" 1%nat).
  reflexivity.
Defined.

(** X3.  [col] returns one cell per row, and its entry for row [r] is
    what [get_cell] returns for that row; rows too short for the column
    give the empty string.  [col] raises exactly when the name does not
    resolve. *)
Theorem col_get_cell (t : TableContext) (name : string) :
  (forall cells, TableOps.col t name = Ok cells ->
     length cells = length (rows t) /\
     forall r : nat, (r < length (rows t))%nat ->
       exists c, cells !! r = Some c /\
                 TableOps.get_cell t (Z.of_nat r) name = Ok c) /\
  (forall e, TableOps.col t name = Raise e <-> resolve_col t name = Raise e).
Proof.
  unfold TableOps.col, TableOps.get_cell.
  destruct (resolve_col t name) as [idx|e0]; split.
  - intros cells H. injection H as <-. rewrite length_map. split; [reflexivity|].
    intros r Hr. destruct (lookup_lt_is_Some_2 _ _ Hr) as [x Hx].
    exists (TableOps.cell_at x idx). rewrite list_lookup_fmap, Hx.
    rewrite (py_index_nat _ _ _ Hx). auto.
  - intros e. split; discriminate.
  - discriminate.
  - intros e. split; intros H; injection H as ->; reflexivity.
Qed.

(** X4.  Row access follows Python indexing: an index from [-n] to
    [n - 1] denotes row [i mod n], so [-1] is the last row; any other
    index raises [IndexError].  [get_cell] resolves the column first, so
    an unknown column is reported even when the row index is out of
    range. *)
Theorem row_index_spec (t : TableContext) (i : Z) :
  let n := TableOps.n_rows t in
  (- n <= i < n ->
     exists r, TableOps.row t i = Ok r /\
               rows t !! Z.to_nat (i mod n) = Some r /\
               forall name idx, resolve_col t name = Ok idx ->
                 TableOps.get_cell t i name = Ok (TableOps.cell_at r idx)) /\
  (~ (- n <= i < n) ->
     TableOps.row t i = Raise IndexError /\
     forall name idx, resolve_col t name = Ok idx ->
       TableOps.get_cell t i name = Raise IndexError) /\
  (forall name e, resolve_col t name = Raise e ->
     TableOps.get_cell t i name = Raise e).
Proof.
  unfold TableOps.n_rows, TableOps.row, TableOps.get_cell. simpl.
  split; [|split].
  - intros Hr. destruct (py_index_in_range (rows t) i Hr) as (r & Hrow & Hlook).
    exists r. split; [exact Hrow|]. split; [exact Hlook|].
    intros name idx ->. rewrite Hrow. reflexivity.
  - intros Hr. rewrite (py_index_out_of_range (rows t) i Hr).
    split; [reflexivity|]. intros name idx ->. reflexivity.
  - intros name e ->. reflexivity.
Qed.

(** *** Projections and filters of a table *)

Section SelectFacts.
Import TableOps.

Lemma header_at_ok hs rs i h :
  hs !! i = Some h -> header_at (Table.new hs rs) i = Ok h.
Proof. intros H. unfold header_at. simpl. rewrite H. reflexivity. Qed.

(** With distinct normalized headers every header resolves to its own
    position. *)
Lemma resolve_col_own hs rs (i : nat) h :
  NoDup (map _norm hs) -> hs !! i = Some h ->
  resolve_col (Table.new hs rs) h = Ok i.
Proof.
  intros Hnd Hi. unfold resolve_col. simpl.
  destruct (index_from_get (_norm h) hs 0 []) as [(j & Hlast & Hget)|[Habs _]].
  - rewrite Hget. simpl. f_equal.
    destruct Hlast as [(h' & Hj & Hn) _].
    apply (NoDup_lookup (map _norm hs) j i (_norm h) Hnd).
    + rewrite list_lookup_fmap, Hj. simpl. congruence.
    + rewrite list_lookup_fmap, Hi. reflexivity.
  - exfalso. exact (Habs i h Hi eq_refl).
Qed.

Lemma map_res_own hs rs :
  NoDup (map _norm hs) ->
  forall l (k : nat), (forall (i : nat) h, l !! i = Some h -> hs !! (k + i)%nat = Some h) ->
  map_res (resolve_col (Table.new hs rs)) l = Ok (seq k (length l)).
Proof.
  intros Hnd. induction l as [|h l IH]; intros k Hl; simpl; [reflexivity|].
  rewrite (resolve_col_own hs rs k h Hnd).
  - rewrite (IH (S k)); [reflexivity|].
    intros i h' Hi. replace (S k + i)%nat with (k + S i)%nat by lia.
    apply Hl. exact Hi.
  - replace k with (k + 0)%nat by lia. apply Hl. reflexivity.
Qed.

Lemma map_res_header_seq hs rs :
  forall l (k : nat), (forall (i : nat) h, l !! i = Some h -> hs !! (k + i)%nat = Some h) ->
  map_res (header_at (Table.new hs rs)) (seq k (length l)) = Ok l.
Proof.
  induction l as [|h l IH]; intros k Hl; simpl; [reflexivity|].
  rewrite (header_at_ok hs rs k h).
  - rewrite (IH (S k)); [reflexivity|].
    intros i h' Hi. replace (S k + i)%nat with (k + S i)%nat by lia.
    apply Hl. exact Hi.
  - replace k with (k + 0)%nat by lia. apply Hl. reflexivity.
Qed.

Lemma map_cell_seq (r : list string) :
  forall (l : list string) (k : nat),
    (forall (i : nat) c, l !! i = Some c -> r !! (k + i)%nat = Some c) ->
    map (cell_at r) (seq k (length l)) = l.
Proof.
  induction l as [|c l IH]; intros k Hl; simpl; [reflexivity|].
  assert (Hk : r !! k = Some c).
  { replace k with (k + 0)%nat by lia. apply Hl. reflexivity. }
  unfold cell_at at 1. rewrite Hk.
  f_equal. apply IH. intros i c' Hi.
  replace (S k + i)%nat with (k + S i)%nat by lia. apply Hl. exact Hi.
Qed.




End SelectFacts.

(** X5.  [select_cols] on a constructed table returns a rectangular
    table: one header per requested name (the header the name resolves
    to), the same number of rows, every row with exactly one cell per
    requested name (the cell of the resolved column, or the empty string
    where the source row is too short).  It raises only what
    [resolve_col] raises for one of the names, and succeeds whenever
    every name resolves. *)
Theorem select_cols_shape (hs : list string) (rs : list (list string))
  (names : list string) :
  let t := Table.new hs rs in
  (forall t', TableOps.select_cols t names = Ok t' ->
     length (headers t') = length names /\
     length (rows t') = length rs /\
     Forall (fun r => length r = length names) (rows t') /\
     forall (k : nat) name, names !! k = Some name ->
       exists idx h,
         resolve_col t name = Ok idx /\ hs !! idx = Some h /\
         headers t' !! k = Some h /\
         forall (r : nat) cells, rs !! r = Some cells ->
           exists cells', rows t' !! r = Some cells' /\
                          cells' !! k = Some (TableOps.cell_at cells idx)) /\
  (forall e, TableOps.select_cols t names = Raise e ->
     exists name, In name names /\ resolve_col t name = Raise e) /\
  ((forall name, In name names -> exists i, resolve_col t name = Ok i) ->
   exists t', TableOps.select_cols t names = Ok t').
Proof.
  intros t. unfold TableOps.select_cols.
  destruct (map_res (resolve_col t) names) as [idxs|e0] eqn:Eidx.
  - assert (Hhd : exists new_headers, map_res (TableOps.header_at t) idxs = Ok new_headers).
    { apply map_res_all_ok. intros i Hi.
      apply list_elem_of_In, list_elem_of_lookup in Hi as [k Hk].
      destruct (lookup_lt_is_Some_2 names k) as [name Hname].
      { rewrite <- (map_res_length _ _ _ Eidx). eapply lookup_lt_Some. exact Hk. }
      destruct (map_res_lookup _ _ _ _ _ Eidx Hname) as (i' & Hi' & Hres).
      rewrite Hk in Hi'. injection Hi' as <-.
      destruct (resolve_col_entry _ _ _ Hres) as (key & Hin & _).
      simpl in Hin. apply index_entry_last in Hin as [(h & Hh & _) _].
      exists h. apply header_at_ok. exact Hh. }
    destruct Hhd as [new_headers Ehd]. rewrite Ehd.
    split; [|split; [discriminate | eauto]].
    intros t' Ht'. injection Ht' as <-. simpl.
    rewrite (map_res_length _ _ _ Ehd), (map_res_length _ _ _ Eidx), length_map.
    split; [reflexivity|]. split; [reflexivity|]. split.
    + apply Forall_forall. intros r Hr. apply list_elem_of_In, in_map_iff in Hr as (r0 & <- & _).
      rewrite length_map. apply (map_res_length _ _ _ Eidx).
    + intros k name Hname.
      destruct (map_res_lookup _ _ _ _ _ Eidx Hname) as (idx & Hidx & Hres).
      destruct (map_res_lookup _ _ _ _ _ Ehd Hidx) as (h & Hh & Hat).
      unfold TableOps.header_at in Hat. simpl in Hat.
      destruct (hs !! idx) as [h0|] eqn:Eh; [|discriminate]. injection Hat as ->.
      exists idx, h. split; [exact Hres|]. split; [exact Eh|]. split; [exact Hh|].
      intros r cells Hr. exists (map (TableOps.cell_at cells) idxs).
      rewrite list_lookup_fmap, Hr. split; [reflexivity|].
      rewrite list_lookup_fmap, Hidx. reflexivity.
  - split; [discriminate|]. split.
    + intros e H. injection H as <-. apply map_res_raise. exact Eidx.
    + intros Hall. destruct (map_res_all_ok (resolve_col t) names Hall) as [ys Hys].
      rewrite Hys in Eidx. discriminate.
Qed.

(** X6.  On a rectangular table whose normalized headers are pairwise
    distinct, selecting all headers in order gives the table back. *)
Theorem select_cols_all (hs : list string) (rs : list (list string)) :
  NoDup (map _norm hs) ->
  Forall (fun r => length r = length hs) rs ->
  TableOps.select_cols (Table.new hs rs) hs = Ok (Table.new hs rs).
Proof.
  intros Hnd Hrect. unfold TableOps.select_cols.
  rewrite (map_res_own hs rs Hnd hs 0%nat) by (intros i h Hi; exact Hi).
  rewrite (map_res_header_seq hs rs hs 0%nat) by (intros i h Hi; exact Hi).
  simpl. f_equal. f_equal.
  induction Hrect as [|r rs' Hr _ IH]; simpl; [reflexivity|].
  rewrite IH. f_equal. rewrite <- Hr.
  apply map_cell_seq. intros i c Hi. exact Hi.
Qed.

Lemma select_cols_all_witness :
  TableOps.select_cols table_3x2 ["Item"; "Cost"]%string = Ok table_3x2.
Proof.
  apply (select_cols_all ["Item"; "Cost"]%string
           [["pen"; "2"]; ["ink"; "5"]; ["pad"; "3"]]%string).
  - apply (bool_decide_unpack _). vm_compute. exact I.
  - repeat constructor.
Defined.


(** *** Choosing the action to expand *)

Section PickFacts.
Import MCTSNode.

Lemma first_untried_spec ch : forall specs (i0 i : nat) spec,
  first_untried ch i0 specs = Some (i, spec) ->
  (i0 <= i)%nat /\ specs !! (i - i0)%nat = Some spec /\
  od_mem i ch = false /\
  forall j, (i0 <= j < i)%nat -> od_mem j ch = true.
Proof.
  induction specs as [|a specs IH]; intros i0 i spec H; simpl in H; [discriminate|].
  destruct (od_mem i0 ch) eqn:E.
  - destruct (IH _ _ _ H) as (Hle & Hlook & Hno & Hall).
    split; [lia|]. split.
    + replace (i - i0)%nat with (S (i - S i0)) by lia. exact Hlook.
    + split; [exact Hno|]. intros j Hj.
      destruct (decide (j = i0)) as [->|Hne]; [exact E | apply Hall; lia].
  - injection H as <- <-. split; [lia|]. rewrite Nat.sub_diag.
    split; [reflexivity|]. split; [exact E|]. intros j Hj. lia.
Qed.

Lemma first_untried_none ch : forall specs (i0 : nat),
  first_untried ch i0 specs = None ->
  forall j, (i0 <= j < i0 + length specs)%nat -> od_mem j ch = true.
Proof.
  induction specs as [|a specs IH]; intros i0 H j Hj; simpl in *; [lia|].
  destruct (od_mem i0 ch) eqn:E; [|discriminate].
  destruct (decide (j = i0)) as [->|Hne]; [exact E|].
  apply (IH (S i0) H). lia.
Qed.

(** Backpropagation rewrites nothing but [N] and [Q]. *)
Lemma backprop_from_shape r : forall fuel (t : Tree) cur t',
  backprop_from fuel t cur r = Ok t' ->
  length t' = length t /\
  forall i : nat,
    match t !! i, t' !! i with
    | Some n, Some n' =>
        ctx n' = ctx n /\ parent n' = parent n /\ children n' = children n /\
        prior n' = prior n /\ last_action_index n' = last_action_index n
    | None, None => True
    | _, _ => False
    end.
Proof.
  induction fuel as [|fuel IH]; intros t cur t' Hrun.
  - destruct cur; simpl in Hrun; [discriminate|]. injection Hrun as <-.
    split; [reflexivity|]. intros i. destruct (t !! i); auto.
  - destruct cur as [l|]; simpl in Hrun.
    2:{ injection Hrun as <-. split; [reflexivity|]. intros i. destruct (t !! i); auto. }
    destruct (t !! l) as [n|] eqn:Hl; [|discriminate].
    unfold visit in Hrun. destruct (N n + 1 =? 0); [discriminate|].
    destruct (IH _ _ _ Hrun) as [Hlen Hfr]. rewrite length_insert in Hlen.
    split; [exact Hlen|]. intros i. specialize (Hfr i).
    destruct (decide (l = i)) as [->|Hne].
    + rewrite list_lookup_insert_eq in Hfr by (eapply lookup_lt_Some; exact Hl).
      rewrite Hl. exact Hfr.
    + rewrite list_lookup_insert_ne in Hfr by exact Hne. exact Hfr.
Qed.

End PickFacts.

(** X8.  [_pick_untried_or_best] returns the first position of the
    proposal list that is not a key of the node's children, with the
    proposal at that position; for a node without children that is
    position 0.  When it returns a position that is a key, the position
    is 0 and every position is a key.  On the empty list it raises
    [IndexError]. *)
Theorem pick_untried_spec (n : MCTSNode.t) (action_specs : list ActionSpec) :
  (action_specs = [] ->
     _pick_untried_or_best n action_specs
     = Raise (mkExn "IndexError" "list index out of range")) /\
  (forall i spec, _pick_untried_or_best n action_specs = Ok (i, spec) ->
     action_specs !! i = Some spec /\
     (forall j, (j < i)%nat -> od_mem j (MCTSNode.children n) = true) /\
     (od_mem i (MCTSNode.children n) = false \/
      (i = 0%nat /\
       forall j, (j < length action_specs)%nat ->
                 od_mem j (MCTSNode.children n) = true))) /\
  (MCTSNode.children n = [] ->
   forall spec0 rest,
     _pick_untried_or_best n (spec0 :: rest) = Ok (0%nat, spec0)).
Proof.
  split; [|split].
  - intros ->. reflexivity.
  - intros i spec H. unfold _pick_untried_or_best in H.
    destruct (first_untried (MCTSNode.children n) 0 action_specs) as [[i' spec']|] eqn:E.
    + injection H as <- <-.
      destruct (first_untried_spec _ _ _ _ _ E) as (_ & Hlook & Hno & Hall).
      rewrite Nat.sub_0_r in Hlook. split; [exact Hlook|].
      split; [intros j Hj; apply Hall; lia | left; exact Hno].
    + destruct action_specs as [|spec0 rest]; [discriminate|]. injection H as <- <-.
      split; [reflexivity|]. split; [intros j Hj; lia|]. right.
      split; [reflexivity|]. intros j Hj.
      apply (first_untried_none _ _ _ E). lia.
  - intros Hch spec0 rest. unfold _pick_untried_or_best. simpl.
    rewrite Hch. reflexivity.
Qed.

(** X9.  Whatever the tree and the start node, a backpropagation that
    completes leaves the number of nodes and, at every node, the state,
    the parent, the children, the prior and the action index as they
    were: only [N] and [Q] change. *)
Theorem backprop_keeps_shape (t t' : Tree) (node : nat) (reward : R) :
  _backprop t node reward = Ok t' ->
  length t' = length t /\
  forall (i : nat) n, t !! i = Some n ->
    exists n', t' !! i = Some n' /\
      MCTSNode.ctx n' = MCTSNode.ctx n /\
      MCTSNode.parent n' = MCTSNode.parent n /\
      MCTSNode.children n' = MCTSNode.children n /\
      MCTSNode.prior n' = MCTSNode.prior n /\
      MCTSNode.last_action_index n' = MCTSNode.last_action_index n.
Proof.
  intros H. destruct (backprop_from_shape _ _ _ _ _ H) as [Hlen Hfr].
  split; [exact Hlen|]. intros i n Hi. specialize (Hfr i). rewrite Hi in Hfr.
  destruct (t' !! i) as [n'|]; [|contradiction]. exists n'. auto.
Qed.

Lemma backprop_keeps_shape_witness :
  exists t',
    _backprop retry_tree 2%nat 1%R = Ok t' /\ length t' = length retry_tree.
Proof.
  eexists. split; [reflexivity|].
  apply (backprop_keeps_shape retry_tree _ 2%nat 1%R). reflexivity.
Defined.

(** *** The candidate list *)

Section CandidateFacts.
Context {W : Type}.
Variable self : MCTSRunner W.

Lemma yields_ret {S A} (a : A) (P : A -> Prop) : P a -> yields (S:=S) (ret a) P.
Proof. intros Ha s s' a' H. injection H as _ <-. exact Ha. Qed.

Lemma yields_bind {S A B} (m : M S A) (k : A -> M S B) (P : B -> Prop) :
  (forall a, yields (k a) P) -> yields (bind m k) P.
Proof.
  intros Hk s s' b H. unfold bind in H.
  destruct (m s) as [s1 [a|e]]; [|discriminate]. exact (Hk a s1 s' b H).
Qed.

Lemma yields_in_heap {A} (m : M Heap A) (P : A -> Prop) :
  yields m P -> yields (in_heap (W:=W) m) P.
Proof.
  intros Hm s s' a H. unfold in_heap in H.
  destruct (m (st_heap s)) as [h' r] eqn:E. injection H as _ ->.
  exact (Hm _ _ _ E).
Qed.

Lemma pair_eta_snd {A B} (p : A * B) (b : B) : snd p = b -> p = (fst p, b).
Proof. intros <-. destruct p; reflexivity. Qed.

Lemma grows_refl maxc cands : grows maxc cands cands.
Proof. left. reflexivity. Qed.

Lemma collect_ctx_grows ctx cands maxc er :
  yields (_maybe_collect_ctx ctx cands maxc er) (grows maxc cands).
Proof.
  unfold _maybe_collect_ctx.
  destruct (maxc <=? Z.of_nat (length cands)) eqn:E.
  - apply yields_ret, grows_refl.
  - apply Z.leb_gt in E.
    apply yields_bind. intros c. apply yields_bind. intros pv.
    destruct (ReasoningContext.done c || ReasoningPath.terminal pv)%bool.
    + apply yields_bind. intros _. apply yields_bind. intros _.
      apply yields_ret. right. eexists. split; [reflexivity | exact E].
    + apply yields_ret, grows_refl.
Qed.

Lemma collect_grows node cands maxc er :
  yields (_maybe_collect (W:=W) node cands maxc er) (grows maxc cands).
Proof.
  unfold _maybe_collect. apply yields_bind. intros n.
  apply yields_in_heap, collect_ctx_grows.
Qed.

Lemma dead_end_grows node cands maxc :
  yields (dead_end self node cands maxc) (grows maxc cands).
Proof.
  unfold dead_end. repeat (apply yields_bind; intros ?).
  apply yields_in_heap, collect_ctx_grows.
Qed.

Lemma expand_grows node specs cands maxc :
  yields (expand self node specs cands maxc) (grows maxc cands).
Proof.
  unfold expand. apply yields_bind. intros n. apply yields_bind. intros [a_idx a_spec].
  unfold expand_with. apply yields_bind. intros [child_ctx er].
  apply yields_bind. intros child. apply yields_bind. intros _.
  apply collect_grows.
Qed.

Lemma iteration_grows root cands maxc :
  yields (iteration self root cands maxc) (fun r => grows maxc cands (fst r)).
Proof.
  unfold iteration. apply yields_bind. intros node. apply yields_bind. intros n.
  apply yields_bind. intros c.
  destruct (ReasoningContext.done c || _)%bool.
  - intros s s' r H. unfold bind in H.
    destruct (_maybe_collect node cands maxc None s) as [s1 [l|e]] eqn:E; [|discriminate].
    injection H as _ <-. exact (collect_grows _ _ _ _ _ _ _ E).
  - apply yields_bind. intros [|spec specs].
    + intros s s' r H. unfold bind in H.
      destruct (dead_end self node cands maxc s) as [s1 [l|e]] eqn:E; [|discriminate].
      injection H as _ <-. exact (dead_end_grows _ _ _ _ _ _ E).
    + intros s s' r H. unfold bind in H.
      destruct (expand self node (spec :: specs) cands maxc s) as [s1 [l|e]] eqn:E;
        [|discriminate].
      injection H as _ <-. exact (expand_grows _ _ _ _ _ _ _ E).
Qed.

(** Over the whole loop the list is only extended, and once extended it
    is within the cap. *)
Lemma loop_grows root maxc : forall iters cands,
  yields (loop self iters root cands maxc)
    (fun l => exists ext, l = cands ++ ext /\
                          (ext = [] \/ Z.of_nat (length l) <= maxc)).
Proof.
  induction iters as [|iters IH]; intros cands s s' l H; simpl in H.
  - injection H as _ <-. exists []. rewrite app_nil_r. auto.
  - unfold bind in H.
    destruct (iteration self root cands maxc s) as [s1 [[l1 stop]|e]] eqn:E; [|discriminate].
    pose proof (iteration_grows _ _ _ _ _ _ E) as Hg. simpl in Hg.
    assert (Hrest : exists ext, l = l1 ++ ext /\ (ext = [] \/ Z.of_nat (length l) <= maxc)).
    { destruct stop.
      - injection H as _ <-. exists []. rewrite app_nil_r. auto.
      - exact (IH l1 s1 s' l H). }
    destruct Hrest as (ext & -> & Hext).
    destruct Hg as [->|(p & -> & Hlt)]; [exists ext; auto|].
    exists (p :: ext). rewrite <- app_assoc. split; [reflexivity|]. right.
    destruct Hext as [->|Hle]; [|rewrite <- app_assoc in Hle; exact Hle].
    rewrite app_nil_r, length_app. simpl. lia.
Qed.

Lemma insert_desc_perm x l : Permutation (insert_desc x l) (x :: l).
Proof.
  induction l as [|y l IH]; simpl; [reflexivity|].
  destruct (Rgtb (fst y) (fst x)); [|reflexivity].
  rewrite IH. apply perm_swap.
Qed.

Lemma sort_desc_perm l : Permutation (sort_desc l) l.
Proof.
  induction l as [|x l IH]; simpl; [reflexivity|].
  rewrite insert_desc_perm, IH. reflexivity.
Qed.

Lemma with_scores_snd h : forall cands ps,
  with_scores h cands = Ok ps -> map snd ps = cands.
Proof.
  induction cands as [|c cands IH]; intros ps E; simpl in E.
  - injection E as <-. reflexivity.
  - destruct (h_paths h !! c); [|discriminate].
    destruct (with_scores h cands) as [l|]; [|discriminate].
    injection E as <-. simpl. rewrite (IH l eq_refl). reflexivity.
Qed.

Lemma slice_to_all {A} (l : list A) (k : Z) :
  l = [] \/ Z.of_nat (length l) <= k -> slice_to l k = l.
Proof.
  intros [->|Hle]; unfold slice_to.
  - destruct (k <? 0); apply take_nil.
  - replace (k <? 0) with false by (symmetry; apply Z.ltb_ge; lia).
    apply take_ge. lia.
Qed.

End CandidateFacts.

(** X10.  One pass through the loop body leaves the candidate list as it
    was or appends one path to it, and appends only while the list is
    below [max_candidates]: nothing is removed or reordered inside the
    loop, and the cap is never exceeded. *)
Theorem iteration_appends {W} (self : MCTSRunner W) (root : loc)
  (cands cands' : list loc) (maxc : Z) (s s' : St W) (stop : bool) :
  iteration self root cands maxc s = (s', Ok (cands', stop)) ->
  cands' = cands \/
  exists p, cands' = cands ++ [p] /\ Z.of_nat (length cands) < maxc.
Proof. intros H. exact (iteration_grows self _ _ _ _ _ _ H). Qed.

Lemma iteration_appends_witness :
  [1%nat] = [] \/
  exists p, [1%nat] = [] ++ [p] /\ Z.of_nat (length (@nil loc)) < 8.
Proof.
  apply (iteration_appends dead_end_runner 0%nat [] [1%nat] 8
           (at_root 0%nat table_3x2 "total cost?" ∅)
           (fst (iteration dead_end_runner 0%nat [] 8
                   (at_root 0%nat table_3x2 "total cost?" ∅))) false).
  apply pair_eta_snd. reflexivity.
Defined.

(** X11.  What [run] returns has at most [max_candidates] entries (none
    when [max_candidates] is zero or negative) and is in descending order
    of [total_score]; it is a rearrangement of the list the loop
    collected, so the final slice drops nothing. *)
Theorem run_bounded {W} (self : MCTSRunner W) (root_ctx : loc)
  (num_iters maxc : Z) (s s' : St W) (l : list loc) :
  run self root_ctx num_iters maxc s = (s', Ok l) ->
  Z.of_nat (length l) <= Z.max 0 maxc /\
  score_sorted (st_heap s') l /\
  exists cands,
    loop self (Z.to_nat num_iters) (length (st_tree s)) [] maxc
      (mkSt (st_world s) (st_heap s)
         (st_tree s ++ [MCTSNode.new root_ctx None None]))
    = (s', Ok cands) /\
    Permutation l cands.
Proof.
  intros Hrun. pose proof (run_sorted self _ _ _ _ _ _ Hrun) as Hsorted.
  unfold run, bind, new_node in Hrun. simpl in Hrun.
  destruct (loop self (Z.to_nat num_iters) _ [] maxc _) as [s2 [cands|e]] eqn:El;
    [|discriminate].
  unfold sort_candidates in Hrun.
  destruct (with_scores (st_heap s2) cands) as [ps|e] eqn:Ew; [|discriminate].
  unfold ret in Hrun. injection Hrun as <- <-.
  destruct (loop_grows self _ _ _ _ _ _ _ El) as (ext & Hext & Hb).
  simpl in Hext. subst ext.
  assert (Hperm : Permutation (map snd (sort_desc ps)) cands).
  { transitivity (map snd ps); [apply Permutation_map, sort_desc_perm|].
    rewrite (with_scores_snd _ _ _ Ew). reflexivity. }
  assert (Hlen : length (map snd (sort_desc ps)) = length cands).
  { apply Permutation_length. exact Hperm. }
  rewrite slice_to_all in *.
  - split; [|split; [exact Hsorted | exists cands; auto]].
    rewrite Hlen. destruct Hb as [->|Hle]; simpl; lia.
  - destruct Hb as [->|Hle].
    + left. destruct (map snd (sort_desc ps)); [reflexivity | discriminate].
    + right. rewrite Hlen. exact Hle.
  - destruct Hb as [->|Hle].
    + left. destruct (map snd (sort_desc ps)); [reflexivity | discriminate].
    + right. rewrite Hlen. exact Hle.
Qed.

Lemma run_bounded_witness :
  Z.of_nat (length [1%nat]) <= Z.max 0 1.
Proof.
  apply (run_bounded dead_end_runner 0%nat 3 1
           (start 0%nat table_3x2 "total cost?" ∅)
           (fst (run dead_end_runner 0%nat 3 1
                   (start 0%nat table_3x2 "total cost?" ∅))) [1%nat]).
  apply pair_eta_snd. reflexivity.
Defined.

(** *** The search tree stays a tree *)

Section TreeInvariant.
Context {W : Type}.
Variable self : MCTSRunner W.
Import MCTSNode.

Lemma keeps_tree_ok_of {A} (m : M (St W) A) : keeps_tree m -> keeps_tree_ok m.
Proof. intros Hm s s' r Hok H. rewrite (Hm s s' r H). exact Hok. Qed.

Lemma keeps_tree_ok_bind {A B} (m : M (St W) A) (k : A -> M (St W) B) :
  keeps_tree_ok m -> (forall a, keeps_tree_ok (k a)) -> keeps_tree_ok (bind m k).
Proof.
  intros Hm Hk s s' r Hok H. unfold bind in H.
  destruct (m s) as [s1 [a|e]] eqn:E.
  - exact (Hk a s1 s' r (Hm s s1 _ Hok E) H).
  - injection H as <- _. exact (Hm s s1 _ Hok E).
Qed.

Lemma keeps_tree_select root : keeps_tree (select self root).
Proof. intros s s' r H. unfold select in H. injection H as <- _. reflexivity. Qed.

Lemma keeps_tree_get_node l : keeps_tree (W:=W) (get_node l).
Proof.
  intros s s' r H. unfold get_node, of_option in H.
  destruct (st_tree s !! l); injection H as <- _; reflexivity.
Qed.

Lemma keeps_tree_propose ctx : keeps_tree (propose self ctx).
Proof.
  intros s s' r H. unfold propose in H.
  destruct (planner self (st_world s) (st_heap s) ctx) as [w' r'].
  injection H as <- _. reflexivity.
Qed.

Lemma keeps_tree_collect node cands maxc er :
  keeps_tree (W:=W) (_maybe_collect node cands maxc er).
Proof.
  unfold _maybe_collect. apply keeps_tree_bind; [apply keeps_tree_get_node|].
  intros n. apply keeps_tree_in_heap.
Qed.

Lemma keeps_tree_sort cands : keeps_tree (W:=W) (sort_candidates cands).
Proof.
  intros s s' r H. unfold sort_candidates in H.
  destruct (with_scores (st_heap s) cands); injection H as <- _; reflexivity.
Qed.

Lemma edge_same (t t' : Tree) :
  (forall i : nat, children <$> (t' !! i) = children <$> (t !! i)) ->
  forall l k x, edge t' l k x -> edge t l k x.
Proof.
  intros Hsame l k x (m & Hm & Hin). specialize (Hsame l). rewrite Hm in Hsame.
  destruct (t !! l) as [m0|] eqn:E; [|discriminate].
  simpl in Hsame. injection Hsame as Hch. exists m0. split; [exact E | congruence].
Qed.

Lemma backprop_tree_ok (t t' : Tree) (node : nat) r :
  tree_ok t -> _backprop t node r = Ok t' -> tree_ok t'.
Proof.
  intros (Hwf & Htree & Hpar) Hrun.
  destruct (backprop_from_shape _ _ _ _ _ Hrun) as [Hlen Hfr].
  assert (Hsame : forall i : nat, children <$> (t' !! i) = children <$> (t !! i)).
  { intros i. specialize (Hfr i).
    destruct (t !! i), (t' !! i); simpl; try tauto.
    destruct Hfr as (_ & _ & -> & _). reflexivity. }
  assert (Hnode : (node < length t)%nat).
  { destruct (decide (node < length t)%nat) as [Hlt|Hge]; [exact Hlt|].
    unfold _backprop in Hrun. destruct (length t) eqn:El; [discriminate|].
    simpl in Hrun. rewrite lookup_ge_None_2 in Hrun by lia. discriminate. }
  destruct (backprop_ok t node r Hwf Hnode) as (t2 & Hrun2 & _ & Hwf2 & _).
  rewrite Hrun in Hrun2. injection Hrun2 as <-.
  split; [exact Hwf2|]. split.
  - intros l1 k1 l2 k2 x H1 H2.
    exact (Htree _ _ _ _ _ (edge_same t t' Hsame _ _ _ H1) (edge_same t t' Hsame _ _ _ H2)).
  - intros l k x He.
    destruct (Hpar _ _ _ (edge_same t t' Hsame _ _ _ He)) as (m & Hm & Hp & Hi).
    specialize (Hfr x). rewrite Hm in Hfr.
    destruct (t' !! x) as [m'|]; [|contradiction].
    destruct Hfr as (_ & Hp' & _ & _ & Hi'). exists m'. split; [reflexivity|].
    split; congruence.
Qed.

Lemma keeps_tree_ok_backprop (node : nat) r : keeps_tree_ok (W:=W) (backprop node r).
Proof.
  intros s s' res Hok H. unfold backprop in H.
  destruct (_backprop (st_tree s) node r) as [t'|e] eqn:E; injection H as <- _.
  - simpl. exact (backprop_tree_ok _ _ _ _ Hok E).
  - exact Hok.
Qed.

(** An edge of the new tree that leads to the new child is the one
    that [attach] made. *)
Lemma attached_edge_new (t : Tree) (node : nat) n k0 child_ctx l k :
  wf_shape t -> t !! node = Some n ->
  edge (attached t node n k0 child_ctx) l k (length t) ->
  l = node /\ k = k0.
Proof.
  intros Hwf Hn (m & Hm & Hin). unfold attached in Hm.
  pose proof (lookup_lt_Some _ _ _ Hn) as Hlt.
  destruct (decide (l = node)) as [->|Hne].
  - rewrite list_lookup_insert_eq in Hm by (rewrite length_app; simpl; lia).
    injection Hm as <-. simpl in Hin.
    destruct (Hwf node n Hn) as (_ & Hch & Hnd & _).
    destruct (In_od_set _ _ _ _ _ Hnd Hin) as [[-> _]|[_ Hin']]; [auto|].
    destruct (Hch _ _ Hin'). lia.
  - rewrite list_lookup_insert_ne in Hm by congruence.
    destruct (decide (l < length t)%nat) as [Hl|Hl].
    + rewrite lookup_app_l in Hm by exact Hl.
      destruct (Hwf l m Hm) as (_ & Hch & _). destruct (Hch _ _ Hin). lia.
    + destruct (decide (l = length t)) as [->|Hl'].
      * rewrite (list_lookup_middle _ [] _ _ eq_refl) in Hm. injection Hm as <-.
        destruct Hin.
      * rewrite lookup_ge_None_2 in Hm; [discriminate|].
        rewrite length_app. simpl. lia.
Qed.

Lemma attached_lookup_old (t : Tree) (node : nat) n k0 child_ctx (x : nat) m :
  t !! node = Some n -> t !! x = Some m ->
  exists m', attached t node n k0 child_ctx !! x = Some m' /\
             parent m' = parent m /\ last_action_index m' = last_action_index m /\
             N m' = N m /\
             (x <> node -> m' = m).
Proof.
  intros Hn Hx. unfold attached.
  pose proof (lookup_lt_Some _ _ _ Hx) as Hlt.
  destruct (decide (x = node)) as [->|Hne].
  - rewrite list_lookup_insert_eq by (rewrite length_app; simpl; lia).
    rewrite Hn in Hx. injection Hx as <-. eexists. split; [reflexivity|].
    simpl. repeat split. congruence.
  - rewrite list_lookup_insert_ne by congruence.
    rewrite lookup_app_l by exact Hlt. exists m. auto.
Qed.

Lemma attached_ok (t : Tree) (node : nat) n k0 child_ctx :
  tree_ok t -> t !! node = Some n -> tree_ok (attached t node n k0 child_ctx).
Proof.
  intros (Hwf & Htree & Hpar) Hn.
  pose proof (lookup_lt_Some _ _ _ Hn) as Hlt.
  assert (Hlen : length (attached t node n k0 child_ctx) = S (length t)).
  { unfold attached. rewrite length_insert, length_app. simpl. lia. }
  split; [|split].
  - intros l m Hl. rewrite Hlen.
    destruct (decide (l = length t)) as [->|Hne].
    + unfold attached in Hl. rewrite list_lookup_insert_ne in Hl by lia.
      rewrite (list_lookup_middle _ [] _ _ eq_refl) in Hl. injection Hl as <-.
      simpl. split; [intros p Hp; injection Hp as <-; exact Hlt|].
      split; [intros k ch []|]. split; [apply NoDup_nil; exact I | lia].
    + assert (Hl' : (l < length t)%nat).
      { apply lookup_lt_Some in Hl. rewrite Hlen in Hl. lia. }
      destruct (lookup_lt_is_Some_2 t l Hl') as [m0 Hm0].
      destruct (Hwf l m0 Hm0) as (Hp0 & Hch0 & Hnd0 & HN0).
      destruct (attached_lookup_old t node n k0 child_ctx l m0 Hn Hm0)
        as (m' & Hm' & Hp' & _ & HN' & Hsame).
      rewrite Hl in Hm'. injection Hm' as <-.
      split; [rewrite Hp'; exact Hp0|]. split; [|split; [|lia]].
      * intros k ch Hin.
        destruct (decide (ch = length t)) as [->|Hch]; [|].
        { destruct (attached_edge_new t node n k0 child_ctx l k Hwf Hn) as [-> _];
            [exists m; auto | lia]. }
        destruct (attached_edge t node n k0 child_ctx l k ch Hwf Hn) as [He _];
          [exists m; auto | exact Hch |].
        pose proof (edge_lt _ _ _ _ Hwf He). destruct He as (m1 & Hm1 & Hin1).
        rewrite Hm0 in Hm1. injection Hm1 as <-.
        destruct (Hch0 _ _ Hin1). lia.
      * destruct (decide (l = node)) as [->|Hne'].
        { unfold attached in Hl.
          rewrite list_lookup_insert_eq in Hl by (rewrite length_app; simpl; lia).
          injection Hl as <-. simpl. apply od_set_NoDup.
          rewrite Hn in Hm0. injection Hm0 as <-. exact Hnd0. }
        { rewrite (Hsame Hne'). exact Hnd0. }
  - intros l1 k1 l2 k2 x H1 H2.
    destruct (decide (x = length t)) as [->|Hx].
    + destruct (attached_edge_new _ _ _ _ _ _ _ Hwf Hn H1) as [-> ->].
      destruct (attached_edge_new _ _ _ _ _ _ _ Hwf Hn H2) as [-> ->]. auto.
    + destruct (attached_edge _ _ _ _ _ _ _ _ Hwf Hn H1 Hx) as [E1 _].
      destruct (attached_edge _ _ _ _ _ _ _ _ Hwf Hn H2 Hx) as [E2 _].
      exact (Htree _ _ _ _ _ E1 E2).
  - intros l k x He.
    destruct (decide (x = length t)) as [->|Hx].
    + destruct (attached_edge_new _ _ _ _ _ _ _ Hwf Hn He) as [-> ->].
      eexists. split.
      * unfold attached. rewrite list_lookup_insert_ne by lia.
        apply (list_lookup_middle _ [] _ _ eq_refl).
      * simpl. auto.
    + destruct (attached_edge _ _ _ _ _ _ _ _ Hwf Hn He Hx) as [E _].
      destruct (Hpar _ _ _ E) as (m & Hm & Hp & Hi).
      destruct (attached_lookup_old t node n k0 child_ctx x m Hn Hm)
        as (m' & Hm' & Hp' & Hi' & _).
      exists m'. split; [exact Hm'|]. split; congruence.
Qed.

Lemma new_root_ok (t : Tree) root_ctx :
  tree_ok t -> tree_ok (t ++ [MCTSNode.new root_ctx None None]).
Proof.
  intros (Hwf & Htree & Hpar).
  assert (Hedge : forall l k x,
             edge (t ++ [MCTSNode.new root_ctx None None]) l k x -> edge t l k x).
  { intros l k x (m & Hm & Hin).
    destruct (decide (l < length t)%nat) as [Hl|Hl].
    - rewrite lookup_app_l in Hm by exact Hl. exists m. auto.
    - destruct (decide (l = length t)) as [->|Hl'].
      + rewrite (list_lookup_middle _ [] _ _ eq_refl) in Hm. injection Hm as <-.
        destruct Hin.
      + rewrite lookup_ge_None_2 in Hm; [discriminate|].
        rewrite length_app. simpl. lia. }
  split; [|split].
  - intros l m Hl. rewrite length_app. simpl.
    destruct (decide (l < length t)%nat) as [Hlt|Hge].
    + rewrite lookup_app_l in Hl by exact Hlt.
      destruct (Hwf l m Hl) as (Hp & Hch & Hnd & HN).
      split; [exact Hp|]. split; [|auto].
      intros k ch Hin. destruct (Hch k ch Hin). lia.
    + destruct (decide (l = length t)) as [->|Hl'].
      * rewrite (list_lookup_middle _ [] _ _ eq_refl) in Hl. injection Hl as <-.
        simpl. split; [intros p Hp; discriminate|].
        split; [intros k ch []|]. split; [apply NoDup_nil; exact I | lia].
      * rewrite lookup_ge_None_2 in Hl; [discriminate|].
        rewrite length_app. simpl. lia.
  - intros l1 k1 l2 k2 x H1 H2. exact (Htree _ _ _ _ _ (Hedge _ _ _ H1) (Hedge _ _ _ H2)).
  - intros l k x He. destruct (Hpar _ _ _ (Hedge _ _ _ He)) as (m & Hm & Hp & Hi).
    exists m. split; [apply lookup_app_l_Some; exact Hm | auto].
Qed.

Lemma keeps_tree_ok_dead_end node cands maxc :
  keeps_tree_ok (dead_end self node cands maxc).
Proof.
  unfold dead_end.
  repeat first
    [ apply keeps_tree_ok_backprop
    | apply keeps_tree_ok_of;
      first [ apply keeps_tree_in_heap | apply keeps_tree_get_node
            | apply keeps_tree_evaluate ]
    | apply keeps_tree_ok_bind; [|intros ?] ].
Qed.

Lemma keeps_tree_ok_expand node specs cands maxc :
  keeps_tree_ok (expand self node specs cands maxc).
Proof.
  intros s s' r Hok H. unfold expand, bind at 1, get_node, of_option in H.
  destruct (st_tree s !! node) as [n|] eqn:Hn; simpl in H.
  2:{ injection H as <- _. exact Hok. }
  unfold bind at 1, lift_res in H.
  destruct (_pick_untried_or_best n specs) as [[a_idx a_spec]|e].
  2:{ injection H as <- _. exact Hok. }
  unfold expand_with, bind at 1 in H.
  destruct (simulate self (ctx n) a_spec s) as [s1 [[child_ctx er]|e]] eqn:Es.
  2:{ injection H as <- _. rewrite (simulate_tree self _ _ _ _ _ Es). exact Hok. }
  pose proof (simulate_tree self _ _ _ _ _ Es) as Ht.
  assert (Hn1 : st_tree s1 !! node = Some n) by (rewrite Ht; exact Hn).
  unfold bind at 1 in H. rewrite (attach_eq s1 node n a_idx child_ctx Hn1) in H.
  revert H. apply keeps_tree_ok_bind.
  - apply keeps_tree_ok_backprop.
  - intros _. apply keeps_tree_ok_of, keeps_tree_collect.
  - simpl. apply attached_ok; [rewrite Ht; exact Hok | exact Hn1].
Qed.

Lemma keeps_tree_ok_iteration root cands maxc :
  keeps_tree_ok (iteration self root cands maxc).
Proof.
  unfold iteration.
  apply keeps_tree_ok_bind; [apply keeps_tree_ok_of, keeps_tree_select|]. intros node.
  apply keeps_tree_ok_bind; [apply keeps_tree_ok_of, keeps_tree_get_node|]. intros n.
  apply keeps_tree_ok_bind; [apply keeps_tree_ok_of, keeps_tree_in_heap|]. intros c.
  destruct (ReasoningContext.done c || _)%bool.
  - apply keeps_tree_ok_bind; [apply keeps_tree_ok_of, keeps_tree_collect|].
    intros l. apply keeps_tree_ok_of, keeps_tree_ret.
  - apply keeps_tree_ok_bind; [apply keeps_tree_ok_of, keeps_tree_propose|].
    intros [|spec specs].
    + apply keeps_tree_ok_bind; [apply keeps_tree_ok_dead_end|].
      intros l. apply keeps_tree_ok_of, keeps_tree_ret.
    + apply keeps_tree_ok_bind; [apply keeps_tree_ok_expand|].
      intros l. apply keeps_tree_ok_of, keeps_tree_ret.
Qed.

Lemma keeps_tree_ok_loop root maxc : forall iters cands,
  keeps_tree_ok (loop self iters root cands maxc).
Proof.
  induction iters as [|iters IH]; intros cands; simpl.
  - apply keeps_tree_ok_of, keeps_tree_ret.
  - apply keeps_tree_ok_bind; [apply keeps_tree_ok_iteration|].
    intros [l stop]. destruct stop; [apply keeps_tree_ok_of, keeps_tree_ret | apply IH].
Qed.

Lemma empty_tree_ok : tree_ok [].
Proof.
  split; [|split].
  - intros l m Hl. destruct l; discriminate.
  - intros l1 k1 l2 k2 x (m & Hm & _). destruct l1; discriminate.
  - intros l k x (m & Hm & _). destruct l; discriminate.
Qed.

End TreeInvariant.

(** X12.  The search keeps its tree well formed.  If, before one pass
    through the loop body or before a whole run, parents are older than
    their children, child references denote nodes, keys are distinct,
    visit counts are not negative, every node is the child of at most
    one node under one key, and every child records that node and key as
    its parent and action index, then the same holds afterwards, whether
    the pass or run returns or raises. *)
Theorem run_keeps_tree_ok {W} (self : MCTSRunner W) (s : St W) :
  tree_ok (st_tree s) ->
  (forall root cands maxc s' r,
     iteration self root cands maxc s = (s', r) -> tree_ok (st_tree s')) /\
  (forall root_ctx num_iters maxc s' r,
     run self root_ctx num_iters maxc s = (s', r) -> tree_ok (st_tree s')).
Proof.
  intros Hok. split.
  - intros root cands maxc s' r H.
    exact (keeps_tree_ok_iteration self root cands maxc s s' r Hok H).
  - intros root_ctx num_iters maxc s' r H.
    unfold run, bind at 1, new_node in H. simpl in H.
    revert H. apply keeps_tree_ok_bind.
    + apply keeps_tree_ok_loop.
    + intros cands. apply keeps_tree_ok_bind.
      * apply keeps_tree_ok_of, keeps_tree_sort.
      * intros l. apply keeps_tree_ok_of, keeps_tree_ret.
    + simpl. apply new_root_ok. exact Hok.
Qed.

Lemma run_keeps_tree_ok_witness :
  tree_ok (st_tree (fst (run finish_example_runner 0%nat 10 3
                           (start tt table_3x2 "total cost?" ∅)))).
Proof.
  destruct (run_keeps_tree_ok finish_example_runner
              (start tt table_3x2 "total cost?" ∅)) as [_ Hrun].
  - apply empty_tree_ok.
  - apply (Hrun 0%nat 10 3 _ (snd (run finish_example_runner 0%nat 10 3
                                    (start tt table_3x2 "total cost?" ∅)))).
    destruct (run finish_example_runner 0%nat 10 3 _); reflexivity.
Defined.

(** *** Finishing and retrieving through the execution agent *)

Section ActionFacts.
Variable ext : Externals.

Lemma build_finish lit :
  build_action (ACTION_REGISTRY ext) (finish_spec lit)
  = Ok (mkAction (Ok tt) (Finish_apply VNone lit)).
Proof. reflexivity. Qed.

Lemma build_finish_from key lit :
  build_action (ACTION_REGISTRY ext) (finish_from_spec key lit)
  = Ok (mkAction (Ok tt) (Finish_apply (VStr key) lit)).
Proof. reflexivity. Qed.

(** The four writes of [Finish.apply]. *)
Lemma finish_writes h ctx c p ans :
  h_ctxs h !! ctx = Some c ->
  h_paths h !! ReasoningContext.path c = Some p ->
  (update_ctx ctx (ReasoningContext.set_answer ans) ;;;
   update_ctx ctx (ReasoningContext.set_done true) ;;;
   update_path (ReasoningContext.path c) (ReasoningPath.set_terminal true) ;;;
   update_path (ReasoningContext.path c) (ReasoningPath.set_final_answer ans)) h
  = (finished h ctx c p ans, Ok tt).
Proof.
  intros Hc Hp.
  pose proof (lookup_lt_Some _ _ _ Hc) as Hlc.
  pose proof (lookup_lt_Some _ _ _ Hp) as Hlp.
  unfold update_ctx, update_path, bind, get_ctx, get_path, of_option, modify, ret.
  rewrite Hc. simpl. rewrite list_lookup_insert_eq by exact Hlc. simpl.
  rewrite Hp. simpl. rewrite list_lookup_insert_eq by exact Hlp.
  unfold with_ctxs, with_paths, finished. simpl.
  rewrite !list_insert_insert_eq. reflexivity.
Qed.

End ActionFacts.

(** X13.  [Finish] through the execution agent, on a state whose path
    object exists.  With a literal and no [answer_from], the state
    becomes done with the literal as answer, its path terminal with the
    literal as final answer, and memory, steps and tables are untouched.
    With [answer_from] naming a memory variable, the answer is the value
    of that variable and the literal is ignored; when memory has no such
    variable the call returns an [ActionError] observation and the store
    is exactly as before. *)
Theorem finish_execute_spec (ext : Externals) (pen : R) (h : Heap) (ctx : loc)
  (c : ReasoningContext.t) (p : ReasoningPath.t) :
  h_ctxs h !! ctx = Some c ->
  h_paths h !! ReasoningContext.path c = Some p ->
  (forall lit,
     execute (ACTION_REGISTRY ext) pen ctx (finish_spec lit) h
     = (finished h ctx c p lit, Ok (ctx, finish_observation lit VNone true))) /\
  (forall key lit mem,
     h_dicts h !! ReasoningContext.memory c = Some mem ->
     match mem !! key with
     | Some v =>
         execute (ACTION_REGISTRY ext) pen ctx (finish_from_spec key lit) h
         = (finished h ctx c p v, Ok (ctx, finish_observation v (VStr key) false))
     | None =>
         exists e,
           exn_class e = "ActionError"%string /\
           execute (ACTION_REGISTRY ext) pen ctx (finish_from_spec key lit) h
           = (h, Ok (ctx, failure_observation pen e))
     end).
Proof.
  intros Hc Hp. split.
  - intros lit. rewrite execute_of_attempt.
    unfold attempt. rewrite build_finish. unfold lift_res, bind at 1.
    cbn [apply]. unfold Finish_apply, bind at 1 2, get_ctx, of_option, ret at 1.
    rewrite Hc. unfold bind at 1, ret at 1.
    pose proof (finish_writes h ctx c p lit Hc Hp) as Hw.
    unfold bind in Hw |- *. 
    destruct (update_ctx ctx (ReasoningContext.set_answer lit) h) as [h1 [[]|e1]];
      [|discriminate].
    destruct (update_ctx ctx (ReasoningContext.set_done true) h1) as [h2 [[]|e2]];
      [|discriminate].
    destruct (update_path (ReasoningContext.path c) (ReasoningPath.set_terminal true) h2)
      as [h3 [[]|e3]]; [|discriminate].
    rewrite Hw. reflexivity.
  - intros key lit mem Hmem.
    destruct (mem !! key) as [v|] eqn:Ek.
    + rewrite execute_of_attempt.
      unfold attempt. rewrite build_finish_from. unfold lift_res, bind at 1.
      cbn [apply]. unfold Finish_apply, bind at 1 2, get_ctx, of_option, ret at 1.
      rewrite Hc. unfold bind at 1 2, get_dict, of_option, ret at 1.
      rewrite Hmem. unfold lift_res, memory_lookup, bind at 1. rewrite Ek.
      unfold ret at 1.
      pose proof (finish_writes h ctx c p v Hc Hp) as Hw.
      unfold bind in Hw |- *.
      destruct (update_ctx ctx (ReasoningContext.set_answer v) h) as [h1 [[]|e1]];
        [|discriminate].
      destruct (update_ctx ctx (ReasoningContext.set_done true) h1) as [h2 [[]|e2]];
        [|discriminate].
      destruct (update_path (ReasoningContext.path c) (ReasoningPath.set_terminal true) h2)
        as [h3 [[]|e3]]; [|discriminate].
      rewrite Hw. reflexivity.
    + eexists. split; [|].
      2:{ rewrite execute_of_attempt.
          unfold attempt. rewrite build_finish_from. unfold lift_res, bind at 1.
          cbn [apply]. unfold Finish_apply, bind at 1 2, get_ctx, of_option, ret at 1.
          rewrite Hc. unfold bind at 1 2, get_dict, of_option, ret at 1.
          rewrite Hmem. unfold lift_res, memory_lookup, bind at 1. rewrite Ek.
          unfold raise. reflexivity. }
      reflexivity.
Qed.

Lemma finish_execute_spec_witness :
  execute (ACTION_REGISTRY example_externals) (-1e6)%R 0%nat
    (finish_from_spec "hint" (VStr "unused")) example_heap
  = (finished example_heap 0%nat
       (ReasoningContext.mk 0%nat 0%nat "total cost?" 0%nat 0%nat false VNone 0)
       (ReasoningPath.mk 0%nat VNone false 0%R 1%nat) (VInt 1),
     Ok (0%nat, finish_observation (VInt 1) (VStr "hint") false)).
Proof.
  destruct (finish_execute_spec example_externals (-1e6)%R example_heap 0%nat
              (ReasoningContext.mk 0%nat 0%nat "total cost?" 0%nat 0%nat false VNone 0)
              (ReasoningPath.mk 0%nat VNone false 0%R 1%nat) eq_refl eq_refl)
    as [_ Hfrom].
  exact (Hfrom "hint"%string (VStr "unused") {["hint" := VInt 1]} eq_refl).
Defined.

Section RetrievalFacts.
Variable ext : Externals.

Lemma build_retrieval q topk :
  build_action (ACTION_REGISTRY ext) (retrieval_query_spec q topk)
  = if topk <=? 0 then Raise (ActionError "topk must be positive.")
    else Ok (mkAction (GeneralRetrieval_validate (VInt topk))
               (GeneralRetrieval_apply ext (VStr q) (VInt topk) (VBool true)
                  (VStr "general_knowledge"))).
Proof.
  cbv -[Z.leb GeneralRetrieval_apply]. destruct (topk <=? 0); reflexivity.
Qed.

Lemma strip_nonempty q : Table.strip q <> ""%string -> q <> ""%string.
Proof. intros H ->. apply H. reflexivity. Qed.

Lemma eqb_empty_false s : s <> ""%string -> String.eqb s "" = false.
Proof. intros H. apply String.eqb_neq. exact H. Qed.

End RetrievalFacts.

(** X14.  [GeneralRetrieval] through the execution agent, for a spec
    with a query and a limit.  A limit of zero or less is rejected by
    validation: the store is untouched.  With a positive limit, a query
    that is not blank and no provider in memory, the LLM is not
    consulted: the stub result (the stripped query, no items) is stored
    under ["general_knowledge"], every other memory variable is kept, and
    the observation reports zero items. *)
Theorem retrieval_stub_spec (ext : Externals) (pen : R) (h : Heap) (ctx : loc)
  (c : ReasoningContext.t) (mem : gmap string value) (q : string) (topk : Z) :
  h_ctxs h !! ctx = Some c ->
  h_dicts h !! ReasoningContext.memory c = Some mem ->
  (topk <= 0 ->
   execute (ACTION_REGISTRY ext) pen ctx (retrieval_query_spec q topk) h
   = (h, Ok (ctx, failure_observation pen (ActionError "topk must be positive.")))) /\
  (0 < topk -> Table.strip q <> ""%string ->
   mem !! "general_kb_provider" = None ->
   execute (ACTION_REGISTRY ext) pen ctx (retrieval_query_spec q topk) h
   = (with_dicts
        (fun s => <[ReasoningContext.memory c :=
                      <["general_knowledge" := stub_result (Table.strip q)]> mem]> s) h,
      Ok (ctx, VDict [("out_key", VStr "general_knowledge");
                      ("query", VStr (Table.strip q));
                      ("num_items", VInt 0);
                      ("llm_used", VBool false)]))).
Proof.
  intros Hc Hmem. split.
  - intros Hle. rewrite execute_of_attempt.
    rewrite (attempt_build_fails _ _ _ _ (ActionError "topk must be positive.")).
    + reflexivity.
    + rewrite build_retrieval.
      replace (topk <=? 0) with true by (symmetry; apply Z.leb_le; lia). reflexivity.
  - intros Hpos Hq Hprov. rewrite execute_of_attempt.
    unfold attempt. rewrite build_retrieval.
    replace (topk <=? 0) with false by (symmetry; apply Z.leb_gt; lia).
    unfold lift_res, bind at 1. cbn [apply].
    unfold GeneralRetrieval_apply, or_empty_strip, truthy.
    rewrite (eqb_empty_false q (strip_nonempty q Hq)). simpl negb. cbv iota.
    unfold lift_res, bind at 1. unfold gets, bind at 1.
    rewrite (eqb_empty_false _ Hq). simpl andb. cbv iota beta.
    rewrite (eqb_empty_false _ Hq).
    unfold bind, get_ctx, get_dict, of_option, ret. rewrite Hc. simpl.
    rewrite Hmem. simpl. rewrite Hprov. simpl.
    unfold dict_setitem, update_dict, bind, get_dict, of_option, modify, ret.
    rewrite Hmem. reflexivity.
Qed.

Lemma retrieval_stub_spec_witness :
  execute (ACTION_REGISTRY example_externals) (-1e6)%R 0%nat
    (retrieval_query_spec " gdp " 3) example_heap
  = (with_dicts
       (fun s => <[0%nat := <["general_knowledge" := stub_result "gdp"]>
                              ({["hint" := VInt 1]} : gmap string value)]> s)
       example_heap,
     Ok (0%nat, VDict [("out_key", VStr "general_knowledge");
                       ("query", VStr "gdp");
                       ("num_items", VInt 0);
                       ("llm_used", VBool false)])).
Proof.
  destruct (retrieval_stub_spec example_externals (-1e6)%R example_heap 0%nat
              (ReasoningContext.mk 0%nat 0%nat "total cost?" 0%nat 0%nat false VNone 0)
              {["hint" := VInt 1]} " gdp " 3 eq_refl eq_refl) as [_ Hstub].
  apply Hstub; [lia | discriminate | reflexivity].
Defined.

(** *** Choosing among the candidates *)

Section DebateFacts.
Context {W : Type}.
Import Debate.

Lemma insert_desc_head x l :
  head (insert_desc x l) =
  match l with
  | [] => Some x
  | y :: _ => if Rgtb (fst y) (fst x) then Some y else Some x
  end.
Proof.
  destruct l as [|y l]; simpl; [reflexivity|].
  destruct (Rgtb (fst y) (fst x)); reflexivity.
Qed.

(** The head of the sorted list is the first entry with the highest
    score. *)
Lemma sort_desc_head l :
  l <> [] ->
  exists l1 x l2,
    l = l1 ++ x :: l2 /\ head (sort_desc l) = Some x /\
    (forall y, In y l1 -> (fst y < fst x)%R) /\
    (forall y, In y l2 -> (fst y <= fst x)%R).
Proof.
  induction l as [|a l IH]; intros Hne; [congruence|].
  destruct l as [|b l].
  - exists [], a, []. simpl. repeat split; intros y [].
  - destruct IH as (l1 & x & l2 & Hl & Hh & H1 & H2); [discriminate|].
    change (sort_desc (a :: b :: l)) with (insert_desc a (sort_desc (b :: l))).
    rewrite insert_desc_head.
    destruct (sort_desc (b :: l)) as [|y rest] eqn:Es; [discriminate|].
    simpl in Hh. injection Hh as ->.
    destruct (Rgtb (fst x) (fst a)) eqn:Eg.
    + apply Rgtb_true in Eg.
      exists (a :: l1), x, l2. rewrite Hl. split; [reflexivity|].
      split; [reflexivity|]. split; [|exact H2].
      intros z [<-|Hz]; [exact Eg | apply H1; exact Hz].
    + apply Rgtb_false in Eg.
      exists [], a, (b :: l). split; [reflexivity|]. split; [reflexivity|].
      split; [intros z []|]. intros z Hz. rewrite Hl in Hz.
      apply in_app_or in Hz as [Hz|[<-|Hz]].
      * pose proof (H1 z Hz). lra.
      * exact Eg.
      * pose proof (H2 z Hz). lra.
Qed.

Lemma with_scores_ok h : forall cands,
  (forall p, In p cands -> is_Some (h_paths h !! p)) ->
  with_scores h cands = Ok (map (fun p => (score_of h p, p)) cands).
Proof.
  induction cands as [|c cands IH]; intros Hall; simpl; [reflexivity|].
  destruct (Hall c (or_introl eq_refl)) as [pv Hpv].
  unfold score_of at 1. rewrite Hpv.
  rewrite IH by (intros p Hp; apply Hall; right; exact Hp). reflexivity.
Qed.

Lemma py_index_head {A} (l : list A) x : head l = Some x -> py_index l 0 = Ok x.
Proof. destruct l as [|y l]; intros H; [discriminate|]. injection H as ->. reflexivity. Qed.

Lemma judge_all_length (js : list (Judge W)) q p : forall scores crits s s' scores' crits',
  judge_all js q p scores crits s = (s', Ok (scores', crits')) ->
  length scores' = (length scores + length js)%nat /\ snd s' = snd s.
Proof.
  induction js as [|j js IH]; intros scores crits s s' scores' crits' H; simpl in H.
  - unfold ret in H. injection H as Hs Hsc Hcr. subst. simpl. split; [lia | reflexivity].
  - unfold bind, judge in H.
    destruct (j s.1 s.2 q p) as [w' [er|e]]; [|discriminate].
    destruct (IH _ _ _ _ _ _ H) as [Hlen Hs]. rewrite length_app in Hlen.
    simpl in *. split; [lia | exact Hs].
Qed.

End DebateFacts.

(** X15.  With a decision agent and no judges, [DebateRunner.run]
    returns the candidate at the agent's index clamped into the list: it
    is always one of the candidates, the first one for an index of zero
    or less and the last one for an index at or beyond the end; the
    candidate list and the store are left as they were. *)
Theorem debate_decision_clamped {W} (d : Debate.Decider W) (question : string)
  (candidates : list loc) (w w' : W) (h : Heap) (idx : Z) :
  candidates <> [] ->
  d w h question candidates = (w', Ok idx) ->
  exists best,
    Debate.run (Debate.mk (Some d) None) question candidates (w, h)
    = ((w', h), Ok (candidates, best)) /\
    candidates !! Z.to_nat (Z.max 0 (Z.min idx (Z.of_nat (length candidates) - 1)))
    = Some best /\
    (idx <= 0 -> head candidates = Some best) /\
    (Z.of_nat (length candidates) - 1 <= idx -> last candidates = Some best).
Proof.
  intros Hne Hd.
  set (n := Z.of_nat (length candidates)).
  assert (Hn : 0 < n).
  { unfold n. destruct candidates; [congruence | simpl; lia]. }
  set (i := Z.max 0 (Z.min idx (n - 1))).
  assert (Hi : 0 <= i < n) by (unfold i; lia).
  destruct (lookup_lt_is_Some_2 candidates (Z.to_nat i)) as [best Hbest];
    [unfold n in Hi; lia|].
  exists best. split; [|split; [exact Hbest|split]].
  - unfold Debate.run. destruct candidates as [|c cs]; [congruence|].
    simpl Debate.debate_agents. simpl Debate.decision_agent.
    unfold bind at 1, ret at 1. unfold bind at 1, Debate.decide. simpl fst. simpl snd.
    rewrite Hd. unfold bind at 1, lift_res.
    fold n. fold i.
    replace (py_index (c :: cs) i) with (Ok best : Res loc); [reflexivity|].
    symmetry. rewrite <- (Z2Nat.id i) by lia. apply py_index_nat. exact Hbest.
  - intros Hle. replace i with 0 in Hbest by (unfold i; lia).
    destruct candidates; [congruence | exact Hbest].
  - intros Hge. replace i with (n - 1) in Hbest by (unfold i; lia).
    rewrite last_lookup.
    replace (Nat.pred (length candidates)) with (Z.to_nat (n - 1)) by (unfold n; lia).
    exact Hbest.
Qed.

Lemma debate_decision_clamped_witness :
  exists best,
    Debate.run (Debate.mk (Some (fun (w : unit) _ _ _ => (w, Ok 7))) None)
      "total cost?" [0; 1; 2]%nat (tt, debate_heap)
    = ((tt, debate_heap), Ok ([0; 1; 2]%nat, best)) /\
    last [0; 1; 2]%nat = Some best.
Proof.
  destruct (debate_decision_clamped (fun (w : unit) _ _ _ => (w, Ok 7))
              "total cost?" [0; 1; 2]%nat tt tt debate_heap 7)
    as (best & Hrun & _ & _ & Hlast).
  - discriminate.
  - reflexivity.
  - exists best. split; [exact Hrun | apply Hlast; simpl; lia].
Defined.

(** X16.  Without a decision agent and without judges,
    [DebateRunner.run] returns the first candidate that has the highest
    [total_score]: every earlier candidate scores strictly less and no
    later one scores more.  The candidate list is left sorted in
    descending order, a rearrangement of what it was, and the store is
    untouched.  On the empty list the runner raises [ValueError] before
    it consults anyone. *)
Theorem debate_default_best {W} (self : Debate.DebateRunner W) (question : string)
  (candidates : list loc) (w : W) (h : Heap) :
  (Debate.run self question [] (w, h)
   = ((w, h), Raise (mkExn "ValueError" "No candidate paths provided to DebateRunner."))) /\
  (Debate.decision_agent self = None ->
   Debate.debate_agents self = None \/ Debate.debate_agents self = Some [] ->
   candidates <> [] ->
   (forall p, In p candidates -> is_Some (h_paths h !! p)) ->
   exists sorted best l1 l2,
     Debate.run self question candidates (w, h) = ((w, h), Ok (sorted, best)) /\
     head sorted = Some best /\
     Permutation sorted candidates /\
     score_sorted h sorted /\
     candidates = l1 ++ best :: l2 /\
     (forall p, In p l1 -> (score_of h p < score_of h best)%R) /\
     (forall p, In p l2 -> (score_of h p <= score_of h best)%R)).
Proof.
  split; [reflexivity|].
  intros Hdec Hjs Hne Hall.
  pose proof (with_scores_ok h candidates Hall) as Hws.
  set (ps := map (fun p => (score_of h p, p)) candidates) in *.
  assert (Hps : ps <> []).
  { unfold ps. destruct candidates; [congruence | discriminate]. }
  destruct (sort_desc_head ps Hps) as (l1 & x & l2 & Hl & Hh & H1 & H2).
  unfold ps in Hl. apply map_eq_app in Hl as (c1 & c2' & Hc & Hm1 & Hm2).
  destruct c2' as [|best c2]; [discriminate|]. simpl in Hm2.
  injection Hm2 as Hx Hm2.
  exists (map snd (sort_desc ps)), best, c1, c2.
  assert (Hhead : head (map snd (sort_desc ps)) = Some best).
  { destruct (sort_desc ps) as [|y rest]; [discriminate|].
    simpl in *. injection Hh as ->. rewrite <- Hx. reflexivity. }
  split; [|split; [exact Hhead|split; [|split; [|split; [exact Hc|split]]]]].
  - unfold Debate.run. destruct candidates as [|c cs]; [congruence|].
    rewrite Hdec.
    assert (Hskip : match Debate.debate_agents self with
                    | Some (j :: js) => Debate.refine_all (j :: js) question (c :: cs)
                    | _ => ret tt
                    end = ret tt).
    { destruct Hjs as [-> | ->]; reflexivity. }
    rewrite Hskip. unfold bind at 1, ret at 1.
    unfold bind at 1, Debate.sort_paths. simpl snd. rewrite Hws.
    unfold bind at 1, lift_res. rewrite (py_index_head _ _ Hhead). reflexivity.
  - transitivity (map snd ps); [apply Permutation_map, sort_desc_perm|].
    rewrite (with_scores_snd _ _ _ Hws). reflexivity.
  - apply score_sorted_of_pairs; [apply sort_desc_sorted|].
    intros r p Hin. apply (proj1 (sort_desc_In _ _)) in Hin.
    exact (with_scores_spec _ _ _ Hws r p Hin).
  - intros p Hp. specialize (H1 (score_of h p, p)).
    rewrite <- Hx in H1. simpl in H1. apply H1. rewrite <- Hm1.
    apply (in_map (fun p => (score_of h p, p))). exact Hp.
  - intros p Hp. specialize (H2 (score_of h p, p)).
    rewrite <- Hx in H2. simpl in H2. apply H2. rewrite <- Hm2.
    apply (in_map (fun p => (score_of h p, p))). exact Hp.
Qed.

Lemma debate_default_best_witness :
  exists sorted best,
    Debate.run (Debate.mk None None) "total cost?" [0; 1; 2]%nat (tt, debate_heap)
    = ((tt, debate_heap), Ok (sorted, best)) /\
    head sorted = Some best.
Proof.
  destruct (debate_default_best (Debate.mk None None) "total cost?" [0; 1; 2]%nat
              tt debate_heap) as [_ Hbest].
  destruct Hbest as (sorted & best & l1 & l2 & Hrun & Hhead & _).
  - reflexivity.
  - left. reflexivity.
  - discriminate.
  - intros p [<-|[<-|[<-|[]]]]; simpl; eauto.
  - exists sorted, best. split; [exact Hrun | exact Hhead].
Defined.

(** X17.  Judging one path with a non-empty panel: when every judge
    returns, the path's [total_score] becomes the sum of the judges'
    scores divided by the number of judges, its other fields stay, and
    the non-empty critiques are stored, in the order of the judges, under
    ["debate_critiques"] in the path's metadata; without critiques no
    dict is touched. *)
Theorem refine_average {W} (js : list (Debate.Judge W)) (question : string)
  (p : loc) (s s1 : W * Heap) (scores : list R) (critiques : list string)
  (pv : ReasoningPath.t) (mt : gmap string value) :
  js <> [] ->
  Debate.judge_all js question p [] [] s = (s1, Ok (scores, critiques)) ->
  h_paths (snd s) !! p = Some pv ->
  h_dicts (snd s) !! ReasoningPath.meta pv = Some mt ->
  exists h',
    Debate.refine js question p s = ((fst s1, h'), Ok tt) /\
    length scores = length js /\
    h_paths h' !! p =
      Some (ReasoningPath.set_total_score
              (Debate.py_sum scores / IZR (Z.of_nat (length js)))%R pv) /\
    (critiques = [] -> h_dicts h' = h_dicts (snd s)) /\
    (critiques <> [] ->
     h_dicts h' !! ReasoningPath.meta pv
     = Some (<["debate_critiques" := VList (map VStr critiques)]> mt)).
Proof.
  intros Hne Hj Hp Hmt.
  destruct (judge_all_length js question p _ _ _ _ _ _ Hj) as [Hlen Hs1].
  simpl in Hlen.
  destruct s as [w h]. destruct s1 as [w1 h1]. simpl in Hs1, Hp, Hmt. subst h1.
  pose proof (lookup_lt_Some _ _ _ Hp) as Hlp.
  pose proof (lookup_lt_Some _ _ _ Hmt) as Hlm.
  unfold Debate.refine, bind at 1. rewrite Hj.
  destruct scores as [|sc scores'].
  { destruct js; [congruence | discriminate]. }
  rewrite <- Hlen.
  set (avg := (Debate.py_sum (sc :: scores') / IZR (Z.of_nat (length (sc :: scores'))))%R).
  unfold bind at 1, Debate.on_heap at 1, update_path, bind at 1, get_path, of_option,
    ret at 1, modify.
  cbn [fst snd]. rewrite Hp.
  destruct critiques as [|cr crs].
  - eexists. split; [reflexivity|]. split; [reflexivity|]. simpl.
    split; [apply list_lookup_insert_eq; exact Hlp|].
    split; [reflexivity | congruence].
  - unfold bind at 1, Debate.on_heap at 1, get_path, of_option, ret at 1.
    cbn [fst snd]. unfold with_paths. cbn [h_paths].
    rewrite list_lookup_insert_eq by exact Hlp.
    unfold Debate.on_heap, dict_setitem, update_dict, bind, get_dict, of_option,
      modify, ret.
    simpl. rewrite Hmt.
    eexists. split; [reflexivity|]. split; [reflexivity|]. simpl.
    split; [apply list_lookup_insert_eq; exact Hlp|].
    split; [discriminate|]. intros _.
    apply list_lookup_insert_eq. exact Hlm.
Qed.

Lemma refine_average_witness :
  exists h',
    Debate.refine
      [fun (w : unit) _ _ _ => (w, Ok (EvalResult.mk 0.4%R "weak" None));
       fun (w : unit) _ _ _ => (w, Ok (EvalResult.mk 0.8%R "" None))]
      "total cost?" 0%nat (tt, debate_heap) = ((tt, h'), Ok tt) /\
    h_paths h' !! 0%nat =
      Some (ReasoningPath.set_total_score
              (Debate.py_sum [0.4; 0.8] / IZR (Z.of_nat 2))%R
              (ReasoningPath.mk 0%nat VNone true 0.2%R 0%nat)).
Proof.
  destruct (refine_average
              [fun (w : unit) _ _ _ => (w, Ok (EvalResult.mk 0.4%R "weak" None));
               fun (w : unit) _ _ _ => (w, Ok (EvalResult.mk 0.8%R "" None))]
              "total cost?" 0%nat (tt, debate_heap) (tt, debate_heap)
              [0.4%R; 0.8%R] ["weak"%string]
              (ReasoningPath.mk 0%nat VNone true 0.2%R 0%nat) ∅)
    as (h' & Hrun & _ & Hscore & _).
  - discriminate.
  - reflexivity.
  - reflexivity.
  - reflexivity.
  - exists h'. split; [exact Hrun | exact Hscore].
Defined.

(** *** Further facts about forking, collecting and the depth limit *)

Section MiscFacts.
Import ReasoningContext ReasoningPath.

Lemma lookup_snoc_length {A} (l : list A) (x : A) : (l ++ [x]) !! length l = Some x.
Proof. apply (list_lookup_middle l [] x _ eq_refl). Qed.

Lemma ctx_ok_grow (h h' : Heap) (c0 : loc) :
  (forall i x, h_ctxs h !! i = Some x -> h_ctxs h' !! i = Some x) ->
  (forall i x, h_paths h !! i = Some x -> h_paths h' !! i = Some x) ->
  (forall i x, h_dicts h !! i = Some x -> h_dicts h' !! i = Some x) ->
  (forall i x, h_lists h !! i = Some x -> h_lists h' !! i = Some x) ->
  ctx_ok h c0 -> ctx_ok h' c0.
Proof.
  intros Hc Hp Hd Hl (cx & p & Hcx & Hpx & [m Hm] & [st Hst] & [mt Hmt]).
  exists cx, p. split; [apply Hc; exact Hcx|]. split; [apply Hp; exact Hpx|].
  split; [exists m; apply Hd; exact Hm|].
  split; [exists st; apply Hl; exact Hst | exists mt; apply Hd; exact Hmt].
Qed.

End MiscFacts.

(** X18.  A well-formed state can always be forked: the call returns a
    new state object, existing objects of the store are left as they
    are, every state that was well formed still is, and the fork is well
    formed too, so it can be forked in turn. *)
Theorem fork_keeps_ok (h : Heap) (s : loc) :
  ctx_ok h s ->
  exists h',
    fork s h = (h', Ok (length (h_ctxs h))) /\
    h_tables h' = h_tables h /\
    (forall i x, h_ctxs h !! i = Some x -> h_ctxs h' !! i = Some x) /\
    (forall i x, h_paths h !! i = Some x -> h_paths h' !! i = Some x) /\
    (forall i x, h_dicts h !! i = Some x -> h_dicts h' !! i = Some x) /\
    (forall i x, h_lists h !! i = Some x -> h_lists h' !! i = Some x) /\
    (forall c0, ctx_ok h c0 -> ctx_ok h' c0) /\
    ctx_ok h' (length (h_ctxs h)).
Proof.
  intros (c & p & Hc & Hp & [mem Hmem] & [st Hst] & [mt Hmt]).
  exists (forked_heap h c p mem mt st).
  assert (Hg1 : forall i x, h_ctxs h !! i = Some x ->
                            h_ctxs (forked_heap h c p mem mt st) !! i = Some x).
  { intros i x Hi. simpl. apply lookup_app_l_Some. exact Hi. }
  assert (Hg2 : forall i x, h_paths h !! i = Some x ->
                            h_paths (forked_heap h c p mem mt st) !! i = Some x).
  { intros i x Hi. simpl. apply lookup_app_l_Some. exact Hi. }
  assert (Hg3 : forall i x, h_dicts h !! i = Some x ->
                            h_dicts (forked_heap h c p mem mt st) !! i = Some x).
  { intros i x Hi. simpl. apply lookup_app_l_Some, lookup_app_l_Some. exact Hi. }
  assert (Hg4 : forall i x, h_lists h !! i = Some x ->
                            h_lists (forked_heap h c p mem mt st) !! i = Some x).
  { intros i x Hi. simpl. apply lookup_app_l_Some. exact Hi. }
  split; [exact (fork_eq h s c p mem st mt Hc Hp Hmem Hst Hmt)|].
  split; [reflexivity|].
  do 4 (split; [assumption|]).
  split; [intros c0; apply ctx_ok_grow; assumption|].
  exists (forked_ctx h c), (forked_path h p). simpl.
  split; [apply lookup_snoc_length|]. split; [apply lookup_snoc_length|].
  split; [exists mem|split; [exists st | exists mt]].
  - apply lookup_app_l_Some. apply lookup_snoc_length.
  - apply lookup_snoc_length.
  - replace (S (length (h_dicts h))) with (length (h_dicts h ++ [mem]))
      by (rewrite length_app; simpl; lia).
    apply lookup_snoc_length.
Qed.

Lemma fork_keeps_ok_witness :
  exists h', fork 0%nat example_heap = (h', Ok 1%nat) /\ ctx_ok h' 1%nat.
Proof.
  destruct (fork_keeps_ok example_heap 0%nat) as (h' & Hrun & _ & _ & _ & _ & _ & _ & Hok).
  - exists (ReasoningContext.mk 0%nat 0%nat "total cost?" 0%nat 0%nat false VNone 0),
           (ReasoningPath.mk 0%nat VNone false 0%R 1%nat).
    simpl. repeat split; eauto.
  - exists h'. split; [exact Hrun | exact Hok].
Defined.

(** X19.  Collecting a finished state while the list is below the cap:
    the state's path is appended, its [total_score] becomes the
    evaluator's score and its [final_answer] the state's answer, its
    steps and terminal flag stay, and its metadata afterwards holds the
    old entries overlaid by the evaluator's [extra]; the dict object that
    held the old metadata is not written to, and no state object
    changes. *)
Theorem collect_spec (h : Heap) (ctx : loc) (c : ReasoningContext.t)
  (pv : ReasoningPath.t) (mt : gmap string value) (cands : list loc) (maxc : Z)
  (er : EvalResult.t) :
  h_ctxs h !! ctx = Some c ->
  h_paths h !! ReasoningContext.path c = Some pv ->
  h_dicts h !! ReasoningPath.meta pv = Some mt ->
  Z.of_nat (length cands) < maxc ->
  (ReasoningContext.done c || ReasoningPath.terminal pv)%bool = true ->
  exists h' pv',
    _maybe_collect_ctx ctx cands maxc (Some er) h
    = (h', Ok (cands ++ [ReasoningContext.path c])) /\
    h_ctxs h' = h_ctxs h /\
    h_paths h' !! ReasoningContext.path c = Some pv' /\
    ReasoningPath.total_score pv' = EvalResult.score er /\
    ReasoningPath.final_answer pv' = ReasoningContext.answer c /\
    ReasoningPath.terminal pv' = ReasoningPath.terminal pv /\
    ReasoningPath.steps pv' = ReasoningPath.steps pv /\
    h_dicts h' !! ReasoningPath.meta pv'
    = Some (default ∅ (EvalResult.extra er) ∪ mt) /\
    h_dicts h' !! ReasoningPath.meta pv = Some mt.
Proof.
  intros Hc Hp Hmt Hlt Hfin.
  pose proof (lookup_lt_Some _ _ _ Hp) as Hlp.
  unfold _maybe_collect_ctx.
  replace (maxc <=? Z.of_nat (length cands)) with false
    by (symmetry; apply Z.leb_gt; exact Hlt).
  unfold bind at 1, get_ctx, of_option, ret at 1. rewrite Hc.
  unfold bind at 1, get_path, of_option, ret at 1. rewrite Hp. rewrite Hfin.
  destruct (nonempty_extra (EvalResult.extra er)) eqn:Ex.
  - unfold update_path, bind, get_path, get_dict, new_dict, of_option, modify, ret,
      with_paths, with_dicts.
    simpl. rewrite Hp. simpl. rewrite Hmt. simpl.
    repeat (first [ rewrite list_insert_insert_eq
                  | rewrite list_lookup_insert_eq by (rewrite ?length_insert; exact Hlp) ];
            simpl).
    eexists _, _. split; [reflexivity|]. simpl.
    split; [reflexivity|].
    split; [apply list_lookup_insert_eq; exact Hlp|]. simpl.
    do 4 (split; [reflexivity|]).
    split; [apply lookup_snoc_length | apply lookup_app_l_Some; exact Hmt].
  - unfold update_path, bind, get_path, of_option, modify, ret, with_paths.
    simpl. rewrite Hp. simpl.
    repeat (first [ rewrite list_insert_insert_eq
                  | rewrite list_lookup_insert_eq by (rewrite ?length_insert; exact Hlp) ];
            simpl).
    eexists _, _. split; [reflexivity|]. simpl.
    split; [reflexivity|].
    split; [apply list_lookup_insert_eq; exact Hlp|]. simpl.
    do 4 (split; [reflexivity|]).
    split; [|exact Hmt]. rewrite Hmt. f_equal.
    unfold nonempty_extra in Ex. destruct (EvalResult.extra er) as [d|]; simpl.
    + apply negb_false_iff, Nat.eqb_eq in Ex.
      apply map_size_empty_iff in Ex. rewrite Ex. rewrite (left_id ∅ (∪)). reflexivity.
    + rewrite (left_id ∅ (∪)). reflexivity.
Qed.

Lemma collect_spec_witness :
  exists h',
    _maybe_collect_ctx 0%nat [] 8 (Some (EvalResult.mk 0.5%R "" None)) debate_ctx_heap
    = (h', Ok [0%nat]).
Proof.
  destruct (collect_spec debate_ctx_heap 0%nat
              (ReasoningContext.mk 0%nat 0%nat "total cost?" 0%nat 0%nat true (VStr "10") 1)
              (ReasoningPath.mk 0%nat VNone true 0%R 1%nat) ∅ [] 8
              (EvalResult.mk 0.5%R "" None))
    as (h' & pv' & Hrun & _); try reflexivity.
  exists h'. exact Hrun.
Defined.

(** X20.  A node at the depth limit whose state is not done and whose
    path is not terminal is a dead weight: an iteration that selects it
    neither expands nor collects it and leaves the whole search state as
    it was, and so does every further iteration of the loop; the planner
    is not asked again. *)
Theorem depth_limit_stalls {W} (self : MCTSRunner W) (s : St W) (root node : nat)
  (n : MCTSNode.t) (c : ReasoningContext.t) (pv : ReasoningPath.t)
  (cands : list loc) (maxc : Z) :
  _select (exploration_c self) (st_heap s) (st_tree s) root = Ok node ->
  st_tree s !! node = Some n ->
  h_ctxs (st_heap s) !! MCTSNode.ctx n = Some c ->
  h_paths (st_heap s) !! ReasoningContext.path c = Some pv ->
  ReasoningContext.done c = false ->
  ReasoningPath.terminal pv = false ->
  SearchHeuristics.should_stop (heuristics self) (ReasoningContext.depth c) = true ->
  iteration self root cands maxc s = (s, Ok (cands, false)) /\
  forall iters, loop self iters root cands maxc s = (s, Ok cands).
Proof.
  intros Hsel Hn Hc Hp Hdone Hterm Hstop.
  assert (Hit : iteration self root cands maxc s = (s, Ok (cands, false))).
  { unfold iteration, bind, select, get_node, in_heap, get_ctx, of_option, ret.
    rewrite Hsel. simpl. rewrite Hn. simpl. rewrite Hc. simpl.
    rewrite Hdone, Hstop. simpl. rewrite st_eta.
    unfold _maybe_collect, bind, get_node, of_option, ret, in_heap. rewrite Hn.
    simpl. unfold _maybe_collect_ctx.
    destruct (maxc <=? Z.of_nat (length cands)).
    - unfold ret. rewrite st_eta. reflexivity.
    - unfold bind, get_ctx, get_path, of_option, ret. rewrite Hc. simpl.
      rewrite Hp. simpl. rewrite Hdone, Hterm. simpl. rewrite st_eta. reflexivity. }
  split; [exact Hit|].
  induction iters as [|iters IH]; simpl; [reflexivity|].
  unfold bind. rewrite Hit. exact IH.
Qed.

Lemma depth_limit_stalls_witness :
  loop shallow_runner 5 0%nat [] 8 (at_root 0%nat table_3x2 "total cost?" ∅)
  = (at_root 0%nat table_3x2 "total cost?" ∅, Ok []).
Proof.
  apply (depth_limit_stalls shallow_runner (at_root 0%nat table_3x2 "total cost?" ∅)
           0%nat 0%nat (MCTSNode.new 0%nat None None)
           (ReasoningContext.mk 0%nat 0%nat "total cost?" 0%nat 0%nat false VNone 0)
           (ReasoningPath.mk 0%nat VNone false 0%R 1%nat) [] 8);
    reflexivity.
Defined.

(** *** The whole expansion when every proposal has been tried *)

Section ExpandRun.
Context {W : Type}.
Variable self : MCTSRunner W.
Import MCTSNode.





End ExpandRun.


